(** * Vantum voice-chat client core: a shallow embedding and its properties

    The development follows the TypeScript sources module by module:

    - [Registry]  : [HandlerRegistry] (routing of decoded messages),
    - [Client]    : [SocketClient] (connection state machine, connection
                    waiters, reconnect schedule),
    - [Tracker]   : [RequestTracker] and [SocketManager.sendMessagePackWithAck],
    - [Pcm]       : the Int16 <-> Float32 conversions of playback and capture,
    - [Playback]  : [AudioPlayback] (chunk queue, utterance switch) and the
                    response-chunk handler of the VoiceChat component,
    - [Emitter]   : [EventEmitter] (listener sets, [once], [emit]),
    - [Monitor]   : [NetworkMonitor] (debounced online/offline reports),
    - [Manager]   : [SocketManager.handleIncomingData] (acknowledgments
                    against the tracker, everything else to the registry).

    JavaScript objects that are mutated in place are modelled by explicit
    state passing; callbacks fired by the platform (timers, socket events,
    promise jobs, audio-source completion) are the events of a step function. *)

From stdpp Require Import gmap strings list sorting pretty.
From Stdlib Require Import ZArith Lia Bool.
From Stdlib Require Import Floats.SpecFloat.

(** ** Strings as the sources use them *)

(** [s.endsWith(suffix)] *)
Definition endsWith (s suffix : string) : bool :=
  let n := String.length s in
  let k := String.length suffix in
  (k <=? n)%nat && String.eqb (String.substring (n - k) k s) suffix.

(** [s.replace(/\.error$/, '')]: the suffix is removed when it is there. *)
Definition stripErrorSuffix (s : string) : string :=
  if endsWith s ".error" then String.substring 0 (String.length s - 6) s else s.

(** A string that may be [null] or [undefined], used as a condition:
    [null], [undefined] and the empty string are falsy. *)
Definition truthy (s : option string) : option string :=
  match s with
  | Some s => if String.eqb s "" then None else Some s
  | None => None
  end.

(** First defined entry of a list of lookups, in order. *)
Fixpoint first_found {A} (candidates : list (option A)) : option A :=
  match candidates with
  | [] => None
  | Some a :: _ => Some a
  | None :: rest => first_found rest
  end.

(** The value of the first pair with key [k] in an association list. *)
Fixpoint lookup_first {K A} `{EqDecision K} (k : K) (l : list (K * A))
    : option A :=
  match l with
  | [] => None
  | (k', v) :: l' => if decide (k' = k) then Some v else lookup_first k l'
  end.

(** * HandlerRegistry (manager/handler-registry.ts) *)

Module Registry.

Section WithHandlers.

(** A handler is an object with an async [handle] method; what it does with
    a message is outside the registry, so its outcome is a parameter:
    either the returned promise fulfils, or it rejects with an error. *)
Context {Handler Message : Type}.

Inductive HandleResult :=
| Returned
| Threw (error : string).

Variable handle : Handler -> Message -> string -> HandleResult.

Record HandlerRegistry := {
  handlers : gmap string Handler;
  errorHandlers : gmap string Handler;
}.

Definition empty : HandlerRegistry :=
  {| handlers := ∅; errorHandlers := ∅ |}.

Definition registerHandler (eventType : string) (h : Handler)
    (reg : HandlerRegistry) : HandlerRegistry :=
  {| handlers := <[eventType := h]> (handlers reg);
     errorHandlers := errorHandlers reg |}.

Definition registerErrorHandler (eventType : string) (h : Handler)
    (reg : HandlerRegistry) : HandlerRegistry :=
  {| handlers := handlers reg;
     errorHandlers := <[eventType := h]> (errorHandlers reg) |}.

Definition unregisterHandler (eventType : string)
    (reg : HandlerRegistry) : HandlerRegistry :=
  {| handlers := delete eventType (handlers reg);
     errorHandlers := delete eventType (errorHandlers reg) |}.

Definition getHandler (reg : HandlerRegistry) (eventType : string)
    : option Handler :=
  handlers reg !! eventType.

Definition getErrorHandler (reg : HandlerRegistry) (eventType : string)
    : option Handler :=
  match errorHandlers reg !! eventType with
  | Some h => Some h
  | None =>
      if endsWith eventType ".error"
      then errorHandlers reg !! stripErrorSuffix eventType
      else None
  end.

(** What [routeMessage] does that can be observed: handler invocations and
    the error it logs. *)
Inductive Trace :=
| Invoked (h : Handler) (eventType : string)
| LoggedError (eventType : string) (error : string).

(** Code that logs and may throw: the trace so far and either the thrown
    error or the value. *)
Definition Route (A : Type) : Type := list Trace * (string + A).

Definition ret {A} (a : A) : Route A := ([], inr a).

Definition bind {A B} (m : Route A) (k : A -> Route B) : Route B :=
  match m with
  | (t, inl e) => (t, inl e)
  | (t, inr a) => let '(t', r) := k a in (t ++ t', r)
  end.

Definition try_catch {A} (body : Route A) (handler : string -> Route A)
    : Route A :=
  match body with
  | (t, inl e) => let '(t', r) := handler e in (t ++ t', r)
  | (t, inr a) => (t, inr a)
  end.

(** [await h.handle(data, eventType, manager, unpackedMessage)] *)
Definition invoke (h : Handler) (msg : Message) (eventType : string)
    : Route unit :=
  ([Invoked h eventType],
   match handle h msg eventType with
   | Returned => inr tt
   | Threw e => inl e
   end).

Definition logError (eventType error : string) : Route unit :=
  ([LoggedError eventType error], inr tt).

Definition routeRegular (reg : HandlerRegistry) (msg : Message)
    (eventType : string) : Route bool :=
  match getHandler reg eventType with
  | Some handler => bind (invoke handler msg eventType) (fun _ => ret true)
  | None => ret false
  end.

Definition routeMessage (reg : HandlerRegistry) (msg : Message)
    (eventType : string) : Route bool :=
  try_catch
    (if endsWith eventType ".error" then
       match getErrorHandler reg eventType with
       | Some errorHandler =>
           bind (invoke errorHandler msg eventType) (fun _ => ret true)
       | None =>
           match getHandler reg "error" with
           | Some wildcardErrorHandler =>
               bind (invoke wildcardErrorHandler msg eventType)
                    (fun _ => ret true)
           | None => routeRegular reg msg eventType
           end
       end
     else routeRegular reg msg eventType)
    (fun error => bind (logError eventType error) (fun _ => ret false)).

(** The handlers a routing run invoked, in order. *)
Definition invoked (r : Route bool) : list Handler :=
  omap (fun t => match t with Invoked h _ => Some h | _ => None end) (fst r).

(** [handled] is the boolean the caller receives; [None] would be an
    exception leaving [routeMessage]. *)
Definition handled (r : Route bool) : option bool :=
  match snd r with
  | inr b => Some b
  | inl _ => None
  end.

(** The lookups of the code, in the order the code performs them. *)
Definition lookup_order (reg : HandlerRegistry) (eventType : string)
    : list (option Handler) :=
  if endsWith eventType ".error" then
    [ errorHandlers reg !! eventType;
      errorHandlers reg !! stripErrorSuffix eventType;
      handlers reg !! "error";
      handlers reg !! eventType ]
  else
    [ handlers reg !! eventType ].

(** The lookups as the specification words them: primary map under the
    full event type, error registry under the stripped type, primary map
    under the wildcard key. *)
Definition spec_lookup_order (reg : HandlerRegistry) (eventType : string)
    : list (option Handler) :=
  if endsWith eventType ".error" then
    [ handlers reg !! eventType;
      errorHandlers reg !! stripErrorSuffix eventType;
      handlers reg !! "error" ]
  else
    [ handlers reg !! eventType ].

End WithHandlers.

Arguments HandlerRegistry : clear implicits.

End Registry.

(** ** Registries used as concrete inputs *)

(** A registry with a primary handler for ["voicechat.audio.error"] and an
    error handler for ["voicechat.audio"]; handlers are numbered. *)
Definition audio_error_registry : Registry.HandlerRegistry nat :=
  Registry.registerErrorHandler "voicechat.audio" 2
    (Registry.registerHandler "voicechat.audio.error" 1 Registry.empty).

Definition quiet_handle (h : nat) (msg : unit) (ty : string)
    : Registry.HandleResult :=
  Registry.Returned.

(** Handler 7 throws, every other handler returns. *)
Definition faulty_handle (h : nat) (msg : unit) (ty : string)
    : Registry.HandleResult :=
  if Nat.eqb h 7 then Registry.Threw "boom" else Registry.Returned.

Definition chunk_registry : Registry.HandlerRegistry nat :=
  Registry.registerHandler "voicechat.response.chunk" 7 Registry.empty.

(** * SocketClient (client/socket-client.ts) *)

Module Client.

Inductive ConnectionState :=
| disconnected
| connecting
| connected
| reconnecting
| error.

(** [WebSocket.readyState] *)
Inductive ReadyState := CONNECTING | OPEN | CLOSING | CLOSED.

Definition ConnectionState_eqb (a b : ConnectionState) : bool :=
  match a, b with
  | disconnected, disconnected | connecting, connecting
  | connected, connected | reconnecting, reconnecting | error, error => true
  | _, _ => false
  end.

Definition ReadyState_eqb (a b : ReadyState) : bool :=
  match a, b with
  | CONNECTING, CONNECTING | OPEN, OPEN
  | CLOSING, CLOSING | CLOSED, CLOSED => true
  | _, _ => false
  end.

(** The part of [wsConfig] the client reads (config/websocket-config.ts);
    times are in milliseconds. *)
Record ReconnectDelays := {
  initial : Z;
  second : Z;
  max : Z;
}.

Record WebSocketConfig := {
  connectionTimeout : Z;
  maxReconnectAttempts : nat;
  pingInterval : Z;
  reconnectDelays : ReconnectDelays;
}.

Definition defaultConfig : WebSocketConfig := {|
  connectionTimeout := 30000;
  maxReconnectAttempts := 6;
  pingInterval := 30000;
  reconnectDelays := {| initial := 2000; second := 5000; max := 10000 |};
|}.

(** [WEBSOCKET_CONSTANTS.CLOSE_CODES] (constants.ts) *)
Definition CLOSE_NORMAL : Z := 1000.
Definition CLOSE_ABNORMAL : Z := 1006.

Definition Data := list Byte.byte.

(** What the client does that its environment can observe, in order:
    ['state'] and ['error'] emissions, the settlement of the promise of a
    connection waiter, the outcome of a [send] that never registered a
    waiter, frames written to a socket, and reconnect timers armed. *)
Inductive Obs :=
| StateEmitted (s : ConnectionState)
| ErrorEmitted
| WaiterResolved (id : nat)
| WaiterRejected (id : nat) (reason : string)
| SendRejected (reason : string)
| WireSent (sock : nat) (data : Data)
| ReconnectScheduled (delay : Z).

(** The fields of the class. [sockets] holds the [readyState] of every
    [WebSocket] object created so far (the browser owns them, [ws] refers to
    one by its index); [connectionWaiters] is the [Map] in insertion order,
    each waiter with the frame its suspended [send] will write;
    [reconnectTimer] holds the delay the pending timer was armed with. *)
Record SocketClient := {
  sockets : list ReadyState;
  ws : option nat;
  currentUrl : option string;
  state : ConnectionState;
  reconnectAttempts : nat;
  reconnectTimer : option Z;
  shouldReconnect : bool;
  connectionWaiters : list (nat * Data);
  nextWaiter : nat;
  pingTimer : bool;
  isOnline : bool;
  history : list Obs;
}.

Definition init (online : bool) : SocketClient := {|
  sockets := [];
  ws := None;
  currentUrl := None;
  state := disconnected;
  reconnectAttempts := 0;
  reconnectTimer := None;
  shouldReconnect := true;
  connectionWaiters := [];
  nextWaiter := 0;
  pingTimer := false;
  isOnline := online;
  history := [];
|}.

(** Field updates. *)
Definition set_sockets v (c : SocketClient) : SocketClient :=
  {| sockets := v; ws := ws c; currentUrl := currentUrl c; state := state c;
     reconnectAttempts := reconnectAttempts c;
     reconnectTimer := reconnectTimer c; shouldReconnect := shouldReconnect c;
     connectionWaiters := connectionWaiters c; nextWaiter := nextWaiter c;
     pingTimer := pingTimer c; isOnline := isOnline c; history := history c |}.

Definition set_ws v (c : SocketClient) : SocketClient :=
  {| sockets := sockets c; ws := v; currentUrl := currentUrl c;
     state := state c; reconnectAttempts := reconnectAttempts c;
     reconnectTimer := reconnectTimer c; shouldReconnect := shouldReconnect c;
     connectionWaiters := connectionWaiters c; nextWaiter := nextWaiter c;
     pingTimer := pingTimer c; isOnline := isOnline c; history := history c |}.

Definition set_currentUrl v (c : SocketClient) : SocketClient :=
  {| sockets := sockets c; ws := ws c; currentUrl := v; state := state c;
     reconnectAttempts := reconnectAttempts c;
     reconnectTimer := reconnectTimer c; shouldReconnect := shouldReconnect c;
     connectionWaiters := connectionWaiters c; nextWaiter := nextWaiter c;
     pingTimer := pingTimer c; isOnline := isOnline c; history := history c |}.

Definition set_state v (c : SocketClient) : SocketClient :=
  {| sockets := sockets c; ws := ws c; currentUrl := currentUrl c; state := v;
     reconnectAttempts := reconnectAttempts c;
     reconnectTimer := reconnectTimer c; shouldReconnect := shouldReconnect c;
     connectionWaiters := connectionWaiters c; nextWaiter := nextWaiter c;
     pingTimer := pingTimer c; isOnline := isOnline c; history := history c |}.

Definition set_reconnectAttempts v (c : SocketClient) : SocketClient :=
  {| sockets := sockets c; ws := ws c; currentUrl := currentUrl c;
     state := state c; reconnectAttempts := v;
     reconnectTimer := reconnectTimer c; shouldReconnect := shouldReconnect c;
     connectionWaiters := connectionWaiters c; nextWaiter := nextWaiter c;
     pingTimer := pingTimer c; isOnline := isOnline c; history := history c |}.

Definition set_reconnectTimer v (c : SocketClient) : SocketClient :=
  {| sockets := sockets c; ws := ws c; currentUrl := currentUrl c;
     state := state c; reconnectAttempts := reconnectAttempts c;
     reconnectTimer := v; shouldReconnect := shouldReconnect c;
     connectionWaiters := connectionWaiters c; nextWaiter := nextWaiter c;
     pingTimer := pingTimer c; isOnline := isOnline c; history := history c |}.

Definition set_shouldReconnect v (c : SocketClient) : SocketClient :=
  {| sockets := sockets c; ws := ws c; currentUrl := currentUrl c;
     state := state c; reconnectAttempts := reconnectAttempts c;
     reconnectTimer := reconnectTimer c; shouldReconnect := v;
     connectionWaiters := connectionWaiters c; nextWaiter := nextWaiter c;
     pingTimer := pingTimer c; isOnline := isOnline c; history := history c |}.

Definition set_connectionWaiters v (c : SocketClient) : SocketClient :=
  {| sockets := sockets c; ws := ws c; currentUrl := currentUrl c;
     state := state c; reconnectAttempts := reconnectAttempts c;
     reconnectTimer := reconnectTimer c; shouldReconnect := shouldReconnect c;
     connectionWaiters := v; nextWaiter := nextWaiter c;
     pingTimer := pingTimer c; isOnline := isOnline c; history := history c |}.

Definition set_nextWaiter v (c : SocketClient) : SocketClient :=
  {| sockets := sockets c; ws := ws c; currentUrl := currentUrl c;
     state := state c; reconnectAttempts := reconnectAttempts c;
     reconnectTimer := reconnectTimer c; shouldReconnect := shouldReconnect c;
     connectionWaiters := connectionWaiters c; nextWaiter := v;
     pingTimer := pingTimer c; isOnline := isOnline c; history := history c |}.

Definition set_pingTimer v (c : SocketClient) : SocketClient :=
  {| sockets := sockets c; ws := ws c; currentUrl := currentUrl c;
     state := state c; reconnectAttempts := reconnectAttempts c;
     reconnectTimer := reconnectTimer c; shouldReconnect := shouldReconnect c;
     connectionWaiters := connectionWaiters c; nextWaiter := nextWaiter c;
     pingTimer := v; isOnline := isOnline c; history := history c |}.

Definition set_isOnline v (c : SocketClient) : SocketClient :=
  {| sockets := sockets c; ws := ws c; currentUrl := currentUrl c;
     state := state c; reconnectAttempts := reconnectAttempts c;
     reconnectTimer := reconnectTimer c; shouldReconnect := shouldReconnect c;
     connectionWaiters := connectionWaiters c; nextWaiter := nextWaiter c;
     pingTimer := pingTimer c; isOnline := v; history := history c |}.

Definition observe (o : list Obs) (c : SocketClient) : SocketClient :=
  {| sockets := sockets c; ws := ws c; currentUrl := currentUrl c;
     state := state c; reconnectAttempts := reconnectAttempts c;
     reconnectTimer := reconnectTimer c; shouldReconnect := shouldReconnect c;
     connectionWaiters := connectionWaiters c; nextWaiter := nextWaiter c;
     pingTimer := pingTimer c; isOnline := isOnline c;
     history := history c ++ o |}.

(** [this.ws?.readyState] *)
Definition ws_readyState (c : SocketClient) : option ReadyState :=
  match ws c with
  | Some i => sockets c !! i
  | None => None
  end.

Definition ready_is (r : ReadyState) (o : option ReadyState) : bool :=
  match o with
  | Some r' => ReadyState_eqb r' r
  | None => false
  end.

Section WithConfig.

Variable wsConfig : WebSocketConfig.

(** [new WebSocket(url)] throws on a URL it cannot parse; which URLs those
    are is the platform's business. *)
Variable url_ok : string -> bool.

Definition getReconnectDelay (c : SocketClient) : Z :=
  match reconnectAttempts c with
  | 0 => initial (reconnectDelays wsConfig)
  | 1 => second (reconnectDelays wsConfig)
  | _ => max (reconnectDelays wsConfig)
  end.

Definition isConnected (c : SocketClient) : bool :=
  ConnectionState_eqb (state c) connected && ready_is OPEN (ws_readyState c).

Definition setState (newState : ConnectionState) (c : SocketClient)
    : SocketClient :=
  if ConnectionState_eqb (state c) newState then c
  else observe [StateEmitted newState] (set_state newState c).

Definition startPingTimer (c : SocketClient) : SocketClient :=
  set_pingTimer true c.

Definition stopPingTimer (c : SocketClient) : SocketClient :=
  set_pingTimer false c.

Definition scheduleReconnect (c : SocketClient) : SocketClient :=
  if bool_decide (is_Some (reconnectTimer c)) then c
  else if negb (shouldReconnect c) then c
  else if negb (bool_decide (is_Some (truthy (currentUrl c)))) then c
  else if negb (isOnline c) then c
  else if (maxReconnectAttempts wsConfig <=? reconnectAttempts c)%nat
  then setState error c
  else
    let delay := getReconnectDelay c in
    let c := set_reconnectAttempts (S (reconnectAttempts c)) c in
    let c := setState reconnecting c in
    observe [ReconnectScheduled delay] (set_reconnectTimer (Some delay) c).

Definition connect (url : string) (c : SocketClient) : SocketClient :=
  if ready_is OPEN (ws_readyState c) then c
  else if ready_is CONNECTING (ws_readyState c) then c
  else if negb (isOnline c) then setState error c
  else
    let c := set_currentUrl (Some url) c in
    let c := set_shouldReconnect true c in
    let c := setState connecting c in
    if url_ok url then
      set_ws (Some (length (sockets c)))
        (set_sockets (sockets c ++ [CONNECTING]) c)
    else
      scheduleReconnect (observe [ErrorEmitted] (setState error c)).

Definition sendImmediately (data : Data) (c : SocketClient) : SocketClient :=
  match ws c with
  | Some i =>
      if ready_is OPEN (sockets c !! i)
      then observe [WireSent i data] c
      else observe [SendRejected "WebSocket not connected"] c
  | None => observe [SendRejected "WebSocket not connected"] c
  end.

(** The rest of [send] after [await this.waitForConnection()] fulfilled. *)
Definition sendAfterWait (data : Data) (c : SocketClient) : SocketClient :=
  match ws c with
  | Some _ => sendImmediately data c
  | None => observe [SendRejected "WebSocket not available after connection"] c
  end.

(** [waiter.resolve()] and [waiter.reject(error)]: the timeout is cleared,
    the waiter leaves the map, the promise is settled. *)
Definition waiter_settle (w : nat * Data) (c : SocketClient) : SocketClient :=
  let c := set_connectionWaiters
             (filter (fun x => x.1 <> w.1) (connectionWaiters c)) c in
  observe [WaiterResolved w.1] c.

Definition waiter_reject (reason : string) (w : nat * Data) (c : SocketClient)
    : SocketClient :=
  let c := set_connectionWaiters
             (filter (fun x => x.1 <> w.1) (connectionWaiters c)) c in
  observe [WaiterRejected w.1 reason] c.

(** A fulfilled promise resumes the [send] that awaits it, in a promise
    job: once the code that settled the waiter has returned, and before
    any other callback runs. [waiter_resolve] is a waiter resolved on its
    own, followed by the rest of its [send]. *)
Definition waiter_resolve (w : nat * Data) (c : SocketClient) : SocketClient :=
  sendAfterWait w.2 (waiter_settle w c).

(** [resumeConnectionWaiters(success)]: the waiters are settled in the
    order of the map; the [send]s of resolved waiters resume afterwards, in
    the same order. *)
Definition resumeConnectionWaiters (success : bool) (c : SocketClient)
    : SocketClient :=
  let waiters := connectionWaiters c in
  let c := set_connectionWaiters [] c in
  if success then
    let c := foldl (fun c w => waiter_settle w c) c waiters in
    foldl (fun c w => sendAfterWait w.2 c) c waiters
  else
    foldl (fun c w => waiter_reject "Connection failed" w c) c waiters.

Definition waitForConnection (data : Data) (c : SocketClient) : SocketClient :=
  if isConnected c then sendAfterWait data c
  else if negb (isOnline c)
          || negb (bool_decide (is_Some (truthy (currentUrl c))))
  then observe [SendRejected "Network unavailable or no URL"] c
  else
    let c :=
      match currentUrl c with
      | Some url =>
          if negb (isConnected c) && isOnline c then connect url c else c
      | None => c
      end in
    let w := (nextWaiter c, data) in
    let c := set_nextWaiter (S (nextWaiter c)) c in
    if isConnected c then waiter_resolve w c
    else set_connectionWaiters (connectionWaiters c ++ [w]) c.

Definition send (data : Data) (c : SocketClient) : SocketClient :=
  if isConnected c && bool_decide (is_Some (ws c))
  then sendImmediately data c
  else waitForConnection data c.

(** [ws.close(code, reason)]: the socket starts closing. *)
Definition ws_close (i : nat) (c : SocketClient) : SocketClient :=
  match sockets c !! i with
  | Some CLOSED => c
  | Some _ => set_sockets (<[i := CLOSING]> (sockets c)) c
  | None => c
  end.

Definition disconnect (clear : bool) (c : SocketClient) : SocketClient :=
  let c := set_shouldReconnect false c in
  let c := set_reconnectTimer None c in
  let c := resumeConnectionWaiters false c in
  let c := match ws c with
           | Some i => set_ws None (ws_close i c)
           | None => c
           end in
  let c := stopPingTimer c in
  let c := setState disconnected c in
  if clear then set_currentUrl None c else c.

Definition handlePingFailure (c : SocketClient) : SocketClient :=
  let c := setState disconnected c in
  let c := match ws c with
           | Some i => set_ws None (ws_close i c)
           | None => c
           end in
  if bool_decide (is_Some (truthy (currentUrl c))) && isOnline c
  then scheduleReconnect c else c.

(** The callbacks installed by [connect] on every socket it creates. *)
Definition onopen (c : SocketClient) : SocketClient :=
  let c := setState connected c in
  let c := set_reconnectAttempts 0 c in
  let c := startPingTimer c in
  resumeConnectionWaiters true c.

Definition onerror (c : SocketClient) : SocketClient :=
  observe [ErrorEmitted] (setState error c).

Definition onclose (code : Z) (c : SocketClient) : SocketClient :=
  let c := setState disconnected c in
  let c := set_ws None c in
  let c := stopPingTimer c in
  let c := resumeConnectionWaiters false c in
  if shouldReconnect c && negb (code =? CLOSE_NORMAL)%Z
  then scheduleReconnect c else c.

(** The callback of the reconnect timer. *)
Definition reconnectTimerCallback (c : SocketClient) : SocketClient :=
  let c := set_reconnectTimer None c in
  if negb (isOnline c) then setState disconnected c
  else if isConnected c then c
  else if ConnectionState_eqb (state c) connecting then c
  else match truthy (currentUrl c) with
       | Some url => connect url c
       | None => c
       end.

(** The callback of the timeout armed by [waitForConnection] for waiter
    [id]. *)
Definition waiterTimeoutCallback (id : nat) (c : SocketClient) : SocketClient :=
  match list_find (fun x => x.1 = id) (connectionWaiters c) with
  | Some _ =>
      observe [WaiterRejected id "Connection timeout"]
        (set_connectionWaiters
           (filter (fun x => x.1 <> id) (connectionWaiters c)) c)
  | None => c
  end.

(** The listener on the network monitor's ['change'] event. *)
Definition onNetworkChange (online : bool) (c : SocketClient) : SocketClient :=
  if online && negb (isConnected c)
     && bool_decide (is_Some (truthy (currentUrl c)))
  then scheduleReconnect c else c.

Definition pingTimerCallback (c : SocketClient) : SocketClient :=
  if negb (isConnected c) || negb (bool_decide (is_Some (ws c)))
  then stopPingTimer c
  else if negb (ready_is OPEN (ws_readyState c)) then handlePingFailure c
  else c.

(** What can happen to a client: calls of its public methods, and callbacks
    fired by the platform. *)
Inductive Event :=
| Connect (url : string)
| Disconnect (clear : bool)
| Send (data : Data)
| WaiterTimeout (id : nat)
| ReconnectTimerFired
| WsOpen (sock : nat)
| WsError (sock : nat)
| WsClose (sock : nat) (code : Z)
| WsDrop (sock : nat)
| NetworkChange (online : bool)
| PingTick.

(** A callback fires only when the platform can fire it: a socket opens
    while it is connecting, closes once, a timer fires while it is armed, the
    monitor reports changes only. Otherwise the event leaves the client
    alone. *)
Definition step (c : SocketClient) (e : Event) : SocketClient :=
  match e with
  | Connect url => connect url c
  | Disconnect clear => disconnect clear c
  | Send data => send data c
  | WaiterTimeout id => waiterTimeoutCallback id c
  | ReconnectTimerFired =>
      if bool_decide (is_Some (reconnectTimer c))
      then reconnectTimerCallback c else c
  | WsOpen i =>
      match sockets c !! i with
      | Some CONNECTING => onopen (set_sockets (<[i := OPEN]> (sockets c)) c)
      | _ => c
      end
  | WsError i =>
      match sockets c !! i with
      | Some CLOSED | None => c
      | Some _ => onerror c
      end
  | WsClose i code =>
      match sockets c !! i with
      | Some CLOSED | None => c
      | Some _ => onclose code (set_sockets (<[i := CLOSED]> (sockets c)) c)
      end
  | WsDrop i =>
      match sockets c !! i with
      | Some OPEN => set_sockets (<[i := CLOSING]> (sockets c)) c
      | _ => c
      end
  | NetworkChange online =>
      if Bool.eqb (isOnline c) online then c
      else onNetworkChange online (set_isOnline online c)
  | PingTick => if pingTimer c then pingTimerCallback c else c
  end.

Definition run (es : list Event) (c : SocketClient) : SocketClient :=
  foldl step c es.

Definition is_settlement (o : Obs) : bool :=
  match o with
  | WaiterResolved _ | WaiterRejected _ _ => true
  | _ => false
  end.

(** The settlements of connection waiters in a history, in order. *)
Definition waiter_settlements (h : list Obs) : list Obs :=
  filter (fun o => is_settlement o) h.

(** What an event does to the waiters registered when it arrives. *)
Definition expected_settlements (c : SocketClient) (e : Event) : list Obs :=
  match e with
  | WsOpen i =>
      match sockets c !! i with
      | Some CONNECTING =>
          map (fun w => WaiterResolved w.1) (connectionWaiters c)
      | _ => []
      end
  | WsClose i _ =>
      match sockets c !! i with
      | Some CLOSED | None => []
      | Some _ =>
          map (fun w => WaiterRejected w.1 "Connection failed")
              (connectionWaiters c)
      end
  | Disconnect _ =>
      map (fun w => WaiterRejected w.1 "Connection failed")
          (connectionWaiters c)
  | WaiterTimeout id =>
      match list_find (fun x => x.1 = id) (connectionWaiters c) with
      | Some _ => [WaiterRejected id "Connection timeout"]
      | None => []
      end
  | _ => []
  end.



(** What [getReconnectDelay] returns when the counter is [n]. *)
Definition delay_of_attempt (n : nat) : Z :=
  match n with
  | 0 => initial (reconnectDelays wsConfig)
  | 1 => second (reconnectDelays wsConfig)
  | _ => max (reconnectDelays wsConfig)
  end.


End WithConfig.

End Client.

(** ** Clients used as concrete inputs *)

Definition accept_url (url : string) : bool := true.



(** A send issued while the first connection attempt is in progress. *)
Definition latent_send : list Client.Event :=
  [Client.Connect "ws://voice"; Client.Send []].

(** * RequestTracker (manager/request-tracker.ts) *)

Module Tracker.

(** A decoded message as far as the manager looks into it. *)
Record UnpackedMessage := {
  msg_eventType : string;
  msg_eventId : option string;
  msg_sessionId : option string;
  msg_success : bool;
}.

(** [wsConfig.requestTracker]; times are in milliseconds. *)
Record RequestTrackerConfig := {
  defaultTimeout : Z;
  maxPendingRequests : nat;
  cleanupInterval : Z;
}.

Definition defaultConfig : RequestTrackerConfig := {|
  defaultTimeout := 30000;
  maxPendingRequests := 100;
  cleanupInterval := 60000;
|}.

(** [Number(import.meta.env.X) || fallback] for a count: an override that is
    absent or zero gives the fallback. *)
Definition env_or (override : option nat) (fallback : nat) : nat :=
  match override with
  | Some (S n) => S n
  | _ => fallback
  end.

(** How a promise handed out by the tracker is settled. *)
Inductive Settlement :=
| Resolved (ack : UnpackedMessage)
| Rejected (message : string).

(** The error messages of the tracker. *)
Definition limit_message : string := "Request tracker limit reached".
Definition cancel_message : string := "Request cancelled".
Definition clear_message : string := "Request tracker cleared".
Definition timeout_message (eventType eventId : string) : string :=
  "Request timeout for " +:+ eventType +:+ " (" +:+ eventId +:+ ")".
Definition cleanup_message (eventType eventId : string) : string :=
  "Request cleanup: " +:+ eventType +:+ " (" +:+ eventId +:+ ")".

(** A pending request. [resolve] and [reject] of the source are closures
    over the promise [trackRequest] created for the record; the wrappers
    installed for a duplicate event id chain further promises behind them.
    The record holds these promises: [promise] is the one of the original
    call, [duplicates] those of the wrappers in the order they were
    installed, so that [request.resolve(ack)] and [request.reject(error)]
    settle [promise :: duplicates]. [timeout] is the handle returned by
    [setTimeout]. *)
Record PendingRequest := {
  eventId : string;
  eventType : string;
  timestamp : Z;
  promise : nat;
  duplicates : list nat;
  timeout : nat;
}.

Definition listeners (r : PendingRequest) : list nat :=
  promise r :: duplicates r.

(** An armed [setTimeout] of [trackRequest]: its handle, its delay, and
    what its callback closes over. *)
Record Timer := {
  handle : nat;
  delay : Z;
  t_eventId : string;
  t_eventType : string;
  t_promise : nat;
}.

(** The promise job queued by the duplicate branch of [trackRequest]: it
    will wrap [resolve] and [reject] of the record it captured (identified
    by the record's timer handle) for the promise it returned. *)
Record Job := {
  j_request : nat;
  j_promise : nat;
}.

(** The tracker: [pendingRequests] is the [Map] in insertion order.
    [settled] lists every call of a promise's [resolve] or [reject] with the
    promise it settles; [duplicatePromises] lists the promises handed out by
    the duplicate branch. *)
Record RequestTracker := {
  pendingRequests : list (string * PendingRequest);
  timers : list Timer;
  jobs : list Job;
  cleanupTimer : bool;
  settled : list (nat * Settlement);
  duplicatePromises : list nat;
  nextPromise : nat;
  nextTimer : nat;
}.

(** [new RequestTracker()] starts the cleanup timer. *)
Definition init : RequestTracker := {|
  pendingRequests := [];
  timers := [];
  jobs := [];
  cleanupTimer := true;
  settled := [];
  duplicatePromises := [];
  nextPromise := 0;
  nextTimer := 0;
|}.

Definition set_pendingRequests v (t : RequestTracker) : RequestTracker :=
  {| pendingRequests := v; timers := timers t; jobs := jobs t;
     cleanupTimer := cleanupTimer t; settled := settled t;
     duplicatePromises := duplicatePromises t;
     nextPromise := nextPromise t; nextTimer := nextTimer t |}.

Definition set_timers v (t : RequestTracker) : RequestTracker :=
  {| pendingRequests := pendingRequests t; timers := v; jobs := jobs t;
     cleanupTimer := cleanupTimer t; settled := settled t;
     duplicatePromises := duplicatePromises t;
     nextPromise := nextPromise t; nextTimer := nextTimer t |}.

Definition set_jobs v (t : RequestTracker) : RequestTracker :=
  {| pendingRequests := pendingRequests t; timers := timers t; jobs := v;
     cleanupTimer := cleanupTimer t; settled := settled t;
     duplicatePromises := duplicatePromises t;
     nextPromise := nextPromise t; nextTimer := nextTimer t |}.

Definition set_cleanupTimer v (t : RequestTracker) : RequestTracker :=
  {| pendingRequests := pendingRequests t; timers := timers t;
     jobs := jobs t; cleanupTimer := v; settled := settled t;
     duplicatePromises := duplicatePromises t;
     nextPromise := nextPromise t; nextTimer := nextTimer t |}.

Definition set_settled v (t : RequestTracker) : RequestTracker :=
  {| pendingRequests := pendingRequests t; timers := timers t;
     jobs := jobs t; cleanupTimer := cleanupTimer t; settled := v;
     duplicatePromises := duplicatePromises t;
     nextPromise := nextPromise t; nextTimer := nextTimer t |}.

(** [pendingRequests.get(eventId)] *)
Definition get (k : string) (t : RequestTracker) : option PendingRequest :=
  lookup_first k (pendingRequests t).

(** [pendingRequests.delete(eventId)] *)
Definition delete (k : string) (t : RequestTracker) : RequestTracker :=
  set_pendingRequests (filter (fun e => e.1 <> k) (pendingRequests t)) t.

(** [pendingRequests.set(eventId, request)]: a present key keeps its place,
    a new key goes last. *)
Definition set (k : string) (r : PendingRequest) (t : RequestTracker)
    : RequestTracker :=
  match get k t with
  | Some _ =>
      set_pendingRequests
        (map (fun e => if decide (e.1 = k) then (k, r) else e)
             (pendingRequests t)) t
  | None => set_pendingRequests (pendingRequests t ++ [(k, r)]) t
  end.

Definition clearTimeout (h : nat) (t : RequestTracker) : RequestTracker :=
  set_timers (filter (fun tm => handle tm <> h) (timers t)) t.

(** A call of the [resolve] or [reject] function of promise [p]. *)
Definition settle (p : nat) (o : Settlement) (t : RequestTracker)
    : RequestTracker :=
  set_settled (settled t ++ [(p, o)]) t.

(** [request.resolve(ack)], [request.reject(error)]: the original closure
    runs first, then the wrappers in the order they were installed. *)
Definition settle_request (r : PendingRequest) (o : Settlement)
    (t : RequestTracker) : RequestTracker :=
  foldl (fun t p => settle p o t) t (listeners r).

(** [Array.from(entries).sort((a, b) => a[1].timestamp - b[1].timestamp)]:
    the sort is stable, entries with equal timestamps keep their order. *)
Fixpoint insert_by_timestamp (e : string * PendingRequest)
    (l : list (string * PendingRequest)) : list (string * PendingRequest) :=
  match l with
  | [] => [e]
  | x :: l' =>
      if (timestamp e.2 <=? timestamp x.2)%Z then e :: x :: l'
      else x :: insert_by_timestamp e l'
  end.

Definition sort_by_timestamp (l : list (string * PendingRequest))
    : list (string * PendingRequest) :=
  foldr insert_by_timestamp [] l.

Section WithConfig.

Variable config : RequestTrackerConfig.

(** The limit check of [trackRequest]. *)
Definition enforceLimit (t : RequestTracker) : RequestTracker :=
  if (maxPendingRequests config <=? length (pendingRequests t))%nat then
    match head (sort_by_timestamp (pendingRequests t)) with
    | Some oldestEntry =>
        let t := clearTimeout (timeout oldestEntry.2) t in
        let t := settle_request oldestEntry.2 (Rejected limit_message) t in
        delete oldestEntry.1 t
    | None => t
    end
  else t.

(** [trackRequest(eventId, eventType, timeout)] called at time [now]; the
    result is the promise returned and the tracker afterwards. *)
Definition trackRequest (eid ety : string) (tmo : option Z) (now : Z)
    (t : RequestTracker) : nat * RequestTracker :=
  match get eid t with
  | Some existingRequest =>
      let p := nextPromise t in
      (p,
       {| pendingRequests := pendingRequests t; timers := timers t;
          jobs := jobs t ++ [{| j_request := timeout existingRequest;
                                j_promise := p |}];
          cleanupTimer := cleanupTimer t; settled := settled t;
          duplicatePromises := duplicatePromises t ++ [p];
          nextPromise := S p; nextTimer := nextTimer t |})
  | None =>
      let t := enforceLimit t in
      let p := nextPromise t in
      let h := nextTimer t in
      let request := {| eventId := eid; eventType := ety; timestamp := now;
                        promise := p; duplicates := []; timeout := h |} in
      let timer := {| handle := h;
                      delay := default (defaultTimeout config) tmo;
                      t_eventId := eid; t_eventType := ety;
                      t_promise := p |} in
      (p,
       set eid request
         {| pendingRequests := pendingRequests t;
            timers := timers t ++ [timer];
            jobs := jobs t; cleanupTimer := cleanupTimer t;
            settled := settled t;
            duplicatePromises := duplicatePromises t;
            nextPromise := S p; nextTimer := S h |})
  end.

Definition matchAck (eid : string) (ack : UnpackedMessage)
    (t : RequestTracker) : bool * RequestTracker :=
  match get eid t with
  | None => (false, t)
  | Some request =>
      let t := clearTimeout (timeout request) t in
      let t := delete eid t in
      (true, settle_request request (Resolved ack) t)
  end.

Definition handleTimeout (eid : string) (t : RequestTracker)
    : RequestTracker :=
  match get eid t with
  | Some request => delete eid (clearTimeout (timeout request) t)
  | None => t
  end.

(** The callback of the timer armed by [trackRequest]. It rejects through
    the [reject] it closed over, which is the one of the original promise. *)
Definition timeoutCallback (tm : Timer) (t : RequestTracker)
    : RequestTracker :=
  match get (t_eventId tm) t with
  | Some _ =>
      settle (t_promise tm)
        (Rejected (timeout_message (t_eventType tm) (t_eventId tm)))
        (handleTimeout (t_eventId tm) t)
  | None => t
  end.

Definition cancelRequest (eid : string) (t : RequestTracker)
    : RequestTracker :=
  match get eid t with
  | Some request =>
      let t := clearTimeout (timeout request) t in
      let t := settle_request request (Rejected cancel_message) t in
      delete eid t
  | None => t
  end.

Definition clear (t : RequestTracker) : RequestTracker :=
  let t :=
    foldl (fun t e =>
             settle_request e.2 (Rejected clear_message)
               (clearTimeout (timeout e.2) t))
          t (pendingRequests t) in
  set_pendingRequests [] t.

(** The body of the sweep for one entry of the map. *)
Definition cleanupEntry (now maxAge : Z) (t : RequestTracker)
    (e : string * PendingRequest) : RequestTracker :=
  if (maxAge <? now - timestamp e.2)%Z then
    let t := clearTimeout (timeout e.2) t in
    let t := settle_request e.2
               (Rejected (cleanup_message (eventType e.2) e.1)) t in
    delete e.1 t
  else t.

Definition cleanupOldRequests (now : Z) (t : RequestTracker)
    : RequestTracker :=
  let maxAge := (defaultTimeout config * 2)%Z in
  foldl (cleanupEntry now maxAge) t (pendingRequests t).

Definition destroy (t : RequestTracker) : RequestTracker :=
  clear (set_cleanupTimer false t).

(** The job of the duplicate branch wraps [resolve] and [reject] of the
    record it captured: from then on they also settle the job's promise.
    [wrap] is its effect on an entry of the map, which is the captured record
    when it holds the captured timer handle; on a record that left the map
    the wrappers are never called. *)
Definition wrap (j : Job) (e : string * PendingRequest)
    : string * PendingRequest :=
  if decide (timeout e.2 = j_request j) then
    (e.1, {| eventId := eventId e.2; eventType := eventType e.2;
             timestamp := timestamp e.2; promise := promise e.2;
             duplicates := duplicates e.2 ++ [j_promise j];
             timeout := timeout e.2 |})
  else e.

Definition runJob (j : Job) (t : RequestTracker) : RequestTracker :=
  set_pendingRequests (map (wrap j) (pendingRequests t)) t.

(** Calls of the tracker's methods and callbacks fired by the platform. *)
Inductive Event :=
| Track (eid ety : string) (tmo : option Z) (now : Z)
| MatchAck (eid : string) (ack : UnpackedMessage)
| Cancel (eid : string)
| Clear
| Destroy
| TimerFired (h : nat)
| Sweep (now : Z)
| RunJob.

(** A timer fires while it is armed, and then it is gone; the sweep runs
    while the cleanup interval is set; promise jobs run in the order they
    were queued. *)
Definition step (t : RequestTracker) (e : Event) : RequestTracker :=
  match e with
  | Track eid ety tmo now => (trackRequest eid ety tmo now t).2
  | MatchAck eid ack => (matchAck eid ack t).2
  | Cancel eid => cancelRequest eid t
  | Clear => clear t
  | Destroy => destroy t
  | TimerFired h =>
      match head (filter (fun tm => handle tm = h) (timers t)) with
      | Some tm => timeoutCallback tm (clearTimeout h t)
      | None => t
      end
  | Sweep now => if cleanupTimer t then cleanupOldRequests now t else t
  | RunJob =>
      match jobs t with
      | j :: rest => runJob j (set_jobs rest t)
      | [] => t
      end
  end.

Definition run (es : list Event) (t : RequestTracker) : RequestTracker :=
  foldl step t es.

(** The promises that can still be settled, and all promises handed out
    that are pending or settled. *)
Definition pending_promises (t : RequestTracker) : list nat :=
  (pendingRequests t ≫= fun e => listeners e.2)
  ++ map j_promise (jobs t).

Definition promises (t : RequestTracker) : list nat :=
  pending_promises t ++ map fst (settled t).

(** The delay of the timer armed for a pending request: its own timeout. *)
Definition own_timeout (r : PendingRequest) (t : RequestTracker) : option Z :=
  delay <$> head (filter (fun tm => handle tm = timeout r) (timers t)).

(** Consistency of a tracker (it holds in every reachable state). *)
Record consistent (t : RequestTracker) : Prop := {
  keys_unique : NoDup (map fst (pendingRequests t));
  handles_unique : NoDup (map (fun e => timeout e.2) (pendingRequests t));
  handles_bounded :
    forall e, e ∈ pendingRequests t -> timeout e.2 < nextTimer t;
  promises_unique : NoDup (promises t);
  promises_bounded : forall p, p ∈ promises t -> p < nextPromise t;
  timer_has_request :
    forall tm, tm ∈ timers t ->
      exists r, get (t_eventId tm) t = Some r
                /\ timeout r = handle tm /\ promise r = t_promise tm;
  request_has_timer :
    forall e, e ∈ pendingRequests t ->
      exists tm, tm ∈ timers t /\ handle tm = timeout e.2
                 /\ t_eventId tm = e.1 /\ t_promise tm = promise e.2
                 /\ t_eventType tm = eventType e.2;
  duplicates_known :
    forall p, p ∈ (pendingRequests t ≫= fun e => duplicates e.2)
                  ++ map j_promise (jobs t) ->
              p ∈ duplicatePromises t;
  originals_tracked :
    forall p, p < nextPromise t -> p ∉ duplicatePromises t ->
              p ∈ map (fun e => promise e.2) (pendingRequests t)
              \/ p ∈ map fst (settled t);
}.

(** The outcomes the tracker produces. *)
Definition tracker_outcome (o : Settlement) : Prop :=
  (exists ack, o = Resolved ack)
  \/ (exists ety eid, o = Rejected (timeout_message ety eid))
  \/ o = Rejected cancel_message
  \/ o = Rejected clear_message
  \/ o = Rejected limit_message
  \/ (exists ety eid, o = Rejected (cleanup_message ety eid)).

(** The outcomes listed by the specification: matched acknowledgment,
    timeout, cancel, clear, tracker limit. *)
Definition spec_outcome (o : Settlement) : Prop :=
  (exists ack, o = Resolved ack)
  \/ (exists ety eid, o = Rejected (timeout_message ety eid))
  \/ o = Rejected cancel_message
  \/ o = Rejected clear_message
  \/ o = Rejected limit_message.

(** [SocketManager.sendMessagePackWithAck] (manager/socket-manager.ts) is
    an async function: it tracks the request, awaits [client.send], and
    returns the tracker's promise. Its own promise is rejected with the
    error of the send when the send fails, and follows the tracker's promise
    otherwise. [sent] is the outcome of the send once it is known. *)
Definition sendMessagePackWithAck_outcome (sent : option (option string))
    (ackPromise : nat) (t : RequestTracker) : option Settlement :=
  match sent with
  | None => None
  | Some (Some error) => Some (Rejected error)
  | Some None =>
      lookup_first ackPromise (settled t)
  end.

End WithConfig.

End Tracker.

(** ** Trackers used as concrete inputs *)

(** A request with a timeout of 100 s, swept 60.001 s after it was sent. *)
Definition slow_request : list Tracker.Event :=
  [Tracker.Track "e1" "voicechat.audio.start" (Some 100000%Z) 0%Z].

Definition small_config : Tracker.RequestTrackerConfig := {|
  Tracker.defaultTimeout := 30000;
  Tracker.maxPendingRequests := 2;
  Tracker.cleanupInterval := 60000;
|}.

(** Two requests fill a tracker of capacity 2. *)
Definition two_requests : list Tracker.Event :=
  [Tracker.Track "e1" "voicechat.audio.start" None 10%Z;
   Tracker.Track "e2" "voicechat.audio.end" None 5%Z].

(** * PCM sample conversions (audio/playback.ts, audio/capture.ts) *)

Module Pcm.

(** JavaScript numbers are IEEE 754 binary64 values, the elements of a
    [Float32Array] binary32 values; both are [spec_float]s of the
    Standard Library, with the operations of [SpecFloat] at the precision
    and exponent range of the format. *)
Definition prec64 : Z := 53.
Definition emax64 : Z := 1024.
Definition prec32 : Z := 24.
Definition emax32 : Z := 128.

Definition signed (s : bool) (m : positive) : Z :=
  if s then Zneg m else Zpos m.

(** An integer as a Number. *)
Definition of_int (v : Z) : spec_float :=
  binary_normalize prec64 emax64 v 0 false.

(** Reading an element of a [Float32Array] gives the same value as a
    Number. *)
Definition to_double (x : spec_float) : spec_float :=
  match x with
  | S754_finite s m e => binary_normalize prec64 emax64 (signed s m) e s
  | _ => x
  end.

(** Storing a Number into a [Float32Array] rounds it to the nearest
    binary32 value, ties to even. *)
Definition fround (x : spec_float) : spec_float :=
  match x with
  | S754_finite s m e => binary_normalize prec32 emax32 (signed s m) e s
  | _ => x
  end.

Definition is_nan (x : spec_float) : bool :=
  match x with
  | S754_nan => true
  | _ => false
  end.

(** [Math.min(a, b)] and [Math.max(a, b)]: NaN if either is NaN, and -0 is
    below +0. *)
Definition Math_min (a b : spec_float) : spec_float :=
  if is_nan a || is_nan b then S754_nan
  else
    match SFcompare a b with
    | Some Lt => a
    | Some Gt => b
    | _ => match a with
           | S754_zero true => a
           | _ => b
           end
    end.

Definition Math_max (a b : spec_float) : spec_float :=
  if is_nan a || is_nan b then S754_nan
  else
    match SFcompare a b with
    | Some Gt => a
    | Some Lt => b
    | _ => match a with
           | S754_zero false => a
           | _ => b
           end
    end.

(** [Math.round(x)]: the integer nearest to [x], ties towards +infinity;
    [None] stands for NaN and the infinities, which it returns unchanged. *)
Definition Math_round (x : spec_float) : option Z :=
  match x with
  | S754_zero _ => Some 0%Z
  | S754_finite s m e =>
      if (0 <=? e)%Z then Some (signed s m * 2 ^ e)%Z
      else Some ((2 * signed s m + 2 ^ (- e)) / 2 ^ (- e + 1))%Z
  | _ => None
  end.

(** Storing a number into an [Int16Array] (ToInt16): NaN and the infinities
    become 0, an integer wraps around modulo 2^16. *)
Definition wrap16 (n : Z) : Z := ((n + 32768) mod 65536 - 32768)%Z.

Definition ToInt16 (r : option Z) : Z :=
  match r with
  | Some n => wrap16 n
  | None => 0%Z
  end.

Definition f32768 : spec_float := of_int 32768.
Definition f1 : spec_float := of_int 1.
Definition fm1 : spec_float := of_int (-1).

(** Playback (playChunkImmediately): [int16Array[i] / 32768.0], clamped to
    [-1, 1], stored into the [Float32Array]. *)
Definition normalize (v : Z) : spec_float :=
  let normalized := SFdiv prec64 emax64 (of_int v) f32768 in
  fround (Math_max fm1 (Math_min f1 normalized)).

(** Capture (onaudioprocess): the sample is clamped to [-1, 1], multiplied
    by 32768.0 and rounded, stored into the [Int16Array], then read back,
    clamped to the Int16 range and stored again. *)
Definition to_pcm (x : spec_float) : Z :=
  let sample := Math_max fm1 (Math_min f1 (to_double x)) in
  let stored := ToInt16 (Math_round (SFmul prec64 emax64 sample f32768)) in
  wrap16 (Z.max (-32768) (Z.min 32767 stored)).

(** A mantissa shifted left by [k] bits. *)
Definition shl (m : positive) (k : Z) : positive :=
  match k with
  | Zpos p => Pos.iter xO m p
  | _ => m
  end.

End Pcm.

(** * AudioPlayback (audio/playback.ts) and the response-chunk handler *)

Module Playback.

(** [ArrayBuffer]s live in a heap; a [Uint8Array] is a view on one of them.
    Two views on the same buffer alias. *)
Record Uint8Array := {
  buffer : nat;
  byteOffset : nat;
  byteLength : nat;
}.

Definition view_bytes (heap : gmap nat (list Byte.byte)) (a : Uint8Array)
    : list Byte.byte :=
  take (byteLength a) (drop (byteOffset a) (default [] (heap !! buffer a))).

(** A queued chunk. [generation] is not a field of the source: it records
    how many utterance switches [playChunk] had performed when it enqueued
    the chunk, so that chunks of a superseded utterance can be told from
    those of its successors. *)
Record QueuedChunk := {
  audio : Uint8Array;
  utteranceId : string;
  chunkSampleRate : Z;
  timestamp : Z;
  generation : nat;
}.

(** A call of [source.start(0)]: the source, the chunk it plays, the
    samples copied into its [AudioBuffer] and the rate of the buffer. *)
Record Scheduled := {
  source : nat;
  chunk : QueuedChunk;
  samples : list spec_float;
  rate : Z;
}.

(** The fields of the class, and what surrounds it at run time: the heap,
    the [processQueue] tasks suspended in [playChunkImmediately] before the
    callback of [initAudioContext().then] ran ([awaitingContext], in the
    order the callbacks were registered), the started sources whose
    [onended] has not fired, each awaited by a [processQueue] task
    ([awaitingEnd]), the calls of [source.start] ([scheduled]) and of
    [source.stop] ([stopCalls]). *)
Record AudioPlayback := {
  audioQueue : list QueuedChunk;
  activeSources : list nat;
  isPlaying : bool;
  currentUtteranceId : option string;
  sampleRate : Z;
  isProcessingQueue : bool;
  heap : gmap nat (list Byte.byte);
  awaitingContext : list QueuedChunk;
  awaitingEnd : list nat;
  scheduled : list Scheduled;
  stopCalls : list nat;
  nextSource : nat;
  switches : nat;
}.

(** [AUDIO_CONSTANTS.DEFAULT_SAMPLE_RATE] (audio/constants.ts) *)
Definition DEFAULT_SAMPLE_RATE : Z := 16000.

Definition init (h : gmap nat (list Byte.byte)) : AudioPlayback := {|
  audioQueue := [];
  activeSources := [];
  isPlaying := false;
  currentUtteranceId := None;
  sampleRate := DEFAULT_SAMPLE_RATE;
  isProcessingQueue := false;
  heap := h;
  awaitingContext := [];
  awaitingEnd := [];
  scheduled := [];
  stopCalls := [];
  nextSource := 0;
  switches := 0;
|}.

Definition set_audioQueue v (p : AudioPlayback) : AudioPlayback :=
  {| audioQueue := v; activeSources := activeSources p;
     isPlaying := isPlaying p; currentUtteranceId := currentUtteranceId p;
     sampleRate := sampleRate p; isProcessingQueue := isProcessingQueue p;
     heap := heap p; awaitingContext := awaitingContext p;
     awaitingEnd := awaitingEnd p; scheduled := scheduled p;
     stopCalls := stopCalls p; nextSource := nextSource p;
     switches := switches p |}.

Definition set_activeSources v (p : AudioPlayback) : AudioPlayback :=
  {| audioQueue := audioQueue p; activeSources := v;
     isPlaying := isPlaying p; currentUtteranceId := currentUtteranceId p;
     sampleRate := sampleRate p; isProcessingQueue := isProcessingQueue p;
     heap := heap p; awaitingContext := awaitingContext p;
     awaitingEnd := awaitingEnd p; scheduled := scheduled p;
     stopCalls := stopCalls p; nextSource := nextSource p;
     switches := switches p |}.

Definition set_isPlaying v (p : AudioPlayback) : AudioPlayback :=
  {| audioQueue := audioQueue p; activeSources := activeSources p;
     isPlaying := v; currentUtteranceId := currentUtteranceId p;
     sampleRate := sampleRate p; isProcessingQueue := isProcessingQueue p;
     heap := heap p; awaitingContext := awaitingContext p;
     awaitingEnd := awaitingEnd p; scheduled := scheduled p;
     stopCalls := stopCalls p; nextSource := nextSource p;
     switches := switches p |}.

Definition set_isProcessingQueue v (p : AudioPlayback) : AudioPlayback :=
  {| audioQueue := audioQueue p; activeSources := activeSources p;
     isPlaying := isPlaying p; currentUtteranceId := currentUtteranceId p;
     sampleRate := sampleRate p; isProcessingQueue := v;
     heap := heap p; awaitingContext := awaitingContext p;
     awaitingEnd := awaitingEnd p; scheduled := scheduled p;
     stopCalls := stopCalls p; nextSource := nextSource p;
     switches := switches p |}.

Definition set_heap v (p : AudioPlayback) : AudioPlayback :=
  {| audioQueue := audioQueue p; activeSources := activeSources p;
     isPlaying := isPlaying p; currentUtteranceId := currentUtteranceId p;
     sampleRate := sampleRate p; isProcessingQueue := isProcessingQueue p;
     heap := v; awaitingContext := awaitingContext p;
     awaitingEnd := awaitingEnd p; scheduled := scheduled p;
     stopCalls := stopCalls p; nextSource := nextSource p;
     switches := switches p |}.

Definition set_awaitingContext v (p : AudioPlayback) : AudioPlayback :=
  {| audioQueue := audioQueue p; activeSources := activeSources p;
     isPlaying := isPlaying p; currentUtteranceId := currentUtteranceId p;
     sampleRate := sampleRate p; isProcessingQueue := isProcessingQueue p;
     heap := heap p; awaitingContext := v;
     awaitingEnd := awaitingEnd p; scheduled := scheduled p;
     stopCalls := stopCalls p; nextSource := nextSource p;
     switches := switches p |}.

Definition set_awaitingEnd v (p : AudioPlayback) : AudioPlayback :=
  {| audioQueue := audioQueue p; activeSources := activeSources p;
     isPlaying := isPlaying p; currentUtteranceId := currentUtteranceId p;
     sampleRate := sampleRate p; isProcessingQueue := isProcessingQueue p;
     heap := heap p; awaitingContext := awaitingContext p;
     awaitingEnd := v; scheduled := scheduled p;
     stopCalls := stopCalls p; nextSource := nextSource p;
     switches := switches p |}.

(** [a.utteranceId < b.utteranceId] on strings. *)
Definition string_ltb (a b : string) : bool :=
  match String.compare a b with
  | Lt => true
  | _ => false
  end.

(** The comparator of the sort in [playChunk], as the sign of its result. *)
Definition compareChunks (a b : QueuedChunk) : comparison :=
  if string_ltb (utteranceId a) (utteranceId b) then Lt
  else if string_ltb (utteranceId b) (utteranceId a) then Gt
  else (timestamp a ?= timestamp b)%Z.

(** [Array.prototype.sort] is stable. *)
Fixpoint insertChunk (c : QueuedChunk) (l : list QueuedChunk)
    : list QueuedChunk :=
  match l with
  | [] => [c]
  | x :: l' =>
      match compareChunks c x with
      | Gt => x :: insertChunk c l'
      | _ => c :: x :: l'
      end
  end.

Definition sortQueue (l : list QueuedChunk) : list QueuedChunk :=
  foldr insertChunk [] l.

(** [stop()] *)
Definition stop (p : AudioPlayback) : AudioPlayback :=
  {| audioQueue := [];
     activeSources := [];
     isPlaying := false;
     currentUtteranceId := None;
     sampleRate := sampleRate p;
     isProcessingQueue := false;
     heap := heap p;
     awaitingContext := awaitingContext p;
     awaitingEnd := awaitingEnd p;
     scheduled := scheduled p;
     stopCalls := stopCalls p ++ activeSources p;
     nextSource := nextSource p;
     switches := switches p |}.

(** The loop of [processQueue] up to its next [await]: chunks of another
    utterance are skipped; the result is the chunk handed to
    [playChunkImmediately], if the loop does not end, and the queue left. *)
Fixpoint nextChunk (cur : string) (q : list QueuedChunk)
    : option QueuedChunk * list QueuedChunk :=
  match q with
  | [] => (None, [])
  | c :: q' =>
      if String.eqb (utteranceId c) cur then (Some c, q') else nextChunk cur q'
  end.

Definition processLoop (p : AudioPlayback) : AudioPlayback :=
  match currentUtteranceId p with
  | None => set_isPlaying false (set_isProcessingQueue false p)
  | Some cur =>
      match nextChunk cur (audioQueue p) with
      | (Some c, q) =>
          set_awaitingContext (awaitingContext p ++ [c]) (set_audioQueue q p)
      | (None, q) =>
          set_isPlaying false (set_isProcessingQueue false (set_audioQueue q p))
      end
  end.

Definition processQueue (p : AudioPlayback) : AudioPlayback :=
  if isProcessingQueue p then p
  else processLoop (set_isProcessingQueue true p).

(** [playChunk(audioData, sampleRate, utteranceId)] called at time [now]. *)
Definition playChunk (audioData : Uint8Array) (sr : Z) (uid : string)
    (now : Z) (p : AudioPlayback) : AudioPlayback :=
  let p :=
    if bool_decide (currentUtteranceId p = Some uid) then p
    else
      let p := stop p in
      {| audioQueue := audioQueue p; activeSources := activeSources p;
         isPlaying := isPlaying p; currentUtteranceId := Some uid;
         sampleRate := sr; isProcessingQueue := isProcessingQueue p;
         heap := heap p; awaitingContext := awaitingContext p;
         awaitingEnd := awaitingEnd p; scheduled := scheduled p;
         stopCalls := stopCalls p; nextSource := nextSource p;
         switches := S (switches p) |} in
  let c := {| audio := audioData; utteranceId := uid; chunkSampleRate := sr;
              timestamp := now; generation := switches p |} in
  let p := set_audioQueue (sortQueue (audioQueue p ++ [c])) p in
  if isProcessingQueue p then p else processQueue p.

(** Little-endian signed 16-bit samples of a byte region of even length
    ([new Int16Array(buffer)]). *)
Fixpoint int16s (bytes : list Byte.byte) : list Z :=
  match bytes with
  | lo :: hi :: rest =>
      let u := (Z.of_N (Byte.to_N lo) + 256 * Z.of_N (Byte.to_N hi))%Z in
      (if (u <? 32768)%Z then u else u - 65536)%Z :: int16s rest
  | _ => []
  end.

Definition is_finite (x : spec_float) : bool :=
  match x with
  | S754_zero _ | S754_finite _ _ _ => true
  | _ => false
  end.

(** The first element of a [Float32Array] that is not finite, with its
    index. *)
Fixpoint first_nonfinite (i : nat) (l : list spec_float)
    : option (nat * spec_float) :=
  match l with
  | [] => None
  | x :: l' => if is_finite x then first_nonfinite (S i) l' else Some (i, x)
  end.

(** A value that is not finite, in a template literal. *)
Definition nonfinite_toString (x : spec_float) : string :=
  match x with
  | S754_infinity false => "Infinity"
  | S754_infinity true => "-Infinity"
  | _ => "NaN"
  end.

(** The conversion in [playChunkImmediately]: the samples that go into the
    [AudioBuffer], or the message of the error the promise is rejected
    with. The bytes are read from the heap when the conversion runs. A
    sample rate is an integer that a Number holds exactly (of magnitude
    2^53 at most); a template literal prints such a number in decimal, as
    [pretty] does. *)
Definition convert (h : gmap nat (list Byte.byte)) (audioData : Uint8Array)
    (sr : Z) : string + list spec_float :=
  if (byteLength audioData =? 0)%nat then inl "Audio data is empty"
  else if (sr <=? 0)%Z || (192000 <? sr)%Z
  then inl ("Invalid sample rate: " +:+ pretty sr)
  else
    let bytes := view_bytes h audioData in
    let processed :=
      if (byteLength audioData mod 2 =? 0)%nat then bytes
      else take (byteLength audioData - 1) bytes in
    let float32Array := map Pcm.normalize (int16s processed) in
    match first_nonfinite 0 float32Array with
    | Some (i, x) =>
        inl ("Non-finite audio value at index " +:+ pretty i +:+ ": "
             +:+ nonfinite_toString x)
    | None =>
        if (length float32Array =? 0)%nat
        then inl "Audio buffer is empty after conversion"
        else inr float32Array
    end.

(** The callback of [initAudioContext().then] for the chunk [c], or the
    rejection of [initAudioContext] ([ready = false]), for instance with the
    error of a failed [resume]; after a rejection the task of
    [processQueue] logs the error and goes on with its loop. *)
Definition playChunkImmediately (ready : bool) (c : QueuedChunk)
    (p : AudioPlayback) : AudioPlayback :=
  match (if ready then convert (heap p) (audio c) (chunkSampleRate c)
         else inl ("Failed to resume audio context. "
                   +:+ "User interaction may be required.")) with
  | inr float32Array =>
      let s := nextSource p in
      {| audioQueue := audioQueue p;
         activeSources := activeSources p ++ [s];
         isPlaying := true;
         currentUtteranceId := currentUtteranceId p;
         sampleRate := sampleRate p;
         isProcessingQueue := isProcessingQueue p;
         heap := heap p;
         awaitingContext := awaitingContext p;
         awaitingEnd := awaitingEnd p ++ [s];
         scheduled := scheduled p
                      ++ [{| source := s; chunk := c;
                             samples := float32Array;
                             rate := chunkSampleRate c |}];
         stopCalls := stopCalls p;
         nextSource := S s;
         switches := switches p |}
  | inl _ => processLoop p
  end.

(** [source.onended] *)
Definition onended (s : nat) (p : AudioPlayback) : AudioPlayback :=
  let p := set_activeSources (filter (fun x => x <> s) (activeSources p)) p in
  processLoop p.

(** What the response-chunk handler finds in [payload.audio]: a
    [Uint8Array], an [ArrayBuffer], another view (with its [length]
    property, which a [DataView] does not have), or anything else. *)
Inductive RawAudio :=
| RawUint8Array (a : Uint8Array)
| RawArrayBuffer (b : nat)
| RawView (a : Uint8Array) (len : option nat)
| RawOther.

(** [p_sampleRate] is [None] when [payload.sampleRate] is not a finite
    number. *)
Record ResponseChunkPayload := {
  p_audio : RawAudio;
  p_utteranceId : string;
  p_sampleRate : option Z;
}.

(** [new Uint8Array(typedArray)] and [buffer.slice(...)]: a new buffer with
    the bytes of the view. *)
Definition copyBytes (a : Uint8Array) (p : AudioPlayback)
    : Uint8Array * AudioPlayback :=
  let b := fresh (dom (heap p)) in
  let bytes := view_bytes (heap p) a in
  ({| buffer := b; byteOffset := 0; byteLength := length bytes |},
   set_heap (<[b := bytes]> (heap p)) p).

(** The handler registered for [response.chunk] by the VoiceChat
    component, as far as playback is concerned. *)
Definition handleResponseChunk (payload : ResponseChunkPayload) (now : Z)
    (p : AudioPlayback) : AudioPlayback :=
  let sr :=
    match p_sampleRate payload with
    | Some r =>
        if (r <=? 0)%Z || (192000 <? r)%Z then DEFAULT_SAMPLE_RATE else r
    | None => DEFAULT_SAMPLE_RATE
    end in
  match p_audio payload with
  | RawUint8Array a =>
      if (byteLength a =? 0)%nat then p
      else
        let '(audioData, p) := copyBytes a p in
        playChunk audioData sr (p_utteranceId payload) now p
  | RawArrayBuffer b =>
      let audioData :=
        {| buffer := b; byteOffset := 0;
           byteLength := length (default [] (heap p !! b)) |} in
      playChunk audioData sr (p_utteranceId payload) now p
  | RawView a len =>
      if bool_decide (len = Some 0%nat) then p
      else
        let '(audioData, p) := copyBytes a p in
        playChunk audioData sr (p_utteranceId payload) now p
  | RawOther => p
  end.

(** Calls of the methods and callbacks fired by the platform; [Write] is a
    store into an [ArrayBuffer] by whoever holds a view on it. *)
Inductive Event :=
| PlayChunk (audioData : Uint8Array) (sr : Z) (uid : string) (now : Z)
| Stop
| ContextReady (ready : bool)
| Ended (s : nat)
| Write (b i : nat) (x : Byte.byte)
| ResponseChunk (payload : ResponseChunkPayload) (now : Z).

(** The callbacks of [initAudioContext().then] run in the order they were
    registered; a source ends once, after it was started. *)
Definition step (p : AudioPlayback) (e : Event) : AudioPlayback :=
  match e with
  | PlayChunk audioData sr uid now => playChunk audioData sr uid now p
  | Stop => stop p
  | ContextReady ready =>
      match awaitingContext p with
      | c :: rest => playChunkImmediately ready c (set_awaitingContext rest p)
      | [] => p
      end
  | Ended s =>
      if bool_decide (s ∈ awaitingEnd p)
      then onended s (set_awaitingEnd (filter (fun x => x <> s) (awaitingEnd p)) p)
      else p
  | Write b i x => set_heap (alter (fun l => <[i := x]> l) b (heap p)) p
  | ResponseChunk payload now => handleResponseChunk payload now p
  end.

Definition run (es : list Event) (p : AudioPlayback) : AudioPlayback :=
  foldl step p es.

(** The events of a run in which audio reaches the sequencer through the
    response-chunk handler only, with the audio as a typed array. *)
Definition from_handler (e : Event) : bool :=
  match e with
  | PlayChunk _ _ _ _ => false
  | ResponseChunk payload _ =>
      match p_audio payload with
      | RawArrayBuffer _ => false
      | _ => true
      end
  | _ => true
  end.

(** The event hands the buffer [b] to the handler. *)
Definition hands_over (b : nat) (e : Event) : bool :=
  match e with
  | ResponseChunk payload _ =>
      match p_audio payload with
      | RawUint8Array a | RawView a _ => bool_decide (buffer a = b)
      | _ => false
      end
  | _ => false
  end.

(** The chunks handed to [playChunkImmediately] so far, in the order of
    the calls: those whose source was started, then those whose callback
    is still to run. *)
Definition handed (p : AudioPlayback) : list QueuedChunk :=
  map chunk (scheduled p) ++ awaitingContext p.

Definition earlier (c c' : QueuedChunk) : Prop :=
  generation c <= generation c'.

(** What holds of the sequencer after every event. *)
Record preempting (p : AudioPlayback) : Prop := {
  queue_current :
    Forall (fun c => generation c = switches p) (audioQueue p);
  handed_in_order : StronglySorted earlier (handed p);
  handed_bounded :
    Forall (fun c => generation c <= switches p) (handed p);
  sources_cancelled :
    forall s, s ∈ awaitingEnd p -> s ∈ activeSources p \/ s ∈ stopCalls p;
  current_utterance :
    forall c u, c ∈ handed p ++ audioQueue p ->
      generation c = switches p -> currentUtteranceId p = Some u ->
      utteranceId c = u;
  one_utterance :
    forall c c', c ∈ handed p ++ audioQueue p ->
      c' ∈ handed p ++ audioQueue p ->
      generation c = generation c' -> utteranceId c = utteranceId c';
}.


(** No chunk that is queued or waits for the audio context is a view on
    the buffer [b], which is allocated. *)
Record apart (b : nat) (p : AudioPlayback) : Prop := {
  buffer_exists : is_Some (heap p !! b);
  not_queued :
    Forall (fun c => buffer (audio c) <> b)
      (audioQueue p ++ awaitingContext p);
}.

End Playback.

(** ** Playback runs used as concrete inputs *)

Definition two_bytes : gmap nat (list Byte.byte) :=
  {[ 0 := [Byte.x01; Byte.x00] ]}.

Definition whole_buffer : Playback.Uint8Array :=
  {| Playback.buffer := 0; Playback.byteOffset := 0;
     Playback.byteLength := 2 |}.

Definition chunk_payload : Playback.ResponseChunkPayload :=
  {| Playback.p_audio := Playback.RawUint8Array whole_buffer;
     Playback.p_utteranceId := "u1"; Playback.p_sampleRate := Some 16000%Z |}.

Definition two_buffers : gmap nat (list Byte.byte) :=
  {[ 0 := [Byte.x01; Byte.x00]; 1 := [Byte.x02; Byte.x00] ]}.

Definition view_of (b : nat) : Playback.Uint8Array :=
  {| Playback.buffer := b; Playback.byteOffset := 0;
     Playback.byteLength := 2 |}.

(** The second chunk of an utterance arrives while the first plays. *)
Definition second_queued : list Playback.Event :=
  [Playback.PlayChunk (view_of 0) 16000 "u1" 0;
   Playback.ContextReady true;
   Playback.PlayChunk (view_of 1) 16000 "u1" 1].

(** The first chunk ends and the second is played. *)
Definition second_played : list Playback.Event :=
  [Playback.Ended 0; Playback.ContextReady true].


Definition buffer_payload : Playback.ResponseChunkPayload :=
  {| Playback.p_audio := Playback.RawArrayBuffer 0;
     Playback.p_utteranceId := "u1"; Playback.p_sampleRate := Some 16000%Z |}.

(** * EventEmitter (events/event-emitter.ts) *)

Module Emitter.

Section WithCallbacks.

(** A callback is a function object, compared by identity. What it does when
    it is called is outside the emitter: it returns or throws. Callbacks that
    call the emitter they are subscribed to are not covered. *)
Context {Callback Data : Type} `{EqDecision Callback}.

Inductive CallResult :=
| Returned
| Threw (error : string).

Variable call : Callback -> Data -> CallResult.

(** A member of a listener set: a callback passed to [on], or the closure
    [onceCallback] that [once] creates around a callback; every call of
    [once] creates a new closure. *)
Inductive Listener :=
| Plain (cb : Callback)
| OnceCallback (closure : nat) (cb : Callback).

#[global] Instance Listener_eq_dec : EqDecision Listener.
Proof. solve_decision. Defined.

Definition callback_of (l : Listener) : Callback :=
  match l with
  | Plain cb | OnceCallback _ cb => cb
  end.

(** [listeners] maps an event to its [Set] of listeners, in insertion
    order. *)
Record EventEmitter := {
  listeners : gmap string (list Listener);
  nextClosure : nat;
}.

Definition empty : EventEmitter := {| listeners := ∅; nextClosure := 0 |}.

(** [callbacks.add(callback)] *)
Definition add (l : Listener) (callbacks : list Listener) : list Listener :=
  if decide (l ∈ callbacks) then callbacks else callbacks ++ [l].

(** [on(event, callback)]; the function it returns calls
    [off(event, callback)]. *)
Definition on (event : string) (l : Listener) (e : EventEmitter)
    : EventEmitter :=
  {| listeners :=
       <[event := add l (default [] (listeners e !! event))]> (listeners e);
     nextClosure := nextClosure e |}.

(** [off(event, callback)] *)
Definition off (event : string) (l : Listener) (e : EventEmitter)
    : EventEmitter :=
  match listeners e !! event with
  | Some callbacks =>
      let callbacks := filter (fun x => x <> l) callbacks in
      {| listeners :=
           if (length callbacks =? 0)%nat then delete event (listeners e)
           else <[event := callbacks]> (listeners e);
         nextClosure := nextClosure e |}
  | None => e
  end.

(** [once(event, callback)]: the listener it subscribed, which the function
    it returns unsubscribes, and the emitter. *)
Definition once (event : string) (cb : Callback) (e : EventEmitter)
    : Listener * EventEmitter :=
  let l := OnceCallback (nextClosure e) cb in
  (l, on event l {| listeners := listeners e;
                    nextClosure := S (nextClosure e) |}).

(** What [emit] does that can be observed: the callbacks it calls and the
    errors it logs. *)
Inductive Trace :=
| Called (cb : Callback)
| LoggedError (error : string).

(** A listener is called; the closure of [once] unsubscribes itself
    first. An error thrown by the callback is caught and logged. *)
Definition invoke (event : string) (data : Data)
    (st : EventEmitter * list Trace) (l : Listener)
    : EventEmitter * list Trace :=
  let e :=
    match l with
    | Plain _ => st.1
    | OnceCallback _ _ => off event l st.1
    end in
  (e,
   st.2 ++ Called (callback_of l)
        :: match call (callback_of l) data with
           | Returned => []
           | Threw error => [LoggedError error]
           end).

(** [emit(event, data)]: [forEach] visits the listeners that were in the
    set when it started; none is added during the visit, and a listener
    that leaves does so when it is visited. *)
Definition emit (event : string) (data : Data) (e : EventEmitter)
    : EventEmitter * list Trace :=
  match listeners e !! event with
  | Some callbacks => foldl (invoke event data) (e, []) callbacks
  | None => (e, [])
  end.

(** [removeAllListeners(event?)]: the test [if (event)] sends the empty
    string the way of [undefined]. *)
Definition removeAllListeners (event : option string) (e : EventEmitter)
    : EventEmitter :=
  match event with
  | Some ev =>
      if String.eqb ev "" then
        {| listeners := ∅; nextClosure := nextClosure e |}
      else {| listeners := delete ev (listeners e);
              nextClosure := nextClosure e |}
  | None => {| listeners := ∅; nextClosure := nextClosure e |}
  end.

Definition listenerCount (event : string) (e : EventEmitter) : nat :=
  match listeners e !! event with
  | Some callbacks => length callbacks
  | None => 0
  end.

(** The callbacks a run of [emit] called, in order. *)
Definition called (t : list Trace) : list Callback :=
  omap (fun x => match x with Called cb => Some cb | _ => None end) t.

Definition is_plain (l : Listener) : Prop :=
  match l with
  | Plain _ => True
  | OnceCallback _ _ => False
  end.

#[global] Instance is_plain_dec l : Decision (is_plain l).
Proof. destruct l; simpl; apply _. Defined.

(** What [emit] observes of a list of listeners called in turn. *)
Definition trace_of (data : Data) (callbacks : list Listener) : list Trace :=
  callbacks ≫= fun l =>
    Called (callback_of l)
    :: match call (callback_of l) data with
       | Returned => []
       | Threw error => [LoggedError error]
       end.

(** The map with the set of [event] replaced by [callbacks], an empty set
    being removed. *)
Definition with_set (event : string) (callbacks : list Listener)
    (m : gmap string (list Listener)) : gmap string (list Listener) :=
  if (length callbacks =? 0)%nat then delete event m
  else <[event := callbacks]> m.

(** No set is empty or holds a listener twice: what the methods keep. *)
Definition well_formed (e : EventEmitter) : Prop :=
  forall event callbacks,
    listeners e !! event = Some callbacks ->
    callbacks <> [] /\ NoDup callbacks.

(** The calls a user of the emitter can make; [Off] stands for [off] and
    for the functions returned by [on] and [once]. *)
Inductive Op :=
| On (event : string) (cb : Callback)
| Once (event : string) (cb : Callback)
| Off (event : string) (l : Listener)
| Emit (event : string) (data : Data)
| RemoveAllListeners (event : option string).

Definition step (e : EventEmitter) (o : Op) : EventEmitter :=
  match o with
  | On event cb => on event (Plain cb) e
  | Once event cb => (once event cb e).2
  | Off event l => off event l e
  | Emit event data => (emit event data e).1
  | RemoveAllListeners event => removeAllListeners event e
  end.

Definition run (ops : list Op) (e : EventEmitter) : EventEmitter :=
  foldl step e ops.

End WithCallbacks.

Arguments EventEmitter : clear implicits.
Arguments Listener : clear implicits.
Arguments Op : clear implicits.

End Emitter.

(** * NetworkMonitor (client/network-monitor.ts) *)

(** Listeners of the monitor that call back into it are not covered. *)

Module Monitor.

(** What the monitor emits. *)
Inductive Emission :=
| Online
| Offline
| Change (isOnline : bool).

(** [debounceTimer] holds the callback the pending timer will run: that of
    [handleOnline] ([true]) or that of [handleOffline] ([false]).
    [listening] tells whether the handlers are registered on [window]. *)
Record NetworkMonitor := {
  isOnline : bool;
  debounceTimer : option bool;
  listening : bool;
  emitted : list Emission;
}.

(** [new NetworkMonitor()], [navigator.onLine] being [online]. *)
Definition init (online : bool) : NetworkMonitor :=
  {| isOnline := online; debounceTimer := None; listening := true;
     emitted := [] |}.

(** [debounce(callback)]: a pending timer is cleared, a new one armed. *)
Definition debounce (callback : bool) (m : NetworkMonitor) : NetworkMonitor :=
  {| isOnline := isOnline m; debounceTimer := Some callback;
     listening := listening m; emitted := emitted m |}.

Definition handleOnline (m : NetworkMonitor) : NetworkMonitor :=
  debounce true m.

Definition handleOffline (m : NetworkMonitor) : NetworkMonitor :=
  debounce false m.

(** The callback of the debounce timer. *)
Definition timerCallback (callback : bool) (m : NetworkMonitor)
    : NetworkMonitor :=
  let m :=
    if callback then
      if negb (isOnline m) then
        {| isOnline := true; debounceTimer := debounceTimer m;
           listening := listening m;
           emitted := emitted m ++ [Online; Change true] |}
      else m
    else
      if isOnline m then
        {| isOnline := false; debounceTimer := debounceTimer m;
           listening := listening m;
           emitted := emitted m ++ [Offline; Change false] |}
      else m in
  {| isOnline := isOnline m; debounceTimer := None;
     listening := listening m; emitted := emitted m |}.

Definition getStatus (m : NetworkMonitor) : bool := isOnline m.

Definition destroy (m : NetworkMonitor) : NetworkMonitor :=
  {| isOnline := isOnline m; debounceTimer := None; listening := false;
     emitted := emitted m |}.

(** The ['online'] and ['offline'] events of [window], the debounce timer,
    and [destroy]. *)
Inductive Event :=
| WindowOnline
| WindowOffline
| TimerFired
| Destroy.

Definition step (m : NetworkMonitor) (e : Event) : NetworkMonitor :=
  match e with
  | WindowOnline => if listening m then handleOnline m else m
  | WindowOffline => if listening m then handleOffline m else m
  | TimerFired =>
      match debounceTimer m with
      | Some callback => timerCallback callback m
      | None => m
      end
  | Destroy => destroy m
  end.

Definition run (es : list Event) (m : NetworkMonitor) : NetworkMonitor :=
  foldl step m es.

(** The values of the ['change'] events, in order. *)
Definition changes (l : list Emission) : list bool :=
  omap (fun x => match x with Change b => Some b | _ => None end) l.

(** A report of [window]. *)
Definition is_report (e : Event) : bool :=
  match e with
  | WindowOnline | WindowOffline => true
  | _ => false
  end.

Definition reported (e : Event) : bool :=
  match e with
  | WindowOnline => true
  | _ => false
  end.

(** Each value differs from the one before it, [b] being before the
    first. *)
Fixpoint alternates (b : bool) (l : list bool) : bool :=
  match l with
  | [] => true
  | x :: l' => negb (Bool.eqb b x) && alternates x l'
  end.

End Monitor.

(** * Notions used by the properties of the sequencer, the tracker and the
    client *)

(** Audio reaches the sequencer through the response-chunk handler only. *)
Definition via_handler (e : Playback.Event) : bool :=
  match e with
  | Playback.PlayChunk _ _ _ _ => false
  | _ => true
  end.

(** What holds of a sequencer once [stop] has been called on [p0]:
    whatever is queued was enqueued after the call, and the chunks
    enqueued before it that are or were handed over for playing were
    already handed over when it was called. *)
Record stopped_at (p0 p : Playback.AudioPlayback) : Prop := {
  switches_grow : Playback.switches p0 <= Playback.switches p;
  adopted_later :
    Playback.currentUtteranceId p <> None ->
    Playback.switches p0 < Playback.switches p;
  queued_later :
    Forall (fun c => Playback.switches p0 < Playback.generation c)
      (Playback.audioQueue p);
  handed_before :
    filter (fun c => Playback.generation c <= Playback.switches p0)
      (Playback.handed p)
    `sublist_of` Playback.handed p0;
}.
(** The chunk a direct call of [playChunk] enqueues in a run that stays
    with its first utterance. *)
Definition arrival (e : Playback.Event) : option Playback.QueuedChunk :=
  match e with
  | Playback.PlayChunk a sr uid now =>
      Some {| Playback.audio := a; Playback.utteranceId := uid;
              Playback.chunkSampleRate := sr; Playback.timestamp := now;
              Playback.generation := 1 |}
  | _ => None
  end.

Definition arrivals (es : list Playback.Event) : list Playback.QueuedChunk :=
  omap arrival es.

(** The events of a run that plays the utterance [u] and nothing else:
    calls of [playChunk] for [u], and callbacks of the platform. *)
Definition plays_only (u : string) (e : Playback.Event) : bool :=
  match e with
  | Playback.PlayChunk _ _ uid _ => String.eqb uid u
  | Playback.Stop | Playback.ResponseChunk _ _ => false
  | _ => true
  end.

(** What holds of a sequencer that plays one utterance: it holds the
    chunks that arrived, in the order of arrival, and one task of
    [processQueue] at most is under way, waiting for one chunk. *)
Record sequential (u : string) (arrived : list Playback.QueuedChunk)
    (p : Playback.AudioPlayback) : Prop := {
  in_arrival_order :
    Playback.handed p ++ Playback.audioQueue p `sublist_of` arrived;
  one_task :
    if Playback.isProcessingQueue p
    then length (Playback.awaitingContext p)
         + length (Playback.awaitingEnd p) = 1
    else Playback.awaitingContext p = [] /\ Playback.awaitingEnd p = []
         /\ Playback.audioQueue p = [];
  playing_u :
    if decide (arrived = [])
    then Playback.currentUtteranceId p = None /\ Playback.switches p = 0
         /\ Playback.isProcessingQueue p = false
    else Playback.currentUtteranceId p = Some u /\ Playback.switches p = 1;
}.

(** The chunk the handler enqueues for [chunk_payload]: its bytes are in a
    buffer of their own. *)
Definition copied_chunk : Playback.QueuedChunk :=
  {| Playback.audio := view_of 1; Playback.utteranceId := "u1";
     Playback.chunkSampleRate := 16000; Playback.timestamp := 0;
     Playback.generation := 1 |}.

(** A promise that was handed out and that nothing will settle: it is not
    settled, and neither a pending request nor a queued job leads to it. *)
Definition abandoned (p : nat) (t : Tracker.RequestTracker) : Prop :=
  p < Tracker.nextPromise t /\ p ∉ Tracker.promises t.

(** The request of [slow_request], an acknowledgment for it, a second call
    for its event id followed by its promise job, and the request once the
    second call has joined it. *)
Definition first_request : Tracker.PendingRequest :=
  {| Tracker.eventId := "e1"; Tracker.eventType := "voicechat.audio.start";
     Tracker.timestamp := 0; Tracker.promise := 0; Tracker.duplicates := [];
     Tracker.timeout := 0 |}.

Definition start_ack : Tracker.UnpackedMessage :=
  {| Tracker.msg_eventType := "voicechat.audio.start";
     Tracker.msg_eventId := Some "e1"; Tracker.msg_sessionId := Some "s1";
     Tracker.msg_success := true |}.

Definition repeated_request : list Tracker.Event :=
  slow_request
  ++ [Tracker.Track "e1" "voicechat.audio.start" None 5%Z; Tracker.RunJob].

Definition joined_request : Tracker.PendingRequest :=
  {| Tracker.eventId := "e1"; Tracker.eventType := "voicechat.audio.start";
     Tracker.timestamp := 0; Tracker.promise := 0; Tracker.duplicates := [1];
     Tracker.timeout := 0 |}.

(** The frames written to sockets, in order. *)
Definition wire_frames (h : list Client.Obs) : list (nat * Client.Data) :=
  omap (fun o => match o with
                 | Client.WireSent i d => Some (i, d)
                 | _ => None
                 end) h.

(** The state a listener of the ['state'] event knows after the
    emissions of [h], when it knew [s] before. *)
Definition last_state (s : Client.ConnectionState) (h : list Client.Obs)
    : Client.ConnectionState :=
  foldl (fun s o => match o with
                    | Client.StateEmitted s' => s'
                    | _ => s
                    end) s h.

(** Every ['state'] event of [h] carries a state other than the one before
    it, [s] being the state before the first. *)
Fixpoint emits_changes (s : Client.ConnectionState) (h : list Client.Obs)
    : bool :=
  match h with
  | [] => true
  | Client.StateEmitted s' :: h' =>
      negb (Client.ConnectionState_eqb s s') && emits_changes s' h'
  | _ :: h' => emits_changes s h'
  end.

(** [c'] comes after [c]: its history extends that of [c] by emissions
    that lead from the state of [c] to the state of [c'], each a change. *)
Definition follows (c c' : Client.SocketClient) : Prop :=
  exists h, Client.history c' = Client.history c ++ h
    /\ last_state (Client.state c) h = Client.state c'
    /\ emits_changes (Client.state c) h = true.

(** Every event but a call of [connect] or [send]. *)
Definition passive (e : Client.Event) : bool :=
  match e with
  | Client.Connect _ | Client.Send _ => false
  | _ => true
  end.

(** A client that was told to disconnect and has no timer armed. *)
Definition quiet (c : Client.SocketClient) : Prop :=
  Client.shouldReconnect c = false /\ Client.reconnectTimer c = None.

(** If [c] is quiet then so is [c'], with the sockets of [c], in other
    states perhaps. *)
Definition stays_quiet (c c' : Client.SocketClient) : Prop :=
  quiet c ->
  quiet c' /\ length (Client.sockets c') = length (Client.sockets c).

(** * SocketManager: incoming data (manager/socket-manager.ts) *)

Module Manager.

Section WithHandlers.

Context {Handler : Type}.
Variable handle :
  Handler -> Tracker.UnpackedMessage -> string -> Registry.HandleResult.

(** [VOICECHAT_EVENTS.CONNECTION_ACK], a constant of the shared package. *)
Variable CONNECTION_ACK : string.

(** What [handleIncomingData] does besides changing the manager: warnings
    and errors it logs, the ['connectionAck'] event it publishes on the
    event bus, and what routing the message did. As in the registry, what a
    handler does once it is invoked is outside the model. *)
Inductive Log :=
| Warned (message : string)
| Failed (error : string)
| ConnectionAck (sessionId : string)
| Routed (trace : list (@Registry.Trace Handler)).

(** The fields [handleIncomingData] works on. *)
Record SocketManager := {
  handlerRegistry : Registry.HandlerRegistry Handler;
  requestTracker : Tracker.RequestTracker;
  sessionId : option string;
  log : list Log;
}.

Definition init : SocketManager := {|
  handlerRegistry := Registry.empty;
  requestTracker := Tracker.init;
  sessionId := None;
  log := [];
|}.

Definition set_requestTracker v (m : SocketManager) : SocketManager :=
  {| handlerRegistry := handlerRegistry m; requestTracker := v;
     sessionId := sessionId m; log := log m |}.

Definition set_sessionId v (m : SocketManager) : SocketManager :=
  {| handlerRegistry := handlerRegistry m;
     requestTracker := requestTracker m;
     sessionId := v; log := log m |}.

Definition logged (l : list Log) (m : SocketManager) : SocketManager :=
  {| handlerRegistry := handlerRegistry m;
     requestTracker := requestTracker m;
     sessionId := sessionId m; log := log m ++ l |}.

(** [msg_success] tells that the payload is an object whose [success] is
    [true]. *)
Definition checkIfAck (message : Tracker.UnpackedMessage) : bool :=
  if negb (Tracker.msg_success message) then false
  else bool_decide (is_Some (truthy (Tracker.msg_eventId message))).

(** [await this.handlerRegistry.routeMessage(...)] and the warning for an
    unhandled event type. *)
Definition route (message : Tracker.UnpackedMessage) (m : SocketManager)
    : SocketManager :=
  match Registry.routeMessage handle (handlerRegistry m) message
          (Tracker.msg_eventType message) with
  | (trace, inr handled) =>
      logged (Routed trace
              :: if handled then [] else [Warned "Unhandled event type"]) m
  | (trace, inl error) => logged [Routed trace; Failed error] m
  end.

(** [unpacked] is the outcome of [unpack(data)]: the message, or the error
    thrown. *)
Definition handleIncomingData (unpacked : string + Tracker.UnpackedMessage)
    (m : SocketManager) : SocketManager :=
  match unpacked with
  | inl error => logged [Failed error] m
  | inr message =>
      if String.eqb (Tracker.msg_eventType message) ""
      then logged [Warned "Received message without eventType"] m
      else
        let m :=
          match truthy (Tracker.msg_sessionId message) with
          | Some sid =>
              if String.eqb (Tracker.msg_eventType message) CONNECTION_ACK
              then logged [ConnectionAck sid] (set_sessionId (Some sid) m)
              else m
          | None => m
          end in
        match
          (if checkIfAck message
           then truthy (Tracker.msg_eventId message) else None)
        with
        | Some eventId =>
            let '(matched, t) :=
              Tracker.matchAck eventId message (requestTracker m) in
            let m := set_requestTracker t m in
            if matched then m else route message m
        | None => route message m
        end
  end.

(** The handlers the manager has invoked so far. *)
Definition invocations (m : SocketManager) : list Handler :=
  l ← log m;
  match l with
  | Routed trace => Registry.invoked (trace, inr true)
  | _ => []
  end.

End WithHandlers.

Arguments SocketManager : clear implicits.
Arguments Log : clear implicits.

End Manager.

(** ** Managers used as concrete inputs *)

Definition ack_handle (h : nat) (msg : Tracker.UnpackedMessage) (ty : string)
    : Registry.HandleResult :=
  Registry.Returned.

(** A manager with a handler for ["voicechat.audio.start"] and the request
    of [slow_request] pending. *)
Definition awaiting_ack : Manager.SocketManager nat :=
  {| Manager.handlerRegistry :=
       Registry.registerHandler "voicechat.audio.start" 3 Registry.empty;
     Manager.requestTracker :=
       Tracker.run Tracker.defaultConfig slow_request Tracker.init;
     Manager.sessionId := Some "s1";
     Manager.log := [] |}.

(** * Properties *)

(** ** HandlerRegistry: routing order and throwing handlers *)

Section RegistryFacts.

Import Registry.
Context {Handler Message : Type}.
Variable handle : Handler -> Message -> string -> HandleResult.

Lemma invoke_returned h msg ty :
  handle h msg ty = Returned ->
  bind (invoke handle h msg ty) (fun _ => ret true)
  = ([Invoked h ty], inr true).
Proof. intros E. unfold bind, invoke. now rewrite E. Qed.

Lemma invoke_threw h msg ty e :
  handle h msg ty = Threw e ->
  bind (invoke handle h msg ty) (fun _ => ret true)
  = ([Invoked h ty], inl e).
Proof. intros E. unfold bind, invoke. now rewrite E. Qed.

(** Whatever the handler does, routing through it invokes it and nothing
    else. *)
Lemma invoked_through h msg ty :
  invoked
    (try_catch (bind (invoke handle h msg ty) (fun _ => ret true))
       (fun error => bind (logError ty error) (fun _ => ret false)))
  = [h].
Proof.
  destruct (handle h msg ty) as [|e] eqn:E.
  - now rewrite (invoke_returned _ _ _ E).
  - now rewrite (invoke_threw _ _ _ _ E).
Qed.

Lemma getErrorHandler_first_found (reg : HandlerRegistry Handler) ty :
  endsWith ty ".error" = true ->
  getErrorHandler reg ty
  = first_found [errorHandlers reg !! ty;
                 errorHandlers reg !! stripErrorSuffix ty].
Proof.
  intros E. unfold getErrorHandler. rewrite E. simpl.
  destruct (errorHandlers reg !! ty); [done|].
  now destruct (errorHandlers reg !! stripErrorSuffix ty).
Qed.

(** The handler [routeMessage] selects is the first one found along
    [lookup_order]. *)
Lemma route_selects (reg : HandlerRegistry Handler) msg ty :
  routeMessage handle reg msg ty
  = try_catch
      (match first_found (lookup_order reg ty) with
       | Some h => bind (invoke handle h msg ty) (fun _ => ret true)
       | None => ret false
       end)
      (fun error => bind (logError ty error) (fun _ => ret false)).
Proof.
  unfold routeMessage, lookup_order, routeRegular, getHandler.
  destruct (endsWith ty ".error") eqn:E.
  - rewrite (getErrorHandler_first_found _ _ E). simpl.
    destruct (errorHandlers reg !! ty); [done|].
    destruct (errorHandlers reg !! stripErrorSuffix ty); [done|].
    destruct (handlers reg !! "error"); [done|].
    now destruct (handlers reg !! ty).
  - simpl. now destruct (handlers reg !! ty).
Qed.

(** C5 (as amended). For an event type ending in [.error] the registry
    consults, in this order, the error registry under the full event type,
    the error registry under the event type without the suffix, the primary
    map under the wildcard key [error], and the primary map under the full
    event type; the first handler found is the one, and the only one,
    invoked. For any other event type only the primary map is consulted. *)
Theorem route_lookup_order (reg : HandlerRegistry Handler) msg ty :
  invoked (routeMessage handle reg msg ty)
  = option_list (first_found (lookup_order reg ty)).
Proof.
  rewrite route_selects.
  destruct (first_found (lookup_order reg ty)) as [h|]; simpl.
  - apply invoked_through.
  - reflexivity.
Qed.

(** C6 (as amended). When the selected handler throws, [routeMessage]
    catches the error, logs it and returns [false]: the message is reported
    as not handled, no exception leaves the call, and no second handler is
    tried. *)
Theorem route_handler_throws (reg : HandlerRegistry Handler) msg ty h e :
  first_found (lookup_order reg ty) = Some h ->
  handle h msg ty = Threw e ->
  routeMessage handle reg msg ty
  = ([Invoked h ty; LoggedError ty e], inr false).
Proof.
  intros Hsel Hthrow. rewrite route_selects, Hsel.
  now rewrite (invoke_threw _ _ _ _ Hthrow).
Qed.

End RegistryFacts.

(** C5, as stated, fails: with a primary handler under the full event type
    and an error handler under the stripped type, the stated order selects
    the primary handler (1) while the code invokes the error handler (2). *)
Lemma route_lookup_order_counterexample :
  first_found
    (Registry.spec_lookup_order audio_error_registry "voicechat.audio.error")
  = Some 1
  /\ Registry.invoked
       (Registry.routeMessage quiet_handle audio_error_registry tt
          "voicechat.audio.error")
     = [2].
Proof. split; vm_compute; reflexivity. Qed.

(** C6, as stated, fails: the handler throws and the message is reported as
    not handled. *)
Lemma route_handler_throws_counterexample :
  faulty_handle 7 tt "voicechat.response.chunk" = Registry.Threw "boom"
  /\ Registry.handled
       (Registry.routeMessage faulty_handle chunk_registry tt
          "voicechat.response.chunk")
     <> Some true.
Proof. split; [reflexivity | vm_compute; discriminate]. Qed.

Lemma route_handler_throws_witness :
  Registry.routeMessage faulty_handle chunk_registry tt
    "voicechat.response.chunk"
  = ([Registry.Invoked 7 "voicechat.response.chunk";
      Registry.LoggedError "voicechat.response.chunk" "boom"], inr false).
Proof.
  apply (route_handler_throws faulty_handle chunk_registry tt
           "voicechat.response.chunk" 7 "boom").
  - vm_compute. reflexivity.
  - reflexivity.
Defined.

(** ** SocketClient: connection waiters and the reconnect schedule *)

Section ClientFacts.

Import Client.
Variable wsConfig : WebSocketConfig.
Variable url_ok : string -> bool.

Abbreviation settlements_of c := (waiter_settlements (history c)).

Create Rewrite HintDb settle.

Ltac settle := repeat (progress (simpl; autorewrite with settle)); rewrite ?app_nil_r; try done.

Lemma settlements_app h1 h2 :
  waiter_settlements (h1 ++ h2) = waiter_settlements h1 ++ waiter_settlements h2.
Proof. unfold waiter_settlements. apply filter_app. Qed.

Lemma settlements_observe o c :
  settlements_of (observe o c) = settlements_of c ++ waiter_settlements o.
Proof. simpl. apply settlements_app. Qed.

Lemma settlements_setState n c :
  settlements_of (setState n c) = settlements_of c.
Proof.
  unfold setState. destruct (ConnectionState_eqb (state c) n); [done|].
  rewrite settlements_observe. simpl. apply app_nil_r.
Qed.

Hint Rewrite settlements_app settlements_observe settlements_setState : settle.

Lemma settlements_scheduleReconnect c :
  settlements_of (scheduleReconnect wsConfig c) = settlements_of c.
Proof. unfold scheduleReconnect. repeat case_match; settle. Qed.

Hint Rewrite settlements_scheduleReconnect : settle.

Lemma settlements_connect url c :
  settlements_of (connect wsConfig url_ok url c) = settlements_of c.
Proof.
  unfold connect. repeat case_match; settle.
Qed.

Hint Rewrite settlements_connect : settle.

Lemma settlements_sendImmediately d c :
  settlements_of (sendImmediately d c) = settlements_of c.
Proof.
  unfold sendImmediately. repeat case_match; settle.
Qed.

Hint Rewrite settlements_sendImmediately : settle.

Lemma settlements_sendAfterWait d c :
  settlements_of (sendAfterWait d c) = settlements_of c.
Proof.
  unfold sendAfterWait. case_match; settle.
Qed.

Hint Rewrite settlements_sendAfterWait : settle.

(** A fold of steps each of which is related to its start by a reflexive
    and transitive relation is related to its start as well. *)
Lemma foldl_preorder {A B} (R : A -> A -> Prop) (f : A -> B -> A) (l : list B) :
  (forall a, R a a) ->
  (forall a b c, R a b -> R b c -> R a c) ->
  (forall a b, R a (f a b)) ->
  forall a, R a (foldl f a l).
Proof.
  intros Hrefl Htrans Hf. induction l as [|b l IH]; intros a; simpl.
  - apply Hrefl.
  - eapply Htrans; [apply Hf|apply IH].
Qed.

Lemma settlements_waiter_resolve w c :
  settlements_of (waiter_resolve w c) = settlements_of c ++ [WaiterResolved (w.1)].
Proof.
  unfold waiter_resolve, waiter_settle. settle.
Qed.

Lemma settlements_waiter_reject r w c :
  settlements_of (waiter_reject r w c) = settlements_of c ++ [WaiterRejected (w.1) r].
Proof. unfold waiter_reject. rewrite settlements_observe. done. Qed.

Lemma settlements_settle_fold (waiters : list (nat * Data)) :
  forall c : SocketClient,
  settlements_of (foldl (fun c w => waiter_settle w c) c waiters)
  = settlements_of c ++ map (fun w => WaiterResolved w.1) waiters.
Proof.
  induction waiters as [|w waiters IH]; intros c; simpl.
  - now rewrite app_nil_r.
  - rewrite IH. unfold waiter_settle. rewrite settlements_observe. simpl.
    now rewrite <- app_assoc.
Qed.

Lemma settlements_reject_fold (waiters : list (nat * Data)) :
  forall c : SocketClient,
  settlements_of
    (foldl (fun c w => waiter_reject "Connection failed" w c) c waiters)
  = settlements_of c
    ++ map (fun w => WaiterRejected w.1 "Connection failed") waiters.
Proof.
  induction waiters as [|w waiters IH]; intros c; simpl.
  - now rewrite app_nil_r.
  - rewrite IH, settlements_waiter_reject, <- app_assoc. done.
Qed.

Lemma settlements_send_fold (waiters : list (nat * Data)) :
  forall c : SocketClient,
  settlements_of (foldl (fun c w => sendAfterWait w.2 c) c waiters)
  = settlements_of c.
Proof.
  induction waiters as [|w waiters IH]; intros c; simpl; [done|].
  now rewrite IH, settlements_sendAfterWait.
Qed.

Lemma settlements_resume success c :
  settlements_of (resumeConnectionWaiters success c)
  = settlements_of c
    ++ map (fun w => if success then WaiterResolved w.1
                     else WaiterRejected w.1 "Connection failed")
         (connectionWaiters c).
Proof.
  unfold resumeConnectionWaiters. destruct success.
  - now rewrite settlements_send_fold, settlements_settle_fold.
  - now rewrite settlements_reject_fold.
Qed.

(** [connect] never makes a client connected: that takes the socket's
    [onopen]. *)
Lemma state_setState n c : state (setState n c) = n.
Proof.
  unfold setState. destruct (ConnectionState_eqb (state c) n) eqn:E; [|done].
  destruct (state c), n; done.
Qed.

Lemma scheduleReconnect_not_connected c :
  state c <> connected -> state (scheduleReconnect wsConfig c) <> connected.
Proof.
  intros H. unfold scheduleReconnect.
  repeat case_match; simpl; rewrite ?state_setState; done.
Qed.

Lemma connect_not_connected url c :
  isConnected c = false -> isConnected (connect wsConfig url_ok url c) = false.
Proof.
  intros H. unfold connect.
  repeat case_match; try done.
  1,2: unfold isConnected; simpl; now rewrite state_setState.
  unfold isConnected.
    destruct (state (scheduleReconnect wsConfig
               (observe [ErrorEmitted]
                 (setState error
                   (setState connecting
                     (set_shouldReconnect true (set_currentUrl (Some url) c)))))))
      eqn:E; try done.
    exfalso. revert E. apply scheduleReconnect_not_connected.
    simpl. now rewrite state_setState.
Qed.

Lemma isConnected_set_nextWaiter n c :
  isConnected (set_nextWaiter n c) = isConnected c.
Proof. reflexivity. Qed.

Lemma settlements_waitForConnection d c :
  settlements_of (waitForConnection wsConfig url_ok d c) = settlements_of c.
Proof.
  unfold waitForConnection.
  destruct (isConnected c) eqn:Hc; [settle|].
  case_match; [settle|].
  rewrite isConnected_set_nextWaiter.
  replace (isConnected _) with false.
  2:{ destruct (currentUrl c); [|done].
      case_match; [|done]. now rewrite connect_not_connected. }
  simpl. destruct (currentUrl c); [|done]. case_match; settle.
Qed.

Hint Rewrite settlements_waitForConnection : settle.

Lemma settlements_send d c :
  settlements_of (send wsConfig url_ok d c) = settlements_of c.
Proof.
  unfold send. case_match.
  - apply settlements_sendImmediately.
  - apply settlements_waitForConnection.
Qed.

Lemma settlements_handlePingFailure c :
  settlements_of (handlePingFailure wsConfig c) = settlements_of c.
Proof.
  unfold handlePingFailure.
  assert (H : forall c', settlements_of
            match ws c' with
            | Some i => set_ws None (ws_close i c')
            | None => c'
            end = settlements_of c').
  { intros c'. destruct (ws c'); [|done]. simpl. unfold ws_close.
    repeat case_match; done. }
  case_match.
  - now rewrite settlements_scheduleReconnect, H, settlements_setState.
  - now rewrite H, settlements_setState.
Qed.

(** C7 (as amended). Every connection waiter registered by a send issued
    while not connected is resolved, in insertion order, when the transport
    opens; the waiters are rejected, in insertion order, by every transport
    close (whether or not a reconnect is then scheduled) and by an explicit
    disconnect, and a single waiter by its own timeout. No other event
    (reconnect exhaustion, a socket error, a timer, a network change, a new
    send or connect) settles a waiter. *)
Theorem waiters_settled_by c e :
  waiter_settlements (history (step wsConfig url_ok c e))
  = waiter_settlements (history c) ++ expected_settlements c e.
Proof.
  destruct e as [url|clear|d|id| |i|i|i code|i|online| ]; simpl.
  - rewrite settlements_connect. now rewrite app_nil_r.
  - unfold disconnect.
    assert (H : forall c', settlements_of
            match ws c' with
            | Some i => set_ws None (ws_close i c')
            | None => c'
            end = settlements_of c').
    { intros c'. destruct (ws c'); [|done]. simpl. unfold ws_close.
      repeat case_match; done. }
    assert (settlements_of
      (setState disconnected (stopPingTimer
        match ws (resumeConnectionWaiters false
                    (set_reconnectTimer None (set_shouldReconnect false c))) with
        | Some i => set_ws None (ws_close i (resumeConnectionWaiters false
                    (set_reconnectTimer None (set_shouldReconnect false c))))
        | None => resumeConnectionWaiters false
                    (set_reconnectTimer None (set_shouldReconnect false c))
        end)) = settlements_of c
               ++ map (fun w => WaiterRejected w.1 "Connection failed")
                    (connectionWaiters c)) as Hd.
    { rewrite settlements_setState. unfold stopPingTimer.
      change (settlements_of (set_pingTimer false ?x)) with (settlements_of x).
      rewrite H, settlements_resume. done. }
    destruct clear; [|exact Hd].
    etrans; [|exact Hd]. done.
  - rewrite settlements_send. now rewrite app_nil_r.
  - unfold waiterTimeoutCallback. case_match.
    + rewrite settlements_observe. done.
    + now rewrite app_nil_r.
  - case_match; [|now rewrite app_nil_r].
    rewrite app_nil_r. unfold reconnectTimerCallback.
    repeat case_match; try done.
    + now rewrite settlements_setState.
    + now rewrite settlements_connect.
  - destruct (sockets c !! i) as [[| | |]|]; try now rewrite app_nil_r.
    unfold onopen. rewrite settlements_resume. simpl.
    unfold startPingTimer.
    change (settlements_of (set_pingTimer true ?x)) with (settlements_of x).
    change (settlements_of (set_reconnectAttempts 0 ?x)) with (settlements_of x).
    rewrite settlements_setState. simpl. f_equal.
    assert (Hw : forall x, connectionWaiters (setState connected x) = connectionWaiters x).
    { intros x. unfold setState. case_match; done. }
    rewrite Hw. done.
  - destruct (sockets c !! i) as [[| | |]|]; try now rewrite app_nil_r.
    all: unfold onerror; rewrite settlements_observe, settlements_setState; done.
  - assert (Hw : forall x, connectionWaiters (setState disconnected x) = connectionWaiters x).
    { intros x. unfold setState. case_match; done. }
    assert (Hc : settlements_of (onclose wsConfig code (set_sockets (<[i:=CLOSED]> (sockets c)) c))
                 = settlements_of c ++ map (fun w => WaiterRejected w.1 "Connection failed")
                    (connectionWaiters c)).
    { unfold onclose. case_match.
      - rewrite settlements_scheduleReconnect, settlements_resume. simpl.
        rewrite Hw. unfold stopPingTimer.
        change (settlements_of (set_pingTimer false ?x)) with (settlements_of x).
        change (settlements_of (set_ws None ?x)) with (settlements_of x).
        rewrite settlements_setState. done.
      - rewrite settlements_resume. simpl.
        rewrite Hw. unfold stopPingTimer.
        change (settlements_of (set_pingTimer false ?x)) with (settlements_of x).
        change (settlements_of (set_ws None ?x)) with (settlements_of x).
        rewrite settlements_setState. done. }
    destruct (sockets c !! i) as [[| | |]|]; try now rewrite app_nil_r.
    all: exact Hc.
  - destruct (sockets c !! i) as [[| | |]|]; now rewrite app_nil_r.
  - rewrite app_nil_r. case_match; [done|].
    unfold onNetworkChange. case_match; [|done].
    now rewrite settlements_scheduleReconnect.
  - rewrite app_nil_r. case_match; [|done].
    unfold pingTimerCallback. repeat case_match; try done.
    now rewrite settlements_handlePingFailure.
Qed.



(** *** The reconnect schedule *)






















(** *** Delays follow the counter *)


Lemma getReconnectDelay_counter c :
  getReconnectDelay wsConfig c
  = delay_of_attempt wsConfig (reconnectAttempts c).
Proof. done. Qed.






















End ClientFacts.

(** C7, as stated, fails: a close with code 1006 while reconnecting is
    enabled rejects the pending waiter although a reconnect is scheduled. *)
Lemma waiters_settled_by_counterexample :
  let c := Client.run Client.defaultConfig accept_url latent_send
             (Client.init true) in
  let c' := Client.step Client.defaultConfig accept_url c
              (Client.WsClose 0 Client.CLOSE_ABNORMAL) in
  Client.connectionWaiters c = [(0, [])]
  /\ Client.state c' = Client.reconnecting
  /\ Client.reconnectTimer c' = Some 2000%Z
  /\ Client.waiter_settlements (Client.history c')
     = [Client.WaiterRejected 0 "Connection failed"].
Proof. vm_compute. repeat split. Qed.



(** ** RequestTracker: settlements, capacity, sweep *)

Section AssocFacts.

Context {K A : Type} `{EqDecision K}.
Implicit Types (l : list (K * A)) (k : K).

Lemma lookup_first_Some_elem l k v :
  lookup_first k l = Some v -> (k, v) ∈ l.
Proof.
  induction l as [|[k' v'] l IH]; simpl; [done|].
  case_decide as E.
  - intros [= ->]. subst. left.
  - intros H. right. auto.
Qed.

Lemma lookup_first_None l k :
  lookup_first k l = None <-> k ∉ map fst l.
Proof.
  induction l as [|[k' v'] l IH]; simpl.
  - split; [intros _; apply not_elem_of_nil|done].
  - rewrite not_elem_of_cons. case_decide as E; simpl.
    + split; [done|]. intros [? _]. congruence.
    + rewrite IH. split; [intros; split; congruence|tauto].
Qed.

Lemma lookup_first_elem l k v :
  NoDup (map fst l) -> (k, v) ∈ l -> lookup_first k l = Some v.
Proof.
  induction l as [|[k' v'] l IH]; simpl; intros Hnd Hin.
  - by apply elem_of_nil in Hin.
  - apply NoDup_cons in Hnd as [Hk Hnd].
    apply elem_of_cons in Hin as [[= <- <-]|Hin].
    + by rewrite decide_True.
    + rewrite decide_False; [auto|].
      intros ->. apply Hk. by apply (list_elem_of_fmap_2 fst _ (k, v)).
Qed.

Lemma lookup_first_filter_ne l k k' :
  k <> k' ->
  lookup_first k (filter (fun e => e.1 <> k') l) = lookup_first k l.
Proof.
  intros Hne. induction l as [|[k0 v0] l IH]; [done|].
  destruct (decide (k0 = k')) as [->|Hk0].
  - rewrite filter_cons_False by (simpl; tauto).
    simpl. rewrite decide_False by congruence. done.
  - rewrite filter_cons_True by done. simpl. case_decide; done.
Qed.

Lemma lookup_first_filter_eq l k :
  lookup_first k (filter (fun e => e.1 <> k) l) = None.
Proof.
  apply lookup_first_None. intros (e & -> & He)%list_elem_of_fmap.
  apply list_elem_of_filter in He as [He _]. done.
Qed.

Lemma lookup_first_app_new l k k' v :
  lookup_first k (l ++ [(k', v)])
  = match lookup_first k l with
    | Some x => Some x
    | None => if decide (k' = k) then Some v else None
    end.
Proof.
  induction l as [|[k0 v0] l IH]; simpl; [by case_decide|].
  destruct (decide (k0 = k)); [done|auto].
Qed.

End AssocFacts.

Lemma NoDup_submseteq_inv {A} (l k : list A) : l ⊆+ k -> NoDup k -> NoDup l.
Proof.
  intros [k' Hk]%submseteq_Permutation Hnd. rewrite Hk in Hnd.
  by apply NoDup_app in Hnd as [? _].
Qed.

Section TrackerFacts.

Import Tracker.
Variable config : RequestTrackerConfig.

Implicit Types (t : RequestTracker) (e : string * PendingRequest).

Lemma settle_fold ps o t :
  foldl (fun t p => settle p o t) t ps
  = set_settled (settled t ++ map (fun p => (p, o)) ps) t.
Proof.
  revert t. induction ps as [|p ps IH]; intros t; simpl.
  - rewrite app_nil_r. by destruct t.
  - rewrite IH. unfold set_settled, settle. simpl.
    by rewrite <- app_assoc.
Qed.

Lemma settle_request_eq r o t :
  settle_request r o t
  = set_settled (settled t ++ map (fun p => (p, o)) (listeners r)) t.
Proof. apply settle_fold. Qed.

Lemma get_Some_elem k r t : get k t = Some r -> (k, r) ∈ pendingRequests t.
Proof. apply lookup_first_Some_elem. Qed.

Lemma get_elem k r t :
  NoDup (map fst (pendingRequests t)) -> (k, r) ∈ pendingRequests t ->
  get k t = Some r.
Proof. apply lookup_first_elem. Qed.

(** *** Removing requests keeps a tracker consistent *)

(** The state after the requests selected by [P] have left the map, their
    timers were cleared, and the promises [S e] of each were settled. *)
Lemma consistent_remove (P : string * PendingRequest -> Prop)
    `{!forall e, Decision (P e)}
    (S : string * PendingRequest -> list (nat * Settlement)) t t' :
  consistent t ->
  pendingRequests t' = filter (fun e => ~ P e) (pendingRequests t) ->
  timers t'
  = filter (fun tm => handle tm ∉
                        map (fun e => timeout e.2) (filter P (pendingRequests t)))
      (timers t) ->
  settled t' = settled t ++ (filter P (pendingRequests t) ≫= S) ->
  (forall e, e ∈ pendingRequests t -> P e ->
     promise e.2 ∈ map fst (S e) /\ map fst (S e) ⊆+ listeners e.2) ->
  jobs t' = jobs t ->
  duplicatePromises t' = duplicatePromises t ->
  nextPromise t' = nextPromise t ->
  nextTimer t' = nextTimer t ->
  consistent t'.
Proof.
  intros [Hk Hh Hhb Hpu Hpb Htr Hrt Hdk Hot] Hp Ht Hs HS Hj Hd Hnp Hnt.
  assert (Hsub : promises t' ⊆+ promises t).
  { unfold promises, pending_promises. rewrite Hp, Hs, Hj, fmap_app.
    set (L := fun e : string * PendingRequest => listeners e.2).
    set (R := filter P (pendingRequests t)).
    set (N := filter (fun e => ~ P e) (pendingRequests t)).
    assert (HX : map fst (R ≫= S) ⊆+ R ≫= L).
    { assert (HR : forall e, e ∈ R -> e ∈ pendingRequests t /\ P e).
      { intros e He. apply list_elem_of_filter in He. tauto. }
      clearbody R. induction R as [|e l IH]; [done|].
      rewrite !bind_cons, fmap_app. apply submseteq_app.
      - apply HS; apply HR; left.
      - apply IH. intros e' He'. apply HR. by right. }
    assert (HE : pendingRequests t ≫= L ≡ₚ (R ≫= L) ++ (N ≫= L)).
    { rewrite <- bind_app. f_equiv. symmetry. apply filter_app_complement. }
    rewrite HE.
    trans (((N ≫= L) ++ map j_promise (jobs t))
           ++ map fst (settled t) ++ (R ≫= L)).
    { apply submseteq_skips_l, submseteq_skips_l, HX. }
    apply Permutation_submseteq.
    rewrite (comm (++) (R ≫= L) (N ≫= L)).
    rewrite <- !(assoc_L (++)). f_equiv.
    rewrite (comm (++) (R ≫= L)). rewrite <- !(assoc_L (++)). done. }
  assert (Hin : forall e, e ∈ pendingRequests t' <-> e ∈ pendingRequests t /\ ~ P e).
  { intros e. rewrite Hp, list_elem_of_filter. tauto. }
  assert (Hk' : NoDup (map fst (pendingRequests t'))).
  { rewrite Hp. eapply sublist_NoDup; [exact Hk|].
    apply fmap_sublist, sublist_filter. }
  split.
  - exact Hk'.
  - rewrite Hp. eapply sublist_NoDup; [exact Hh|].
    apply fmap_sublist, sublist_filter.
  - intros e He%Hin. rewrite Hnt. apply Hhb, He.
  - eapply NoDup_submseteq_inv; eauto.
  - intros p Hp'. rewrite Hnp. apply Hpb. eapply elem_of_submseteq; eauto.
  - intros tm Htm. rewrite Ht in Htm.
    apply list_elem_of_filter in Htm as [Hnot Htm].
    destruct (Htr tm Htm) as (r & Hg & Hto & Hpr).
    exists r. split; [|done].
    apply get_elem; [done|]. apply Hin. split; [by apply get_Some_elem|].
    intros HP. apply Hnot. rewrite <- Hto.
    apply (list_elem_of_fmap_2 (fun e => timeout e.2) _ (t_eventId tm, r)).
    apply list_elem_of_filter. split; [done|by apply get_Some_elem].
  - intros e [He HnP]%Hin.
    destruct (Hrt e He) as (tm & Htm & Hh' & Hrest).
    exists tm. split; [|done].
    rewrite Ht. apply list_elem_of_filter. split; [|done].
    intros (e' & Heq & [HP He']%list_elem_of_filter)%list_elem_of_fmap.
    apply HnP. replace e with e'; [done|].
    rewrite Hh' in Heq.
    apply list_elem_of_split in He as (l1 & l2 & Hl).
    rewrite Hl in Hh, He'. rewrite fmap_app, fmap_cons in Hh.
    apply NoDup_app in Hh as (_ & Hd1 & Hd2).
    apply NoDup_cons in Hd2 as [Hd2 _].
    apply elem_of_app in He' as [He'|He'].
    + exfalso. apply (Hd1 (timeout e'.2)).
      * by apply (list_elem_of_fmap_2 (fun e => timeout e.2)).
      * rewrite <- Heq. left.
    + apply elem_of_cons in He' as [->|He']; [done|].
      exfalso. apply Hd2. rewrite Heq.
      by apply (list_elem_of_fmap_2 (fun e => timeout e.2)).
  - intros p Hp'. rewrite Hd. apply Hdk.
    rewrite Hp, Hj in Hp'. apply elem_of_app in Hp' as [Hp'|Hp'].
    + apply elem_of_app. left.
      apply list_elem_of_bind in Hp' as (e & ? & [_ ?]%list_elem_of_filter).
      apply list_elem_of_bind. eauto.
    + apply elem_of_app. by right.
  - intros p Hlt Hnd. rewrite Hnp in Hlt. rewrite Hd in Hnd.
    destruct (Hot p Hlt Hnd) as [Ho|Ho].
    + apply list_elem_of_fmap in Ho as (e & -> & He).
      destruct (decide (P e)) as [HP|HP].
      * right. rewrite Hs, fmap_app. apply elem_of_app. right.
        apply list_elem_of_fmap.
        destruct (HS e He HP) as [Hpe _].
        apply list_elem_of_fmap in Hpe as (x & Hx & Hxe).
        exists x. split; [done|].
        apply list_elem_of_bind. exists e. split; [done|].
        apply list_elem_of_filter. done.
      * left. apply (list_elem_of_fmap_2 (fun e => promise e.2)).
        apply Hin. done.
    + right. rewrite Hs, fmap_app. apply elem_of_app. by left.
Qed.


Lemma NoDup_fst_inj (l : list (string * PendingRequest)) e e' :
  NoDup (map fst l) -> e ∈ l -> e' ∈ l -> e.1 = e'.1 -> e = e'.
Proof.
  intros Hnd He He' Heq. destruct e as [k r], e' as [k' r']. simpl in Heq.
  subst k'. f_equal.
  apply (lookup_first_elem _ _ _ Hnd) in He, He'. congruence.
Qed.

Lemma filter_ext_in {A} (P Q : A -> Prop) `{!forall x, Decision (P x)}
    `{!forall x, Decision (Q x)} (l : list A) :
  (forall x, x ∈ l -> P x <-> Q x) -> filter P l = filter Q l.
Proof.
  induction l as [|x l IH]; intros Hext; [done|].
  rewrite !filter_cons.
  assert (P x <-> Q x) as Hx by (apply Hext; left).
  rewrite IH by (intros; apply Hext; by right).
  destruct (decide (P x)), (decide (Q x)); tauto.
Qed.

Lemma filter_key (l : list (string * PendingRequest)) k r :
  NoDup (map fst l) -> (k, r) ∈ l -> filter (fun e => e.1 = k) l = [(k, r)].
Proof.
  induction l as [|[k0 r0] l IH]; intros Hnd Hin.
  - by apply elem_of_nil in Hin.
  - simpl in Hnd. apply NoDup_cons in Hnd as [Hk0 Hnd].
    apply elem_of_cons in Hin as [[= <- <-]|Hin].
    + rewrite filter_cons_True by done. f_equal.
      apply elem_of_nil_inv. intros e [He Hin]%list_elem_of_filter.
      apply Hk0. rewrite <- He. by apply (list_elem_of_fmap_2 fst).
    + rewrite filter_cons_False; [auto|].
      simpl. intros ->. apply Hk0. by apply (list_elem_of_fmap_2 fst _ (k, r)).
Qed.

(** One request leaves the map, with its timer, and its promise (or all the
    promises behind it) is settled. *)
Lemma consistent_remove_one k r (S : list (nat * Settlement)) t t' :
  consistent t ->
  get k t = Some r ->
  pendingRequests t' = filter (fun e => e.1 <> k) (pendingRequests t) ->
  timers t' = filter (fun tm => handle tm <> timeout r) (timers t) ->
  settled t' = settled t ++ S ->
  promise r ∈ map fst S -> map fst S ⊆+ listeners r ->
  jobs t' = jobs t ->
  duplicatePromises t' = duplicatePromises t ->
  nextPromise t' = nextPromise t ->
  nextTimer t' = nextTimer t ->
  consistent t'.
Proof.
  intros Hc Hg Hp Ht Hs HS1 HS2 Hj Hd Hnp Hnt.
  pose proof (keys_unique _ Hc) as Hk.
  pose proof (get_Some_elem _ _ _ Hg) as Hin.
  pose proof (filter_key _ _ _ Hk Hin) as Hf.
  apply (consistent_remove (fun e => e.1 = k) (fun _ => S) t t'); try done.
  - rewrite Ht, Hf. apply list_filter_iff. intros tm. simpl.
    rewrite list_elem_of_singleton. done.
  - rewrite Hs, Hf. by rewrite bind_singleton.
  - intros e He Hek. replace e with (k, r); [done|].
    apply (NoDup_fst_inj (pendingRequests t)); done.
Qed.

Lemma consistent_cancelRequest eid t :
  consistent t -> consistent (cancelRequest eid t).
Proof.
  intros Hc. unfold cancelRequest.
  destruct (get eid t) as [r|] eqn:Hg; [|done].
  rewrite settle_request_eq.
  apply (consistent_remove_one eid r
           (map (fun p => (p, Rejected cancel_message)) (listeners r)) t);
    try done.
  - rewrite <- list_fmap_compose. simpl. left.
  - by rewrite <- list_fmap_compose, list_fmap_id.
Qed.

Lemma consistent_matchAck eid ack t :
  consistent t -> consistent (matchAck eid ack t).2.
Proof.
  intros Hc. unfold matchAck.
  destruct (get eid t) as [r|] eqn:Hg; [|done]. simpl.
  rewrite settle_request_eq.
  apply (consistent_remove_one eid r
           (map (fun p => (p, Resolved ack)) (listeners r)) t);
    try done.
  - rewrite <- list_fmap_compose. simpl. left.
  - by rewrite <- list_fmap_compose, list_fmap_id.
Qed.


Lemma filter_idemp {A} (P : A -> Prop) `{!forall x, Decision (P x)} (l : list A) :
  filter P (filter P l) = filter P l.
Proof.
  induction l as [|x l IH]; [done|].
  rewrite filter_cons. destruct (decide (P x)); [|done].
  rewrite filter_cons_True by done. by rewrite IH.
Qed.

Lemma head_filter_Some {A} (P : A -> Prop) `{!forall x, Decision (P x)}
    (l : list A) x :
  head (filter P l) = Some x -> x ∈ l /\ P x.
Proof.
  intros Hh. apply head_Some_elem_of in Hh.
  apply list_elem_of_filter in Hh. tauto.
Qed.

(** The state after the timer [tm] fired, when its request is pending. *)
Lemma timeoutCallback_fields tm r t :
  get (t_eventId tm) t = Some r -> timeout r = handle tm ->
  let t' := timeoutCallback tm (clearTimeout (handle tm) t) in
  pendingRequests t'
  = filter (fun e => e.1 <> t_eventId tm) (pendingRequests t)
  /\ timers t' = filter (fun x => handle x <> handle tm) (timers t)
  /\ settled t'
     = settled t
       ++ [(t_promise tm,
            Rejected (timeout_message (t_eventType tm) (t_eventId tm)))]
  /\ jobs t' = jobs t /\ duplicatePromises t' = duplicatePromises t
  /\ nextPromise t' = nextPromise t /\ nextTimer t' = nextTimer t.
Proof.
  intros Hg Hto. unfold timeoutCallback, handleTimeout.
  change (get (t_eventId tm) (clearTimeout (handle tm) t))
    with (get (t_eventId tm) t).
  rewrite Hg. simpl. rewrite Hto, filter_idemp. done.
Qed.

Lemma consistent_timerFired h t :
  consistent t -> consistent (step config t (TimerFired h)).
Proof.
  intros Hc. simpl.
  destruct (head (filter (fun tm => handle tm = h) (timers t))) as [tm|] eqn:Hh;
    [|done].
  apply head_filter_Some in Hh as [Htm <-].
  destruct (timer_has_request _ Hc tm Htm) as (r & Hg & Hto & Hpr).
  destruct (timeoutCallback_fields tm r t Hg Hto)
    as (H1 & H2 & H3 & H4 & H5 & H6 & H7).
  apply (consistent_remove_one (t_eventId tm) r
           [(t_promise tm,
             Rejected (timeout_message (t_eventType tm) (t_eventId tm)))] t);
    [exact Hc|exact Hg|exact H1|by rewrite Hto|exact H3| | |done..].
  - rewrite Hpr. left.
  - unfold listeners. rewrite Hpr.
    apply submseteq_skip, submseteq_nil_l.
Qed.

(** The head of the sorted entries is an entry with the least timestamp. *)
Lemma insert_by_timestamp_head e l :
  head (insert_by_timestamp e l)
  = match head l with
    | Some x => if (timestamp e.2 <=? timestamp x.2)%Z then Some e else Some x
    | None => Some e
    end.
Proof. destruct l as [|x l]; simpl; [done|]. by case_match. Qed.

Lemma sort_by_timestamp_head l e :
  head (sort_by_timestamp l) = Some e ->
  e ∈ l /\ forall x, x ∈ l -> (timestamp e.2 <= timestamp x.2)%Z.
Proof.
  revert e. induction l as [|y l IH]; intros e; simpl; [done|].
  rewrite insert_by_timestamp_head.
  destruct (head (sort_by_timestamp l)) as [x|] eqn:Hx.
  - destruct (IH x eq_refl) as [Hin Hmin].
    destruct (Z.leb_spec (timestamp y.2) (timestamp x.2)); intros [= <-].
    + split; [left|]. intros z [->|Hz]%elem_of_cons; [lia|].
      specialize (Hmin z Hz). lia.
    + split; [by right|]. intros z [->|Hz]%elem_of_cons; [lia|auto].
  - intros [= <-]. split; [left|].
    intros z [->|Hz]%elem_of_cons; [lia|].
    apply head_None in Hx.
    assert (l = []) as ->.
    { destruct l as [|a l]; [done|]. simpl in Hx.
      destruct (sort_by_timestamp l); simpl in Hx; [done|].
      by case_match. }
    by apply elem_of_nil in Hz.
Qed.

Lemma sort_by_timestamp_head_nonempty l :
  l <> [] -> is_Some (head (sort_by_timestamp l)).
Proof.
  destruct l as [|y l]; [done|]. intros _. simpl.
  rewrite insert_by_timestamp_head. by repeat case_match.
Qed.

(** What [enforceLimit] does when it evicts. *)
Lemma enforceLimit_evicts t oldest :
  maxPendingRequests config <= length (pendingRequests t) ->
  head (sort_by_timestamp (pendingRequests t)) = Some oldest ->
  enforceLimit config t
  = {| pendingRequests :=
         filter (fun e => e.1 <> oldest.1) (pendingRequests t);
       timers := filter (fun tm => handle tm <> timeout oldest.2) (timers t);
       jobs := jobs t; cleanupTimer := cleanupTimer t;
       settled := settled t
                  ++ map (fun p => (p, Rejected limit_message))
                       (listeners oldest.2);
       duplicatePromises := duplicatePromises t;
       nextPromise := nextPromise t; nextTimer := nextTimer t |}.
Proof.
  intros Hfull Hhead. unfold enforceLimit.
  apply Nat.leb_le in Hfull. rewrite Hfull, Hhead.
  by rewrite settle_request_eq.
Qed.

Lemma enforceLimit_idle t :
  length (pendingRequests t) < maxPendingRequests config ->
  enforceLimit config t = t.
Proof.
  intros Hlt. unfold enforceLimit.
  apply Nat.leb_gt in Hlt. by rewrite Hlt.
Qed.

Lemma consistent_enforceLimit t :
  consistent t -> consistent (enforceLimit config t).
Proof.
  intros Hc.
  destruct (decide (maxPendingRequests config <= length (pendingRequests t)))
    as [Hfull|Hlt]; [|rewrite enforceLimit_idle; [done|lia]].
  destruct (head (sort_by_timestamp (pendingRequests t))) as [[k r]|] eqn:Hh.
  - rewrite (enforceLimit_evicts _ _ Hfull Hh).
    apply sort_by_timestamp_head in Hh as [Hin _].
    apply (consistent_remove_one k r
             (map (fun p => (p, Rejected limit_message)) (listeners r)) t);
      try done.
    + apply get_elem; [apply Hc|done].
    + rewrite <- list_fmap_compose. simpl. left.
    + by rewrite <- list_fmap_compose, list_fmap_id.
  - unfold enforceLimit. rewrite Hh. by case_match.
Qed.

Lemma enforceLimit_next t :
  nextPromise (enforceLimit config t) = nextPromise t
  /\ nextTimer (enforceLimit config t) = nextTimer t
  /\ duplicatePromises (enforceLimit config t) = duplicatePromises t
  /\ jobs (enforceLimit config t) = jobs t.
Proof.
  unfold enforceLimit. repeat case_match; try done.
  rewrite settle_request_eq. done.
Qed.

Lemma get_None_keys k t :
  get k t = None <-> k ∉ map fst (pendingRequests t).
Proof. apply lookup_first_None. Qed.

Lemma enforceLimit_get_None k t :
  get k t = None -> get k (enforceLimit config t) = None.
Proof.
  rewrite !get_None_keys. intros Hk Hin. apply Hk.
  unfold enforceLimit in Hin. repeat case_match; try done.
  rewrite settle_request_eq in Hin. simpl in Hin.
  apply list_elem_of_fmap in Hin as (e & -> & [_ He]%list_elem_of_filter).
  by apply (list_elem_of_fmap_2 fst).
Qed.


(** The state after [trackRequest] took the branch of a new event id. *)
Lemma trackRequest_new eid ety tmo now t :
  get eid t = None ->
  let t1 := enforceLimit config t in
  let request := {| eventId := eid; eventType := ety; timestamp := now;
                    promise := nextPromise t; duplicates := [];
                    timeout := nextTimer t |} in
  let timer := {| handle := nextTimer t;
                  delay := default (defaultTimeout config) tmo;
                  t_eventId := eid; t_eventType := ety;
                  t_promise := nextPromise t |} in
  trackRequest config eid ety tmo now t
  = (nextPromise t,
     {| pendingRequests := pendingRequests t1 ++ [(eid, request)];
        timers := timers t1 ++ [timer];
        jobs := jobs t; cleanupTimer := cleanupTimer t1;
        settled := settled t1;
        duplicatePromises := duplicatePromises t;
        nextPromise := S (nextPromise t); nextTimer := S (nextTimer t) |}).
Proof.
  intros Hg. simpl. unfold trackRequest. rewrite Hg.
  destruct (enforceLimit_next t) as (-> & -> & -> & ->).
  unfold set.
  change (get eid {| pendingRequests := pendingRequests (enforceLimit config t);
                     timers := _; jobs := _; cleanupTimer := _; settled := _;
                     duplicatePromises := _; nextPromise := _;
                     nextTimer := _ |})
    with (get eid (enforceLimit config t)).
  by rewrite (enforceLimit_get_None _ _ Hg).
Qed.

Lemma consistent_add eid r tm t t' :
  consistent t ->
  get eid t = None ->
  promise r = nextPromise t -> duplicates r = [] -> timeout r = nextTimer t ->
  handle tm = nextTimer t -> t_eventId tm = eid ->
  t_promise tm = nextPromise t -> t_eventType tm = eventType r ->
  pendingRequests t' = pendingRequests t ++ [(eid, r)] ->
  timers t' = timers t ++ [tm] ->
  jobs t' = jobs t -> settled t' = settled t ->
  duplicatePromises t' = duplicatePromises t ->
  nextPromise t' = S (nextPromise t) -> nextTimer t' = S (nextTimer t) ->
  consistent t'.
Proof.
  intros [Hk Hh Hhb Hpu Hpb Htr Hrt Hdk Hot] Hg Hr1 Hr2 Hr3 Ht1 Ht2 Ht3 Ht4
    Hp Ht Hj Hs Hd Hnp Hnt.
  apply get_None_keys in Hg.
  assert (Hperm : promises t' ≡ₚ nextPromise t :: promises t).
  { unfold promises, pending_promises. rewrite Hp, Hs, Hj, bind_app.
    rewrite bind_singleton. unfold listeners. cbn [snd]. rewrite Hr1, Hr2.
    rewrite <- !(assoc_L (++)). simpl.
    by rewrite <- Permutation_middle. }
  assert (Hget : forall k x, get k t = Some x -> get k t' = Some x).
  { intros k x Hx. unfold get in *. by rewrite Hp, lookup_first_app_new, Hx. }
  split.
  - rewrite Hp, fmap_app. apply NoDup_app. split; [done|]. split.
    + intros k Hk1 [->|[]%elem_of_nil]%elem_of_cons. done.
    + apply NoDup_singleton.
  - rewrite Hp, fmap_app. apply NoDup_app. split; [done|]. split.
    + intros h (e & -> & He)%list_elem_of_fmap [Heq|[]%elem_of_nil]%elem_of_cons.
      simpl in Heq. specialize (Hhb e He). lia.
    + apply NoDup_singleton.
  - intros e He. rewrite Hp in He. rewrite Hnt.
    apply elem_of_app in He as [He|[->|[]%elem_of_nil]%elem_of_cons].
    + specialize (Hhb e He). lia.
    + simpl. lia.
  - rewrite Hperm. apply NoDup_cons. split; [|done].
    intros Hin. specialize (Hpb _ Hin). lia.
  - intros p Hin. rewrite Hperm in Hin. rewrite Hnp.
    apply elem_of_cons in Hin as [->|Hin]; [lia|].
    specialize (Hpb _ Hin). lia.
  - intros x Hx. rewrite Ht in Hx.
    apply elem_of_app in Hx as [Hx|[->|[]%elem_of_nil]%elem_of_cons].
    + destruct (Htr x Hx) as (r' & Hg' & ?). exists r'. split; [auto|done].
    + exists r. split; [|split; congruence].
      unfold get. rewrite Hp, lookup_first_app_new.
      apply lookup_first_None in Hg. rewrite Ht2, Hg.
      by rewrite decide_True.
  - intros e He. rewrite Hp in He.
    apply elem_of_app in He as [He|[->|[]%elem_of_nil]%elem_of_cons].
    + destruct (Hrt e He) as (x & Hx & ?). exists x. split; [|done].
      rewrite Ht. apply elem_of_app. by left.
    + exists tm. split; [rewrite Ht; apply elem_of_app; right; left|].
      simpl. repeat split; congruence.
  - intros p Hin. rewrite Hd. apply Hdk.
    rewrite Hp, Hj, bind_app, bind_singleton in Hin. cbn [snd] in Hin.
    rewrite Hr2, app_nil_r in Hin. done.
  - intros p Hlt Hnd. rewrite Hnp in Hlt. rewrite Hd in Hnd.
    destruct (decide (p = nextPromise t)) as [->|Hne].
    + left. rewrite Hp, fmap_app. apply elem_of_app. right.
      simpl. rewrite Hr1. left.
    + destruct (Hot p) as [Ho|Ho]; [lia|done| |].
      * left. rewrite Hp, fmap_app. apply elem_of_app. by left.
      * right. by rewrite Hs.
Qed.

Lemma consistent_trackRequest eid ety tmo now t :
  consistent t -> consistent (trackRequest config eid ety tmo now t).2.
Proof.
  intros Hc. destruct (get eid t) as [existing|] eqn:Hg.
  - unfold trackRequest. rewrite Hg. simpl.
    destruct Hc as [Hk Hh Hhb Hpu Hpb Htr Hrt Hdk Hot].
    assert (Hperm : forall js ss,
      (pendingRequests t ≫= (fun e => listeners e.2))
      ++ map j_promise (js ++ [{| j_request := timeout existing;
                                  j_promise := nextPromise t |}]) ++ ss
      ≡ₚ nextPromise t
         :: (pendingRequests t ≫= (fun e => listeners e.2))
            ++ map j_promise js ++ ss).
    { intros js ss. rewrite fmap_app. simpl.
      rewrite <- !(assoc_L (++)). simpl.
      rewrite !(assoc_L (++) (pendingRequests t ≫= _)).
      by rewrite <- Permutation_middle. }
    split; simpl; try done.
    + unfold promises, pending_promises. simpl.
      rewrite <- (assoc_L (++)), Hperm.
      apply NoDup_cons. split.
      * intros Hin. cut (nextPromise t < nextPromise t); [lia|].
        apply Hpb. unfold promises, pending_promises.
        by rewrite <- (assoc_L (++)).
      * unfold promises, pending_promises in Hpu.
        by rewrite <- (assoc_L (++)) in Hpu.
    + intros p. unfold promises, pending_promises. simpl.
      rewrite <- (assoc_L (++)), Hperm.
      intros [->|Hin]%elem_of_cons; [lia|].
      cut (p < nextPromise t); [lia|]. apply Hpb.
      unfold promises, pending_promises. by rewrite <- (assoc_L (++)).
    + intros p. rewrite fmap_app. simpl.
      rewrite (assoc_L (++)), !elem_of_app.
      intros [Hin|[->|[]%elem_of_nil]%elem_of_cons].
      * left. apply Hdk. by apply elem_of_app.
      * right. left.
    + intros p Hlt Hnd. apply Hot.
      * cut (p <> nextPromise t); [lia|]. intros ->. apply Hnd.
        apply elem_of_app. right. left.
      * intros Hin. apply Hnd. apply elem_of_app. by left.
  - rewrite (trackRequest_new _ _ _ _ _ Hg). simpl.
    pose proof (consistent_enforceLimit t Hc) as Hc1.
    destruct (enforceLimit_next t) as (E1 & E2 & E3 & E4).
    apply (consistent_add eid
             {| eventId := eid; eventType := ety; timestamp := now;
                promise := nextPromise t; duplicates := [];
                timeout := nextTimer t |}
             {| handle := nextTimer t;
                delay := default (defaultTimeout config) tmo;
                t_eventId := eid; t_eventType := ety;
                t_promise := nextPromise t |}
             (enforceLimit config t));
      [exact Hc1|by apply enforceLimit_get_None|..];
      simpl; rewrite ?E1, ?E2; done.
Qed.


(** *** The job of a duplicate *)

Lemma wrap_same j e :
  (wrap j e).1 = e.1 /\ timeout (wrap j e).2 = timeout e.2
  /\ promise (wrap j e).2 = promise e.2
  /\ eventType (wrap j e).2 = eventType e.2.
Proof. unfold wrap. by case_decide. Qed.

Lemma wrap_map_fst j (l : list (string * PendingRequest)) :
  map fst (map (wrap j) l) = map fst l.
Proof.
  rewrite <- list_fmap_compose. apply list_fmap_ext.
  intros i e _. apply wrap_same.
Qed.

Lemma wrap_map_timeout j (l : list (string * PendingRequest)) :
  map (fun e => timeout e.2) (map (wrap j) l) = map (fun e => timeout e.2) l.
Proof.
  rewrite <- list_fmap_compose. apply list_fmap_ext.
  intros i e _. apply wrap_same.
Qed.

Lemma wrap_map_promise j (l : list (string * PendingRequest)) :
  map (fun e => promise e.2) (map (wrap j) l) = map (fun e => promise e.2) l.
Proof.
  rewrite <- list_fmap_compose. apply list_fmap_ext.
  intros i e _. apply wrap_same.
Qed.

Lemma wrap_no_match j (l : list (string * PendingRequest)) :
  j_request j ∉ map (fun e => timeout e.2) l -> map (wrap j) l = l.
Proof.
  induction l as [|e l IH]; [done|]. simpl.
  rewrite not_elem_of_cons. intros [Hne Hl].
  rewrite IH by done. unfold wrap. by rewrite decide_False.
Qed.

Lemma wrap_listeners j (l : list (string * PendingRequest)) :
  NoDup (map (fun e => timeout e.2) l) ->
  map (wrap j) l ≫= (fun e => listeners e.2)
  ⊆+ j_promise j :: (l ≫= fun e => listeners e.2).
Proof.
  induction l as [|e l IH]; intros Hnd; [apply submseteq_nil_l|].
  simpl in Hnd. apply NoDup_cons in Hnd as [Hne Hnd].
  rewrite fmap_cons, !bind_cons.
  destruct (decide (timeout e.2 = j_request j)) as [Heq|Hneq].
  - rewrite wrap_no_match by (by rewrite <- Heq).
    unfold wrap. rewrite decide_True by done. unfold listeners. simpl.
    apply Permutation_submseteq.
    rewrite (app_comm_cons (duplicates e.2)), <- (assoc_L (++)). simpl.
    symmetry. apply (Permutation_middle (promise e.2 :: duplicates e.2)).
  - unfold wrap at 1. rewrite decide_False by done.
    rewrite (Permutation_middle (listeners e.2)).
    apply submseteq_skips_l, IH, Hnd.
Qed.

Lemma wrap_lookup j k (l : list (string * PendingRequest)) :
  lookup_first k (map (wrap j) l)
  = (fun r => (wrap j (k, r)).2) <$> lookup_first k l.
Proof.
  induction l as [|[k0 r0] l IH]; [done|]. simpl.
  destruct (wrap_same j (k0, r0)) as [Hk _].
  destruct (wrap j (k0, r0)) as [k1 r1] eqn:Hw. simpl in Hk. subst k1.
  case_decide as Hd; [|done]. subst k0. simpl. by rewrite Hw.
Qed.

Lemma consistent_runJob j rest t :
  consistent t -> jobs t = j :: rest ->
  consistent (runJob j (set_jobs rest t)).
Proof.
  intros [Hk Hh Hhb Hpu Hpb Htr Hrt Hdk Hot] Hj.
  assert (Hsub : promises (runJob j (set_jobs rest t)) ⊆+ promises t).
  { unfold promises, pending_promises. simpl. rewrite Hj. simpl.
    rewrite <- !(assoc_L (++)).
    trans ((j_promise j :: (pendingRequests t ≫= fun e => listeners e.2))
           ++ map j_promise rest ++ map fst (settled t)).
    - apply submseteq_skips_r. by apply wrap_listeners.
    - apply Permutation_submseteq. simpl. apply Permutation_middle. }
  split; simpl.
  - by rewrite wrap_map_fst.
  - by rewrite wrap_map_timeout.
  - intros e (e0 & -> & He0)%list_elem_of_fmap.
    destruct (wrap_same j e0) as (_ & -> & _). auto.
  - eapply NoDup_submseteq_inv; eauto.
  - intros p Hp. apply Hpb. eapply elem_of_submseteq; eauto.
  - intros tm Htm. destruct (Htr tm Htm) as (r & Hg & Hto & Hpr).
    exists (wrap j (t_eventId tm, r)).2. split.
    + unfold get in *. simpl. by rewrite wrap_lookup, Hg.
    + destruct (wrap_same j (t_eventId tm, r)) as (_ & -> & -> & _). done.
  - intros e (e0 & -> & He0)%list_elem_of_fmap.
    destruct (Hrt e0 He0) as (tm & Htm & ?).
    exists tm. split; [done|].
    destruct (wrap_same j e0) as (-> & -> & -> & ->). done.
  - intros p Hp. apply Hdk. rewrite Hj. simpl.
    apply elem_of_app in Hp as [Hp|Hp].
    + apply list_elem_of_bind in Hp as (e & Hp & (e0 & -> & He0)%list_elem_of_fmap).
      unfold wrap in Hp. case_decide; simpl in Hp.
      * apply elem_of_app in Hp as [Hp|Hp%list_elem_of_singleton].
        -- apply elem_of_app. left. apply list_elem_of_bind. eauto.
        -- subst p. apply elem_of_app. right. left.
      * apply elem_of_app. left. apply list_elem_of_bind. eauto.
    + apply elem_of_app. right. by right.
  - intros p Hlt Hnd. rewrite wrap_map_promise. auto.
Qed.


(** *** [clear] and the sweep *)

Lemma filter_filter_not_in {A} (f : Timer -> A) (x : A) (xs : list A)
    `{EqDecision A} (T : list Timer) :
  filter (fun tm => f tm ∉ xs) (filter (fun tm => f tm <> x) T)
  = filter (fun tm => f tm ∉ x :: xs) T.
Proof.
  rewrite list_filter_filter. apply list_filter_iff.
  intros tm. rewrite not_elem_of_cons. tauto.
Qed.

Lemma filter_all {A} (P : A -> Prop) `{!forall x, Decision (P x)} (l : list A) :
  (forall x, x ∈ l -> P x) -> filter P l = l.
Proof.
  induction l as [|x l IH]; intros Hall; [done|].
  rewrite filter_cons_True by (apply Hall; left).
  rewrite IH; [done|]. intros; apply Hall. by right.
Qed.

Lemma filter_none {A} (P : A -> Prop) `{!forall x, Decision (P x)} (l : list A) :
  (forall x, x ∈ l -> ~ P x) -> filter P l = [].
Proof.
  intros Hnone. apply elem_of_nil_inv. intros x [HP Hx]%list_elem_of_filter.
  by apply (Hnone x).
Qed.

Lemma clear_fold_fields (l : list (string * PendingRequest)) : forall t,
  let t' := foldl (fun t e =>
                     settle_request e.2 (Rejected clear_message)
                       (clearTimeout (timeout e.2) t)) t l in
  pendingRequests t' = pendingRequests t
  /\ timers t'
     = filter (fun tm => handle tm ∉ map (fun e => timeout e.2) l) (timers t)
  /\ settled t'
     = settled t
       ++ (l ≫= fun e => map (fun p => (p, Rejected clear_message))
                           (listeners e.2))
  /\ jobs t' = jobs t /\ duplicatePromises t' = duplicatePromises t
  /\ nextPromise t' = nextPromise t /\ nextTimer t' = nextTimer t
  /\ cleanupTimer t' = cleanupTimer t.
Proof.
  induction l as [|e l IH]; intros t; simpl.
  - rewrite app_nil_r. split; [done|]. split; [|done].
    symmetry. apply filter_all. intros; apply not_elem_of_nil.
  - destruct (IH (settle_request e.2 (Rejected clear_message)
                    (clearTimeout (timeout e.2) t)))
      as (H1 & H2 & H3 & H4 & H5 & H6 & H7 & H8).
    rewrite H1, H2, H3, H4, H5, H6, H7, H8, settle_request_eq. simpl.
    rewrite filter_filter_not_in, ?bind_cons, <- (assoc_L (++)). done.
Qed.

Lemma consistent_clear t : consistent t -> consistent (clear t).
Proof.
  intros Hc. unfold clear.
  destruct (clear_fold_fields (pendingRequests t) t)
    as (H1 & H2 & H3 & H4 & H5 & H6 & H7 & H8).
  apply (consistent_remove (fun _ => True)
           (fun e => map (fun p => (p, Rejected clear_message)) (listeners e.2))
           t); simpl; try done.
  - symmetry. apply filter_none. tauto.
  - rewrite H2. by rewrite (filter_all (fun _ => True)).
  - rewrite H3. by rewrite (filter_all (fun _ => True)).
  - intros e _ _. rewrite <- list_fmap_compose. simpl. split; [left|].
    by rewrite list_fmap_id.
Qed.

Lemma cleanup_fold_fields now maxAge (l : list (string * PendingRequest)) :
  forall t,
  let expired := filter (fun e => (maxAge < now - timestamp e.2)%Z) l in
  let t' := foldl (cleanupEntry now maxAge) t l in
  pendingRequests t'
  = filter (fun e => e.1 ∉ map fst expired) (pendingRequests t)
  /\ timers t'
     = filter (fun tm => handle tm ∉ map (fun e => timeout e.2) expired)
         (timers t)
  /\ settled t'
     = settled t
       ++ (expired ≫= fun e =>
             map (fun p => (p, Rejected (cleanup_message (eventType e.2) e.1)))
               (listeners e.2))
  /\ jobs t' = jobs t /\ duplicatePromises t' = duplicatePromises t
  /\ nextPromise t' = nextPromise t /\ nextTimer t' = nextTimer t
  /\ cleanupTimer t' = cleanupTimer t.
Proof.
  induction l as [|e l IH]; intros t; simpl.
  - rewrite app_nil_r. split; [|split]; [| |done];
      symmetry; apply filter_all; intros; apply not_elem_of_nil.
  - destruct (IH (cleanupEntry now maxAge t e))
      as (H1 & H2 & H3 & H4 & H5 & H6 & H7 & H8).
    rewrite H1, H2, H3, H4, H5, H6, H7, H8. clear H1 H2 H3 H4 H5 H6 H7 H8.
    unfold cleanupEntry. rewrite filter_cons.
    destruct (Z.ltb_spec maxAge (now - timestamp e.2)) as [Hlt|Hge].
    + rewrite decide_True by done. rewrite settle_request_eq. simpl.
      rewrite filter_filter_not_in, ?bind_cons, <- (assoc_L (++)).
      split; [|done].
      rewrite list_filter_filter. apply list_filter_iff.
      intros x. rewrite not_elem_of_cons. tauto.
    + rewrite decide_False by lia. done.
Qed.

(** The sweep on a tracker whose keys are unique, in terms of the entries it
    finds expired. *)
Lemma cleanupOldRequests_fields now t :
  NoDup (map fst (pendingRequests t)) ->
  let maxAge := (defaultTimeout config * 2)%Z in
  let expired := filter (fun e => (maxAge < now - timestamp e.2)%Z)
                   (pendingRequests t) in
  let t' := cleanupOldRequests config now t in
  pendingRequests t'
  = filter (fun e => ~ (maxAge < now - timestamp e.2)%Z) (pendingRequests t)
  /\ timers t'
     = filter (fun tm => handle tm ∉ map (fun e => timeout e.2) expired)
         (timers t)
  /\ settled t'
     = settled t
       ++ (expired ≫= fun e =>
             map (fun p => (p, Rejected (cleanup_message (eventType e.2) e.1)))
               (listeners e.2))
  /\ jobs t' = jobs t /\ duplicatePromises t' = duplicatePromises t
  /\ nextPromise t' = nextPromise t /\ nextTimer t' = nextTimer t
  /\ cleanupTimer t' = cleanupTimer t.
Proof.
  intros Hk. simpl. unfold cleanupOldRequests.
  destruct (cleanup_fold_fields now (defaultTimeout config * 2)
              (pendingRequests t) t) as (H1 & H2 & H3 & H4).
  split; [|done]. rewrite H1. apply filter_ext_in.
  intros e He. split.
  - intros Hn Hexp. apply Hn.
    apply (list_elem_of_fmap_2 fst). by apply list_elem_of_filter.
  - intros Hn (e' & Heq & [Hexp He']%list_elem_of_filter)%list_elem_of_fmap.
    apply Hn. by rewrite (NoDup_fst_inj _ e e' Hk He He' Heq).
Qed.

Lemma consistent_cleanupOldRequests now t :
  consistent t -> consistent (cleanupOldRequests config now t).
Proof.
  intros Hc.
  destruct (cleanupOldRequests_fields now t (keys_unique _ Hc))
    as (H1 & H2 & H3 & H4 & H5 & H6 & H7 & H8).
  apply (consistent_remove
           (fun e => (defaultTimeout config * 2 < now - timestamp e.2)%Z)
           (fun e => map (fun p => (p, Rejected (cleanup_message (eventType e.2) e.1)))
                       (listeners e.2))
           t); try done.
  intros e _ _. rewrite <- list_fmap_compose. simpl. split; [left|].
  by rewrite list_fmap_id.
Qed.

(** *** Every reachable tracker is consistent *)

Lemma consistent_init : consistent init.
Proof.
  split; simpl;
    first [ by apply NoDup_nil
          | by intros ? ?%elem_of_nil
          | intros; lia ].
Qed.

Lemma consistent_set_cleanupTimer b t :
  consistent t -> consistent (set_cleanupTimer b t).
Proof. intros [? ? ? ? ? ? ? ? ?]. by split. Qed.

Lemma consistent_step t (ev : Event) :
  consistent t -> consistent (step config t ev).
Proof.
  intros Hc. destruct ev as [eid ety tmo now|eid ack|eid| | |h|now| ].
  - by apply consistent_trackRequest.
  - by apply consistent_matchAck.
  - by apply consistent_cancelRequest.
  - by apply consistent_clear.
  - by apply consistent_clear, consistent_set_cleanupTimer.
  - by apply consistent_timerFired.
  - simpl. case_match; [by apply consistent_cleanupOldRequests|done].
  - simpl. destruct (jobs t) as [|j rest] eqn:Hj; [done|].
    by apply consistent_runJob.
Qed.

Lemma consistent_run es : forall t,
  consistent t -> consistent (run config es t).
Proof.
  induction es as [|ev es IH]; intros t Hc; simpl; [done|].
  by apply IH, consistent_step.
Qed.


(** *** What the tracker settles promises with *)

Lemma outcomes_map (f : nat -> nat * Settlement) o (ps : list nat) :
  (forall p, (f p).2 = o) -> tracker_outcome o ->
  Forall (fun s => tracker_outcome s.2) (map f ps).
Proof.
  intros Hf Ho. apply Forall_fmap, Forall_forall. intros p _. simpl.
  by rewrite Hf.
Qed.

Lemma enforceLimit_settled t :
  exists S, settled (enforceLimit config t) = settled t ++ S
            /\ Forall (fun s => tracker_outcome s.2) S.
Proof.
  unfold enforceLimit. repeat case_match;
    try (exists []; by rewrite app_nil_r).
  rewrite settle_request_eq. eexists. split; [done|].
  apply (outcomes_map _ (Rejected limit_message)); [done|].
  do 4 right. by left.
Qed.

Lemma step_settled t (ev : Event) :
  exists S, settled (step config t ev) = settled t ++ S
            /\ Forall (fun s => tracker_outcome s.2) S.
Proof.
  destruct ev as [eid ety tmo now|eid ack|eid| | |h|now| ]; simpl.
  - unfold trackRequest. destruct (get eid t) eqn:Hg; simpl.
    + exists []. by rewrite app_nil_r.
    + unfold set. case_match; simpl; apply enforceLimit_settled.
  - unfold matchAck. destruct (get eid t) as [r|]; simpl.
    + rewrite settle_request_eq. eexists. split; [done|].
      apply (outcomes_map _ (Resolved ack)); [done|]. left. eauto.
    + exists []. by rewrite app_nil_r.
  - unfold cancelRequest. destruct (get eid t) as [r|]; simpl.
    + rewrite settle_request_eq. eexists. split; [done|].
      apply (outcomes_map _ (Rejected cancel_message)); [done|].
      do 2 right. by left.
    + exists []. by rewrite app_nil_r.
  - destruct (clear_fold_fields (pendingRequests t) t) as (_ & _ & H3 & _).
    unfold clear. simpl. rewrite H3. eexists. split; [done|].
    apply Forall_bind, Forall_forall. intros e _.
    apply (outcomes_map _ (Rejected clear_message)); [done|].
    do 3 right. by left.
  - destruct (clear_fold_fields (pendingRequests t) (set_cleanupTimer false t))
      as (_ & _ & H3 & _).
    change (settled (set_cleanupTimer false t)) with (settled t) in H3.
    unfold destroy, clear.
    change (pendingRequests (set_cleanupTimer false t))
      with (pendingRequests t).
    cbn [settled set_pendingRequests].
    rewrite H3. eexists. split; [done|].
    apply Forall_bind, Forall_forall. intros e _.
    apply (outcomes_map _ (Rejected clear_message)); [done|].
    do 3 right. by left.
  - destruct (head _) as [tm|]; [|exists []; by rewrite app_nil_r].
    unfold timeoutCallback, handleTimeout.
    change (get (t_eventId tm) (clearTimeout h t)) with (get (t_eventId tm) t).
    destruct (get (t_eventId tm) t); simpl.
    + eexists. split; [done|]. apply Forall_singleton. simpl.
      right. left. eauto.
    + exists []. by rewrite app_nil_r.
  - destruct (cleanupTimer t); [|exists []; by rewrite app_nil_r].
    destruct (cleanup_fold_fields now (defaultTimeout config * 2)
                (pendingRequests t) t) as (_ & _ & H3 & _).
    unfold cleanupOldRequests. rewrite H3. eexists. split; [done|].
    apply Forall_bind, Forall_forall. intros e _.
    apply (outcomes_map _ (Rejected (cleanup_message (eventType e.2) e.1)));
      [done|].
    do 5 right. eauto.
  - destruct (jobs t); simpl; exists []; by rewrite app_nil_r.
Qed.

Lemma run_settled es : forall t,
  Forall (fun s => tracker_outcome s.2) (settled t) ->
  Forall (fun s => tracker_outcome s.2) (settled (run config es t)).
Proof.
  induction es as [|ev es IH]; intros t Ht; simpl; [done|].
  apply IH. destruct (step_settled t ev) as (S & -> & HS).
  by apply Forall_app.
Qed.

(** A pending request has an armed timer, and its firing rejects the
    request's promise with the timeout error. *)
Lemma pending_timer_settles t e :
  consistent t -> e ∈ pendingRequests t ->
  exists tm, tm ∈ timers t /\ handle tm = timeout e.2
    /\ settled (step config t (TimerFired (handle tm)))
       = settled t
         ++ [(promise e.2,
              Rejected (timeout_message (t_eventType tm) (t_eventId tm)))].
Proof.
  intros Hc He.
  destruct (request_has_timer _ Hc e He) as (tm0 & Htm0 & Hh0 & _).
  destruct (head (filter (fun tm => handle tm = timeout e.2) (timers t)))
    as [tm|] eqn:Hhead.
  2:{ apply head_None in Hhead.
      exfalso. eapply (filter_nil_not_elem_of _ _ tm0); eauto. }
  pose proof Hhead as [Htm Hh]%head_filter_Some.
  destruct (timer_has_request _ Hc tm Htm) as (r & Hg & Hto & Hpr).
  exists tm. split; [done|]. split; [done|].
  simpl. rewrite Hh, Hhead.
  destruct (timeoutCallback_fields tm r t Hg Hto) as (_ & _ & H3 & _).
  rewrite <- Hh at 1. rewrite H3. repeat f_equal.
  rewrite <- Hpr.
  assert ((t_eventId tm, r) = e) as <-; [|done].
  pose proof (get_Some_elem _ _ _ Hg) as Hin.
  pose proof (handles_unique _ Hc) as Hu.
  apply list_elem_of_split in He as (l1 & l2 & Hl).
  rewrite Hl in Hu, Hin. rewrite fmap_app, fmap_cons in Hu.
  apply NoDup_app in Hu as (_ & Hd1 & Hd2).
  apply NoDup_cons in Hd2 as [Hd2 _].
  apply elem_of_app in Hin as [Hin|Hin].
  - exfalso. apply (Hd1 (timeout r)).
    + by apply (list_elem_of_fmap_2 (fun e => timeout e.2) _ (t_eventId tm, r)).
    + rewrite Hto, Hh. left.
  - apply elem_of_cons in Hin as [->|Hin]; [done|].
    exfalso. apply Hd2. rewrite <- Hh, <- Hto.
    by apply (list_elem_of_fmap_2 (fun e => timeout e.2) _ (t_eventId tm, r)).
Qed.

(** C3 (as amended). In every reachable state of the tracker: no promise
    has been settled twice; every settlement is a resolution with the
    acknowledgment passed to [matchAck], or a rejection by the request's
    timeout, by cancel, by clear, by the capacity limit, or by the periodic
    sweep; every promise returned for an event id that was not already
    tracked is either settled, or still pending with an armed timer whose
    firing rejects it with the timeout error; and the promise of
    [sendMessagePackWithAck] ends with one of these outcomes or with the
    error of a failed send. *)
Theorem settles_once es :
  let t := run config es init in
  NoDup (map fst (settled t))
  /\ (forall p o, (p, o) ∈ settled t -> tracker_outcome o)
  /\ (forall p, p < nextPromise t -> p ∉ duplicatePromises t ->
        (p ∈ map fst (settled t)
         /\ p ∉ map (fun e => promise e.2) (pendingRequests t))
        \/ ((p ∉ map fst (settled t))
            /\ (exists tm, tm ∈ timers t
                  /\ settled (step config t (TimerFired (handle tm)))
                     = settled t
                       ++ [(p, Rejected (timeout_message (t_eventType tm)
                                           (t_eventId tm)))])))
  /\ (forall sent p o,
        sendMessagePackWithAck_outcome sent p t = Some o ->
        tracker_outcome o
        \/ exists error, sent = Some (Some error) /\ o = Rejected error).
Proof.
  intros t.
  assert (Hc : consistent t) by apply consistent_run, consistent_init.
  assert (Ho : Forall (fun s => tracker_outcome s.2) (settled t)).
  { apply run_settled. simpl. constructor. }
  pose proof (promises_unique _ Hc) as Hu.
  unfold promises, pending_promises in Hu.
  apply NoDup_app in Hu as (_ & Hdisj & Hnd).
  assert (Hpend : forall e, e ∈ pendingRequests t ->
            promise e.2 ∉ map fst (settled t)).
  { intros e He. apply Hdisj, elem_of_app. left.
    apply list_elem_of_bind. exists e. split; [left|done]. }
  split; [done|]. split; [|split].
  - intros p o Hin. rewrite Forall_forall in Ho. apply (Ho (p, o) Hin).
  - intros p Hlt Hdup.
    destruct (originals_tracked _ Hc p Hlt Hdup) as [Hp|Hp].
    + right. apply list_elem_of_fmap in Hp as (e & -> & He).
      split; [by apply Hpend|].
      destruct (pending_timer_settles t e Hc He) as (tm & ? & ? & ?).
      eauto.
    + left. split; [done|].
      intros (e & -> & He)%list_elem_of_fmap. by apply (Hpend e).
  - intros sent p o. unfold sendMessagePackWithAck_outcome.
    destruct sent as [[error|]|]; [| |done].
    + intros [= <-]. right. eauto.
    + intros Hl%lookup_first_Some_elem. left.
      rewrite Forall_forall in Ho. apply (Ho (p, o) Hl).
Qed.


(** *** Capacity *)

Lemma length_delete k t :
  length (pendingRequests (delete k t)) <= length (pendingRequests t).
Proof. simpl. apply length_filter. Qed.

Lemma length_remove_key (l : list (string * PendingRequest)) k r :
  NoDup (map fst l) -> (k, r) ∈ l ->
  S (length (filter (fun e => e.1 <> k) l)) = length l.
Proof.
  intros Hnd Hin.
  rewrite <- (Permutation_length (filter_app_complement (fun e => e.1 = k) l)).
  rewrite length_app, (filter_key _ _ _ Hnd Hin). simpl. done.
Qed.

Lemma step_length t (ev : Event) :
  0 < maxPendingRequests config ->
  consistent t ->
  length (pendingRequests t) <= maxPendingRequests config ->
  length (pendingRequests (step config t ev)) <= maxPendingRequests config.
Proof.
  intros Hpos Hc Hle.
  destruct ev as [eid ety tmo now|eid ack|eid| | |h|now| ]; simpl.
  - destruct (get eid t) as [r|] eqn:Hg.
    + unfold trackRequest. rewrite Hg. done.
    + rewrite (trackRequest_new _ _ _ _ _ Hg). simpl.
      rewrite length_app. simpl.
      destruct (decide (maxPendingRequests config <= length (pendingRequests t)))
        as [Hfull|Hlt]; [|rewrite enforceLimit_idle; lia].
      destruct (sort_by_timestamp_head_nonempty (pendingRequests t))
        as [[k r] Hh].
      { intros Hnil. rewrite Hnil in Hfull. simpl in Hfull. lia. }
      rewrite (enforceLimit_evicts _ _ Hfull Hh). simpl.
      apply sort_by_timestamp_head in Hh as [Hin _].
      pose proof (length_remove_key _ _ _ (keys_unique _ Hc) Hin). lia.
  - unfold matchAck. destruct (get eid t); simpl; [|done].
    rewrite settle_request_eq. simpl.
    etrans; [apply length_filter|done].
  - unfold cancelRequest. destruct (get eid t); simpl; [|done].
    etrans; [apply length_filter|]. by rewrite settle_request_eq.
  - lia.
  - lia.
  - destruct (head _) as [tm|]; [|done].
    unfold timeoutCallback, handleTimeout.
    change (get (t_eventId tm) (clearTimeout h t)) with (get (t_eventId tm) t).
    destruct (get (t_eventId tm) t); simpl; [|done].
    etrans; [apply length_filter|done].
  - destruct (cleanupTimer t); [|done].
    destruct (cleanup_fold_fields now (defaultTimeout config * 2)
                (pendingRequests t) t) as (H1 & _).
    unfold cleanupOldRequests. rewrite H1.
    etrans; [apply length_filter|done].
  - destruct (jobs t); simpl; [done|]. by rewrite length_fmap.
Qed.

Lemma run_length es : forall t,
  0 < maxPendingRequests config ->
  consistent t ->
  length (pendingRequests t) <= maxPendingRequests config ->
  length (pendingRequests (run config es t)) <= maxPendingRequests config.
Proof.
  induction es as [|ev es IH]; intros t Hpos Hc Hle; simpl; [done|].
  apply IH; [done|by apply consistent_step|by apply step_length].
Qed.

(** C4 (as amended). With a positive configured capacity, the number of
    pending entries never exceeds it, before and after any call of
    [trackRequest]. A call for an event id that is already pending inserts
    and evicts nothing and settles no promise. A call for a new event id
    below the capacity appends the new entry and settles no promise. A call
    for a new event id at the capacity evicts the entry that the sort by
    timestamp puts first, one with the smallest timestamp: its promises
    are rejected with the tracker-limit error, it leaves the map, and the
    new entry is appended, so that the size stays at the capacity. *)
Theorem capacity_bound es eid ety tmo now :
  0 < maxPendingRequests config ->
  let t := run config es init in
  let t' := (trackRequest config eid ety tmo now t).2 in
  let entry := (eid, {| eventId := eid; eventType := ety; timestamp := now;
                        promise := nextPromise t; duplicates := [];
                        timeout := nextTimer t |}) in
  length (pendingRequests t) <= maxPendingRequests config
  /\ length (pendingRequests t') <= maxPendingRequests config
  /\ match get eid t with
     | Some _ =>
         pendingRequests t' = pendingRequests t /\ settled t' = settled t
     | None =>
         if decide (length (pendingRequests t) < maxPendingRequests config)
         then
           pendingRequests t' = pendingRequests t ++ [entry]
           /\ settled t' = settled t
         else
           exists oldest,
             head (sort_by_timestamp (pendingRequests t)) = Some oldest
             /\ oldest ∈ pendingRequests t
             /\ (forall e, e ∈ pendingRequests t ->
                   (timestamp oldest.2 <= timestamp e.2)%Z)
             /\ settled t'
                = settled t
                  ++ map (fun p => (p, Rejected limit_message))
                       (listeners oldest.2)
             /\ pendingRequests t'
                = filter (fun e => e.1 <> oldest.1) (pendingRequests t)
                  ++ [entry]
             /\ get oldest.1 t' = None
             /\ length (pendingRequests t') = maxPendingRequests config
     end.
Proof.
  intros Hpos t t' entry.
  assert (Hc : consistent t) by apply consistent_run, consistent_init.
  assert (Hle : length (pendingRequests t) <= maxPendingRequests config).
  { apply run_length; [done|apply consistent_init|simpl; lia]. }
  split; [done|]. split.
  { subst t'. by apply (step_length t (Track eid ety tmo now)). }
  destruct (get eid t) as [r|] eqn:Hg.
  { subst t'. unfold trackRequest. by rewrite Hg. }
  subst t'. rewrite (trackRequest_new _ _ _ _ _ Hg).
  case_decide as Hlt.
  { rewrite (enforceLimit_idle _ Hlt). done. }
  assert (Hfull : maxPendingRequests config <= length (pendingRequests t))
    by lia.
  destruct (sort_by_timestamp_head_nonempty (pendingRequests t))
    as [oldest Hh].
  { intros Hnil. rewrite Hnil in Hfull. simpl in Hfull. lia. }
  exists oldest.
  pose proof (sort_by_timestamp_head _ _ Hh) as [Hin Hmin].
  split; [done|]. split; [done|]. split; [done|].
  rewrite (enforceLimit_evicts _ _ Hfull Hh). simpl.
  split; [done|]. split; [done|]. split.
  - unfold get. simpl. rewrite lookup_first_app_new, lookup_first_filter_eq.
    rewrite decide_False; [done|].
    intros ->. apply get_None_keys in Hg. apply Hg.
    by apply (list_elem_of_fmap_2 fst).
  - rewrite length_app. simpl.
    destruct oldest as [k r].
    pose proof (length_remove_key _ _ _ (keys_unique _ Hc) Hin).
    simpl. lia.
Qed.

(** What the sweep does: a run at time [now] on a reachable tracker
    rejects, with the cleanup error, and removes the pending entries whose
    age exceeds twice the default timeout of the tracker, and no other; the
    timeout an entry was tracked with plays no part. *)
Lemma sweep_by_default_timeout es now :
  let t := run config es init in
  let t' := cleanupOldRequests config now t in
  pendingRequests t'
  = filter (fun e => ~ (defaultTimeout config * 2 < now - timestamp e.2)%Z)
      (pendingRequests t)
  /\ settled t'
     = settled t
       ++ (filter (fun e => (defaultTimeout config * 2 < now - timestamp e.2)%Z)
             (pendingRequests t)
           ≫= fun e =>
                map (fun p =>
                       (p, Rejected (cleanup_message (eventType e.2) e.1)))
                  (listeners e.2))
  /\ step config t (Sweep now) = (if cleanupTimer t then t' else t).
Proof.
  intros t t'.
  assert (Hc : consistent t) by apply consistent_run, consistent_init.
  destruct (cleanupOldRequests_fields now t (keys_unique _ Hc))
    as (H1 & _ & H3 & _).
  done.
Qed.

End TrackerFacts.

(** C3, as stated, fails: a request tracked with a timeout of 100 s is
    rejected by the sweep after 60.001 s, with the cleanup error, which is
    none of the five listed outcomes. *)
Lemma settles_once_counterexample :
  let t := Tracker.run Tracker.defaultConfig
             (slow_request ++ [Tracker.Sweep 60001%Z]) Tracker.init in
  Tracker.settled t = [(0, Tracker.Rejected
                        "Request cleanup: voicechat.audio.start (e1)")]
  /\ ~ Tracker.spec_outcome
        (Tracker.Rejected "Request cleanup: voicechat.audio.start (e1)").
Proof.
  split; [vm_compute; reflexivity|].
  unfold Tracker.spec_outcome, Tracker.timeout_message.
  intros [[ack H]|[(ety & eid & H)|[H|[H|H]]]]; simpl in H; discriminate H.
Qed.

(** C9. The sweep at work on a request tracked with a timeout of 100 s:
    60.001 s after it was sent, younger than its own timeout and than
    twice its own timeout, the request is rejected with the cleanup error
    and removed, against the documentation of [cleanupOldRequests]
    (requests that have exceeded their timeout). *)
Lemma sweep_ignores_own_timeout :
  let t := Tracker.run Tracker.defaultConfig slow_request Tracker.init in
  let t' := Tracker.cleanupOldRequests Tracker.defaultConfig 60001%Z t in
  exists r,
    Tracker.get "e1" t = Some r
    /\ Tracker.own_timeout r t = Some 100000%Z
    /\ (60001 - Tracker.timestamp r <= 100000)%Z
    /\ (60001 - Tracker.timestamp r <= 2 * 100000)%Z
    /\ Tracker.get "e1" t' = None
    /\ Tracker.settled t'
       = [(Tracker.promise r,
           Tracker.Rejected "Request cleanup: voicechat.audio.start (e1)")].
Proof. eexists. vm_compute. repeat split; done. Qed.

(** C4, as stated, fails: a call for an event id that is pending arrives
    while the tracker is at capacity; no entry is evicted and no promise is
    rejected. *)
Lemma capacity_bound_counterexample :
  let t := Tracker.run small_config two_requests Tracker.init in
  let t' := (Tracker.trackRequest small_config "e1" "voicechat.audio.start"
               None 20%Z t).2 in
  length (Tracker.pendingRequests t) = Tracker.maxPendingRequests small_config
  /\ map fst (Tracker.pendingRequests t') = ["e1"; "e2"]
  /\ Tracker.pendingRequests t' = Tracker.pendingRequests t
  /\ Tracker.settled t' = [].
Proof. vm_compute. repeat split. Qed.

(** A third request arrives at a tracker of capacity 2 that holds two: the
    older one, ["e2"], is evicted and rejected, and ["e3"] is inserted. *)
Lemma capacity_bound_witness :
  let t := Tracker.run small_config two_requests Tracker.init in
  let t' := (Tracker.trackRequest small_config "e3" "voicechat.audio.chunk"
               None 20%Z t).2 in
  let entry :=
    ("e3", {| Tracker.eventId := "e3";
              Tracker.eventType := "voicechat.audio.chunk";
              Tracker.timestamp := 20; Tracker.promise := 2;
              Tracker.duplicates := []; Tracker.timeout := 2 |}) in
  length (Tracker.pendingRequests t) <= 2
  /\ length (Tracker.pendingRequests t') <= 2
  /\ exists oldest,
       head (Tracker.sort_by_timestamp (Tracker.pendingRequests t))
       = Some oldest
       /\ oldest ∈ Tracker.pendingRequests t
       /\ (forall e, e ∈ Tracker.pendingRequests t ->
             (Tracker.timestamp oldest.2 <= Tracker.timestamp e.2)%Z)
       /\ Tracker.settled t'
          = Tracker.settled t
            ++ map (fun p => (p, Tracker.Rejected Tracker.limit_message))
                 (Tracker.listeners oldest.2)
       /\ Tracker.pendingRequests t'
          = filter (fun e => e.1 <> oldest.1) (Tracker.pendingRequests t)
            ++ [entry]
       /\ Tracker.get oldest.1 t' = None
       /\ length (Tracker.pendingRequests t') = 2.
Proof.
  assert (Hpos : 0 < Tracker.maxPendingRequests small_config)
    by (simpl; lia).
  exact (capacity_bound small_config two_requests "e3"
           "voicechat.audio.chunk" None 20%Z Hpos).
Defined.

(** ** PCM conversions: the Int16 round trip *)

Section PcmFacts.

Import Pcm.
Local Open Scope Z_scope.

Lemma iter_pos_Pos_iter {A} (f : A -> A) p : forall x,
  iter_pos f p x = Pos.iter f x p.
Proof.
  induction p as [p IH|p IH|]; intros x; simpl; [|by rewrite !IH|done].
  by rewrite !IH, !Pos.iter_swap.
Qed.

Lemma shl_0 m : shl m 0 = m.
Proof. done. Qed.

Lemma digits_iter_xO m p :
  Zpos (digits2_pos (Pos.iter xO m p)) = Zpos (digits2_pos m) + Zpos p.
Proof.
  induction p as [|p IH] using Pos.peano_ind.
  - simpl. lia.
  - rewrite Pos.iter_succ. simpl. lia.
Qed.

Lemma digits_shl m k :
  0 <= k -> Zpos (digits2_pos (shl m k)) = Zpos (digits2_pos m) + k.
Proof.
  intros Hk. destruct k as [|p|p]; simpl; [lia| |lia].
  apply digits_iter_xO.
Qed.

Lemma shl_shl m j k : 0 <= j -> 0 <= k -> shl (shl m j) k = shl m (j + k).
Proof.
  intros Hj Hk. destruct j as [|p|p]; [done| |lia].
  destruct k as [|q|q]; [done| |lia]. simpl.
  by rewrite (Pos.add_comm p q), Pos.iter_add.
Qed.

Lemma shr_iter_xO m p :
  Pos.iter shr_1
    {| shr_m := Zpos (Pos.iter xO m p); shr_r := false; shr_s := false |} p
  = {| shr_m := Zpos m; shr_r := false; shr_s := false |}.
Proof.
  induction p as [|p IH] using Pos.peano_ind; [done|].
  rewrite !Pos.iter_succ, <- Pos.iter_swap. simpl.
  exact IH.
Qed.

(** Rounding an exact value whose mantissa is a canonical mantissa shifted
    left by [k] bits only undoes the shift. *)
Lemma binary_round_aux_exact prec emax s m k e :
  Zpos (digits2_pos m) = prec -> 0 <= k ->
  3 - emax - prec <= e + k -> e + k <= emax - prec ->
  binary_round_aux prec emax s (Zpos (shl m k)) e loc_Exact
  = S754_finite s m (e + k).
Proof.
  intros Hd Hk Hmin Hmax.
  unfold binary_round_aux, shr_fexp, fexp, emin. simpl Zdigits2.
  rewrite (digits_shl _ _ Hk), Hd.
  replace (Z.sub (Z.max (Z.sub (Z.add (prec + k) e) prec)
                        (Z.sub (Z.sub 3 emax) prec)) e) with k by lia.
  assert (Hshr : shr (shr_record_of_loc (Zpos (shl m k)) loc_Exact) e k
                 = ({| shr_m := Zpos m; shr_r := false; shr_s := false |},
                    e + k)).
  { destruct k as [|p|p]; [|simpl|lia].
    - simpl. f_equal. lia.
    - by rewrite iter_pos_Pos_iter, shr_iter_xO. }
  rewrite Hshr. simpl. rewrite Hd.
  replace (Z.sub (Z.max (Z.sub (Z.add prec (e + k)) prec)
                        (Z.sub (Z.sub 3 emax) prec)) (e + k)) with 0 by lia.
  simpl. apply Z.leb_le in Hmax. by rewrite Hmax.
Qed.


Lemma binary_round_shifted prec emax s m k e :
  Zpos (digits2_pos m) = prec -> 0 <= k ->
  3 - emax - prec <= e + k -> e + k <= emax - prec ->
  binary_round prec emax s (shl m k) e = S754_finite s m (e + k).
Proof.
  intros Hd Hk Hmin Hmax. unfold binary_round, fexp, emin.
  rewrite (digits_shl _ _ Hk), Hd.
  replace (Z.max (Z.sub (Z.add (prec + k) e) prec)
                 (Z.sub (Z.sub 3 emax) prec)) with (e + k) by lia.
  unfold shl_align.
  destruct (Z.sub (e + k) e) as [|p|p] eqn:E; [| |lia];
    by apply binary_round_aux_exact.
Qed.

Lemma binary_round_small prec emax s m e :
  let d := Zpos (digits2_pos m) in
  d <= prec ->
  3 - emax - prec <= d + e - prec -> d + e - prec <= emax - prec ->
  binary_round prec emax s m e
  = S754_finite s (shl m (prec - d)) (e - (prec - d)).
Proof.
  intros d Hd Hmin Hmax. unfold binary_round, fexp, emin. fold d.
  replace (Z.max (Z.sub (Z.add d e) prec) (Z.sub (Z.sub 3 emax) prec))
    with (d + e - prec) by lia.
  unfold shl_align.
  destruct (Z.sub (d + e - prec) e) as [|p|p] eqn:E.
  - replace (prec - d) with 0 by lia. simpl.
    rewrite <- (shl_0 m) at 1.
    rewrite binary_round_aux_exact; [f_equal; lia|fold d; lia|lia..].
  - lia.
  - replace (prec - d) with (Zpos p) by lia.
    change (Pos.iter xO m p) with (shl m (Zpos p)).
    rewrite <- (shl_0 (shl m (Zpos p))).
    rewrite binary_round_aux_exact; [f_equal; lia| |lia..].
    rewrite digits_shl by lia. fold d. lia.
Qed.

Lemma shl_value m k : 0 <= k -> Zpos (shl m k) = Zpos m * 2 ^ k.
Proof.
  intros Hk. destruct k as [|p|p]; [simpl; lia| |lia]. simpl shl. clear Hk.
  induction p as [|p IH] using Pos.peano_ind.
  - simpl. lia.
  - rewrite Pos.iter_succ, Pos2Z.inj_xO, IH, Pos2Z.inj_succ.
    rewrite Z.pow_succ_r by lia. lia.
Qed.

Lemma digits_lower a : 2 ^ (Zpos (digits2_pos a) - 1) <= Zpos a.
Proof.
  induction a as [a IH|a IH|]; simpl digits2_pos; [| |simpl; lia].
  - rewrite Pos2Z.inj_succ.
    replace (Z.succ (Zpos (digits2_pos a)) - 1)
      with (Z.succ (Zpos (digits2_pos a) - 1)) by lia.
    rewrite Z.pow_succ_r by lia. lia.
  - rewrite Pos2Z.inj_succ.
    replace (Z.succ (Zpos (digits2_pos a)) - 1)
      with (Z.succ (Zpos (digits2_pos a) - 1)) by lia.
    rewrite Z.pow_succ_r by lia. lia.
Qed.

Lemma digits_bound a n :
  0 <= n -> Zpos a < 2 ^ n -> Zpos (digits2_pos a) <= n.
Proof.
  intros Hn Ha. pose proof (digits_lower a) as Hl.
  destruct (Z.le_gt_cases (Zpos (digits2_pos a)) n) as [|Hgt]; [done|].
  assert (2 ^ n <= 2 ^ (Zpos (digits2_pos a) - 1))
    by (apply Z.pow_le_mono_r; lia).
  lia.
Qed.

(** The steps of the round trip on a non-zero sample [signed s a] whose
    magnitude has [d] bits. *)
Section Steps.

Variables (s : bool) (a : positive).
Let d := Zpos (digits2_pos a).
Hypothesis Hd : d <= 16.

Let x64 := S754_finite s (shl a (53 - d)) (d - 53).
Let q64 := S754_finite s (shl a (53 - d)) (d - 68).
Let q32 := S754_finite s (shl a (24 - d)) (d - 39).

Lemma digits_shl53 : Zpos (digits2_pos (shl a (53 - d))) = 53.
Proof. rewrite digits_shl by lia. fold d. lia. Qed.

Lemma of_int_signed : of_int (signed s a) = x64.
Proof.
  unfold of_int, binary_normalize, signed, x64.
  destruct s; rewrite binary_round_small; fold d;
    unfold prec64, emax64; try lia; f_equal; lia.
Qed.

Lemma div_32768 : SFdiv prec64 emax64 x64 f32768 = q64.
Proof.
  unfold x64, q64.
  change f32768 with (S754_finite false 4503599627370496 (-37)).
  unfold SFdiv, SFdiv_core_binary, fexp, emin, prec64, emax64.
  unfold Zdigits2. rewrite digits_shl53.
  change (digits2_pos 4503599627370496) with 53%positive.
  replace (Z.min (Z.max (Z.sub (Z.sub (Z.add 53 (d - 53)) (Z.add 53 (-37))) 53)
                        (Z.sub (Z.sub 3 1024) 53))
                 (Z.sub (d - 53) (-37))) with (d - 69) by lia.
  replace (Z.sub (Z.sub (d - 53) (-37)) (d - 69)) with 53 by lia.
  cbv iota beta.
  rewrite (surjective_pairing (Z.div_eucl _ _)).
  change (fst (Z.div_eucl ?x ?y)) with (x / y).
  change (snd (Z.div_eucl ?x ?y)) with (x mod y).
  rewrite Z.shiftl_mul_pow2 by lia.
  replace (Zpos (shl a (53 - d)) * 2 ^ 53)
    with (Zpos (shl (shl a (53 - d)) 1) * 4503599627370496)
    by (rewrite (shl_value _ 1) by lia; lia).
  rewrite Z.div_mul, Z.mod_mul by lia.
  change (new_location 4503599627370496 0) with loc_Exact.
  rewrite binary_round_aux_exact; [destruct s; f_equal; lia| |lia..].
  apply digits_shl53.
Qed.

Lemma mul_32768 : SFmul prec64 emax64 q64 f32768 = x64.
Proof.
  unfold x64, q64.
  change f32768 with (S754_finite false 4503599627370496 (-37)).
  unfold SFmul.
  replace (Pos.mul (shl a (53 - d)) 4503599627370496)
    with (shl (shl a (53 - d)) 52)
    by (rewrite Pos.mul_comm; reflexivity).
  unfold prec64, emax64.
  rewrite binary_round_aux_exact; [destruct s; f_equal; lia| |lia..].
  apply digits_shl53.
Qed.

Lemma fround_q64 : fround q64 = q32.
Proof.
  unfold fround, q64, q32, binary_normalize, signed.
  replace (shl a (53 - d)) with (shl (shl a (24 - d)) 29)
    by (rewrite shl_shl by lia; f_equal; lia).
  unfold prec32, emax32.
  destruct s; rewrite binary_round_shifted; try lia;
    try (f_equal; lia); rewrite digits_shl by lia; fold d; lia.
Qed.

Lemma to_double_q32 : to_double q32 = q64.
Proof.
  unfold to_double, q64, q32, binary_normalize, signed.
  unfold prec64, emax64.
  assert (Hdig : Zpos (digits2_pos (shl a (24 - d))) = 24)
    by (rewrite digits_shl by lia; fold d; lia).
  destruct s; rewrite binary_round_small; rewrite ?Hdig; try lia;
    (f_equal; [rewrite shl_shl by lia; f_equal; lia|lia]).
Qed.

Lemma round_x64 : Math_round x64 = Some (signed s a).
Proof.
  unfold Math_round, x64.
  destruct (Z.leb_spec 0 (d - 53)) as [|_]; [lia|]. f_equal.
  assert (Hv : signed s (shl a (53 - d)) = signed s a * 2 ^ (53 - d)).
  { unfold signed. destruct s.
    - rewrite <- !Pos2Z.opp_pos, shl_value by lia. lia.
    - apply shl_value. lia. }
  rewrite Hv.
  replace (- (d - 53)) with (53 - d) by lia.
  replace (53 - d + 1) with (Z.succ (53 - d)) by lia.
  rewrite Z.pow_succ_r by lia.
  assert (Hp : 0 < 2 ^ (53 - d)) by (apply Z.pow_pos_nonneg; lia).
  replace (2 * (signed s a * 2 ^ (53 - d)) + 2 ^ (53 - d))
    with ((2 * signed s a + 1) * 2 ^ (53 - d)) by lia.
  rewrite Z.div_mul_cancel_r by lia.
  symmetry. apply Z.div_unique with (r := 1); lia.
Qed.

(** The clamps leave a value of magnitude at most 1 alone. *)
Lemma clamp_q64 :
  (if s then Zpos a <= 32768 else Zpos a <= 32767) ->
  Math_max fm1 (Math_min f1 q64) = q64.
Proof.
  intros Hrange.
  change f1 with (S754_finite false 4503599627370496 (-52)).
  change fm1 with (S754_finite true 4503599627370496 (-52)).
  unfold q64. pose proof (digits_lower a) as Hl. fold d in Hl.
  destruct s.
  - (* negative: below 1, and at least -1 *)
    unfold Math_min, Math_max. cbn [SFcompare is_nan orb].
    destruct (Z.compare_spec (-52) (d - 68)) as [Heq|Hlt|Hgt]; [|lia|done].
    assert (d = 16) as Hd16 by lia.
    assert (Zpos a = 32768) as Ha.
    { rewrite Hd16 in Hl. simpl in Hl. lia. }
    injection Ha as Ha. rewrite Hd16.
    replace (shl a (53 - 16)) with 4503599627370496%positive
      by (rewrite Ha; reflexivity).
    reflexivity.
  - (* positive: above -1, and below 1 *)
    assert (d <= 15).
    { apply digits_bound; [lia|]. simpl. lia. }
    unfold Math_min, Math_max. cbn [SFcompare is_nan orb].
    destruct (Z.compare_spec (-52) (d - 68)) as [Heq|Hlt|Hgt]; [lia|lia|done].
Qed.

End Steps.

Lemma wrap16_id v : -32768 <= v <= 32767 -> wrap16 v = v.
Proof. intros Hv. unfold wrap16. rewrite Z.mod_small; lia. Qed.

Lemma roundtrip_nonzero (s : bool) (a : positive) :
  (if s then Zpos a <= 32768 else Zpos a <= 32767) ->
  to_pcm (normalize (signed s a)) = signed s a.
Proof.
  intros Hrange.
  assert (Hd : Zpos (digits2_pos a) <= 16).
  { apply digits_bound; [lia|]. simpl. destruct s; lia. }
  unfold normalize, to_pcm.
  rewrite (of_int_signed s a Hd), (div_32768 s a Hd).
  rewrite (clamp_q64 s a Hd Hrange), (fround_q64 s a Hd).
  rewrite (to_double_q32 s a Hd), (clamp_q64 s a Hd Hrange).
  rewrite (mul_32768 s a Hd), (round_x64 s a Hd). simpl ToInt16.
  assert (-32768 <= signed s a <= 32767) by (unfold signed; destruct s; lia).
  rewrite (wrap16_id (signed s a)) by done.
  rewrite Z.min_r, Z.max_r by lia. by apply wrap16_id.
Qed.

(** C10. For every 16-bit signed sample [v], the playback normalization
    (divide by 32768.0, clamp to [-1, 1], store as Float32) followed by the
    capture conversion (clamp to [-1, 1], multiply by 32768.0, round, store
    as Int16, clamp to the Int16 range) gives [v] back. *)
Theorem pcm_roundtrip v :
  -32768 <= v <= 32767 -> to_pcm (normalize v) = v.
Proof.
  intros Hv. destruct v as [|a|a].
  - by vm_compute.
  - apply (roundtrip_nonzero false a). lia.
  - apply (roundtrip_nonzero true a). lia.
Qed.

End PcmFacts.

Lemma pcm_roundtrip_witness :
  Pcm.to_pcm (Pcm.normalize (-12345)) = (-12345)%Z.
Proof. apply pcm_roundtrip. lia. Defined.

(** ** The playback sequencer *)

Section PlaybackFacts.
Import Playback.
Implicit Types (p : AudioPlayback) (c : QueuedChunk) (q : list QueuedChunk).

Lemma nextChunk_sub cur q o q' :
  nextChunk cur q = (o, q') ->
  (forall c, o = Some c -> c ∈ q) /\ q' ⊆ q.
Proof.
  revert o q'. induction q as [|x q IH]; intros o q'; simpl.
  - intros [= <- <-]. split; [discriminate | done].
  - destruct (String.eqb _ _).
    + intros [= <- <-]. split.
      * intros c [= ->]. left.
      * set_solver.
    + intros Hn. destruct (IH _ _ Hn) as [H1 H2]. split.
      * intros c Hc. right. by apply H1.
      * set_solver.
Qed.

Lemma insertChunk_perm c q : insertChunk c q ≡ₚ c :: q.
Proof.
  induction q as [|x q IH]; simpl; [done|].
  destruct (compareChunks c x); try done.
  rewrite IH. apply Permutation_swap.
Qed.

Lemma sortQueue_perm q : sortQueue q ≡ₚ q.
Proof.
  induction q as [|x q IH]; simpl; [done|].
  by rewrite insertChunk_perm, IH.
Qed.

Lemma processLoop_cases p :
  (exists c q, c ∈ audioQueue p /\ q ⊆ audioQueue p
     /\ processLoop p
        = set_audioQueue q (set_awaitingContext (awaitingContext p ++ [c]) p))
  \/ (exists q, q ⊆ audioQueue p
     /\ processLoop p
        = set_isPlaying false (set_isProcessingQueue false (set_audioQueue q p))).
Proof.
  unfold processLoop. destruct (currentUtteranceId p) as [cur|].
  - destruct (nextChunk cur (audioQueue p)) as [[c|] q] eqn:Hn;
      destruct (nextChunk_sub _ _ _ _ Hn) as [H1 H2].
    + left. exists c, q. auto.
    + right. exists q. auto.
  - right. exists (audioQueue p). split; [done|]. by destruct p.
Qed.

(** ** Preemption *)

Lemma preempting_init h : preempting (init h).
Proof.
  split; simpl.
  - constructor.
  - constructor.
  - constructor.
  - intros s Hs. by apply elem_of_nil in Hs.
  - intros c u Hc. by apply elem_of_nil in Hc.
  - intros c c' Hc. by apply elem_of_nil in Hc.
Qed.

Lemma preempting_flags p b1 b2 :
  preempting p -> preempting (set_isPlaying b1 (set_isProcessingQueue b2 p)).
Proof. intros []. by split. Qed.

Lemma preempting_processing p b2 :
  preempting p -> preempting (set_isProcessingQueue b2 p).
Proof. intros []. by split. Qed.

Lemma preempting_heap p h :
  preempting p -> preempting (set_heap h p).
Proof. intros []. by split. Qed.

Lemma preempting_drop p q :
  preempting p -> q ⊆ audioQueue p -> preempting (set_audioQueue q p).
Proof.
  intros [] Hq. split; simpl; auto.
  - rewrite Forall_forall in *. auto.
  - intros c u Hc. apply current_utterance0. set_solver.
  - intros c c' Hc Hc'. apply one_utterance0; set_solver.
Qed.

Lemma preempting_shift p c :
  preempting p -> c ∈ audioQueue p ->
  preempting (set_awaitingContext (awaitingContext p ++ [c]) p).
Proof.
  intros [] Hc.
  assert (Hg : generation c = switches p)
    by (rewrite Forall_forall in queue_current0; auto).
  split; simpl; auto; unfold handed in *; simpl.
  - rewrite app_assoc. apply StronglySorted_app_2; auto.
    + intros x y Hx Hy. apply list_elem_of_singleton in Hy as ->.
      rewrite Forall_forall in handed_bounded0. unfold earlier.
      rewrite Hg. auto.
    + repeat constructor.
  - rewrite app_assoc. apply Forall_app. split; auto.
    constructor; [lia | constructor].
  - intros x u Hx. apply current_utterance0. set_solver.
  - intros x y Hx Hy. apply one_utterance0; set_solver.
Qed.

Lemma preempting_processLoop p : preempting p -> preempting (processLoop p).
Proof.
  intros Hp. destruct (processLoop_cases p) as [(c & q & Hc & Hq & ->)|(q & Hq & ->)].
  - apply preempting_drop; [by apply preempting_shift | done].
  - by apply preempting_flags, preempting_drop.
Qed.

Lemma preempting_processQueue p : preempting p -> preempting (processQueue p).
Proof.
  intros Hp. unfold processQueue. destruct (isProcessingQueue p); [done|].
  by apply preempting_processLoop, preempting_processing.
Qed.

Lemma preempting_stop p : preempting p -> preempting (stop p).
Proof.
  intros []. split; simpl; auto.
  - intros s Hs. right. destruct (sources_cancelled0 s Hs); set_solver.
  - discriminate.
  - intros c c' Hc Hc'. apply one_utterance0; set_solver.
Qed.

Lemma preempting_enqueue p a sr uid now :
  preempting p -> currentUtteranceId p = Some uid ->
  preempting
    (set_audioQueue
       (sortQueue (audioQueue p
                   ++ [{| audio := a; utteranceId := uid;
                          chunkSampleRate := sr; timestamp := now;
                          generation := switches p |}])) p).
Proof.
  intros [] Hcur.
  set (c := {| audio := a; utteranceId := uid; chunkSampleRate := sr;
               timestamp := now; generation := switches p |}).
  assert (Hin : forall x, x ∈ sortQueue (audioQueue p ++ [c])
                          <-> x ∈ audioQueue p \/ x = c).
  { intros x. rewrite sortQueue_perm. set_solver. }
  split; simpl; auto.
  - apply Forall_forall. intros x [Hx| ->]%Hin; [|done].
    rewrite Forall_forall in queue_current0. auto.
  - intros x u [Hx|[Hx| ->]%Hin]%elem_of_app Hg Hu.
    + apply current_utterance0; auto. set_solver.
    + apply current_utterance0; auto. set_solver.
    + simpl. congruence.
  - assert (Hone : forall x, x ∈ handed p ++ audioQueue p ->
                     generation x = switches p -> utteranceId x = uid)
      by (intros x Hx Hg; eapply current_utterance0; eauto).
    intros x y Hx Hy Hg.
    assert (Hx' : x ∈ handed p ++ audioQueue p \/ x = c)
      by (apply elem_of_app in Hx as [Hx|Hx%Hin]; set_solver).
    assert (Hy' : y ∈ handed p ++ audioQueue p \/ y = c)
      by (apply elem_of_app in Hy as [Hy|Hy%Hin]; set_solver).
    destruct Hx' as [Hx'| ->], Hy' as [Hy'| ->]; simpl in *; auto.
    symmetry. auto.
Qed.

Lemma preempting_playChunk p a sr uid now :
  preempting p -> preempting (playChunk a sr uid now p).
Proof.
  intros Hp. unfold playChunk.
  case_bool_decide as Hcur.
  - cbv zeta.
    pose proof (preempting_enqueue p a sr uid now Hp Hcur) as He.
    destruct (isProcessingQueue _); [done|].
    by apply preempting_processQueue.
  - cbv zeta.
    set (p1 := {| audioQueue := audioQueue (stop p);
                  currentUtteranceId := Some uid;
                  switches := S (switches (stop p)) |}).
    assert (Hp1 : preempting p1).
    { apply preempting_stop in Hp. destruct Hp. subst p1.
      split; simpl in *; auto.
      - eapply Forall_impl; [exact handed_bounded0|]. simpl. auto.
      - intros c u Hc Hg. rewrite app_nil_r in Hc.
        rewrite Forall_forall in handed_bounded0.
        apply handed_bounded0 in Hc. lia. }
    pose proof (preempting_enqueue p1 a sr uid now Hp1 eq_refl) as He.
    destruct (isProcessingQueue _); [done|].
    by apply preempting_processQueue.
Qed.

Lemma preempting_unqueue p c rest :
  preempting p -> awaitingContext p = c :: rest ->
  preempting (set_awaitingContext rest p).
Proof.
  intros [] Hc. unfold handed in *. rewrite Hc in *.
  assert (Hsub : forall x, x ∈ map chunk (scheduled p) ++ rest ->
                   x ∈ map chunk (scheduled p) ++ c :: rest) by set_solver.
  split; simpl; auto; unfold handed; simpl.
  - apply StronglySorted_app in handed_in_order0 as (H1 & H2 & H3).
    apply StronglySorted_app. split_and!; auto.
    + intros x y Hx Hy. apply H1; set_solver.
    + by apply StronglySorted_cons in H3 as [_ H3].
  - apply Forall_forall. rewrite Forall_forall in handed_bounded0. auto.
  - intros x u Hx. apply current_utterance0. set_solver.
  - intros x y Hx Hy. apply one_utterance0; set_solver.
Qed.

Lemma preempting_playChunkImmediately p ready c rest :
  preempting p -> awaitingContext p = c :: rest ->
  preempting (playChunkImmediately ready c (set_awaitingContext rest p)).
Proof.
  intros Hp Hc. unfold playChunkImmediately.
  destruct (if ready then _ else _) as [msg|fs].
  - by eapply preempting_processLoop, preempting_unqueue.
  - destruct Hp. unfold handed in *. rewrite Hc in *.
    split; simpl; auto; unfold handed; simpl;
      rewrite ?map_app; simpl; rewrite <- ?app_assoc; simpl; auto.
    + intros s [Hs|Hs]%elem_of_app; [|set_solver].
      destruct (sources_cancelled0 s Hs); set_solver.
    + intros x u Hx. apply current_utterance0.
      by rewrite <- app_assoc.
    + intros x y Hx Hy. apply one_utterance0; by rewrite <- app_assoc.
Qed.

Lemma preempting_onended p s :
  preempting p ->
  preempting (onended s (set_awaitingEnd (filter (fun x => x <> s) (awaitingEnd p)) p)).
Proof.
  intros Hp. unfold onended. apply preempting_processLoop.
  destruct Hp. split; simpl; auto.
  intros x [Hne Hx]%list_elem_of_filter.
  destruct (sources_cancelled0 x Hx); auto.
  left. by apply list_elem_of_filter.
Qed.

Lemma preempting_handleResponseChunk p payload now :
  preempting p -> preempting (handleResponseChunk payload now p).
Proof.
  intros Hp. unfold handleResponseChunk, copyBytes.
  destruct (p_audio payload); cbv zeta; repeat case_match; auto;
    apply preempting_playChunk; try apply preempting_heap; done.
Qed.

Lemma preempting_step p e : preempting p -> preempting (step p e).
Proof.
  intros Hp. destruct e; simpl.
  - by apply preempting_playChunk.
  - by apply preempting_stop.
  - destruct (awaitingContext p) eqn:Hc; [done|].
    by apply preempting_playChunkImmediately.
  - case_bool_decide; [|done]. by apply preempting_onended.
  - by apply preempting_heap.
  - by apply preempting_handleResponseChunk.
Qed.

Lemma preempting_run es p : preempting p -> preempting (run es p).
Proof.
  revert p. induction es as [|e es IH]; intros p Hp; simpl; [done|].
  by apply IH, preempting_step.
Qed.


(** With the callbacks of [initAudioContext().then] run in the order they
    were registered, sources are started in the order of the generations of
    their chunks, and chunks of one generation belong to one utterance. *)
Lemma started_by_generation h0 es :
  let p := run es (init h0) in
  StronglySorted
    (fun x y => generation (chunk x) <= generation (chunk y))
    (scheduled p)
  /\ (forall x y, x ∈ scheduled p -> y ∈ scheduled p ->
        generation (chunk x) = generation (chunk y) ->
        utteranceId (chunk x) = utteranceId (chunk y)).
Proof.
  intros p.
  assert (Hp : preempting p) by apply preempting_run, preempting_init.
  split.
  - pose proof (handed_in_order _ Hp) as Hs. unfold handed in Hs.
    apply StronglySorted_app_1_l in Hs. clear -Hs.
    induction (scheduled p) as [|x l IH]; simpl in *; [constructor|].
    apply StronglySorted_cons in Hs as [Hx Hs]. constructor; auto.
    apply Forall_forall. intros y Hy. rewrite Forall_forall in Hx.
    apply Hx. by apply list_elem_of_fmap_2.
  - intros x y Hx Hy. apply (one_utterance _ Hp); unfold handed.
    + apply elem_of_app. left. apply elem_of_app. left.
      by apply list_elem_of_fmap_2.
    + apply elem_of_app. left. apply elem_of_app. left.
      by apply list_elem_of_fmap_2.
Qed.

(** ** Aliasing *)

Lemma processLoop_heap h p :
  processLoop (set_heap h p) = set_heap h (processLoop p).
Proof.
  unfold processLoop. simpl. destruct (currentUtteranceId p); [|done].
  by destruct (nextChunk _ _) as [[c|] q].
Qed.

Lemma processQueue_heap h p :
  processQueue (set_heap h p) = set_heap h (processQueue p).
Proof.
  unfold processQueue. simpl. destruct (isProcessingQueue p); [done|].
  apply (processLoop_heap h (set_isProcessingQueue true p)).
Qed.

Lemma playChunk_heap h p a sr uid now :
  playChunk a sr uid now (set_heap h p)
  = set_heap h (playChunk a sr uid now p).
Proof.
  unfold playChunk. simpl. case_bool_decide; cbv zeta; simpl.
  - destruct (isProcessingQueue p); [done|].
    apply (processQueue_heap h (set_audioQueue _ p)).
  - match goal with
    | |- processQueue ?x = set_heap _ (processQueue ?y) =>
        apply (processQueue_heap h y)
    end.
Qed.

Lemma heap_processLoop p : heap (processLoop p) = heap p.
Proof.
  by destruct (processLoop_cases p) as [(c & q & _ & _ & ->)|(q & _ & ->)].
Qed.

Lemma heap_playChunk p a sr uid now : heap (playChunk a sr uid now p) = heap p.
Proof.
  unfold playChunk, processQueue.
  case_bool_decide; cbv zeta; simpl;
    repeat case_match; rewrite ?heap_processLoop; done.
Qed.

Lemma apart_sub b p p' :
  apart b p -> heap p' = heap p ->
  (forall c, c ∈ audioQueue p' ++ awaitingContext p' ->
             c ∈ audioQueue p ++ awaitingContext p) ->
  apart b p'.
Proof.
  intros [He Hq] Hh Hsub. split; [by rewrite Hh|].
  apply Forall_forall. rewrite Forall_forall in Hq. auto.
Qed.

Lemma apart_processLoop b p : apart b p -> apart b (processLoop p).
Proof.
  intros Hp. eapply apart_sub; [done|apply heap_processLoop|].
  destruct (processLoop_cases p) as [(c & q & Hc & Hq & ->)|(q & Hq & ->)];
    simpl; set_solver.
Qed.

Lemma apart_playChunk b p a sr uid now :
  apart b p -> buffer a <> b -> apart b (playChunk a sr uid now p).
Proof.
  intros [He Hq] Ha. rewrite Forall_forall in Hq.
  assert (Hin : forall (q : list QueuedChunk) c x,
            x ∈ sortQueue (q ++ [c]) <-> x ∈ q \/ x = c).
  { intros q c x. rewrite sortQueue_perm. set_solver. }
  unfold playChunk. case_bool_decide; cbv zeta;
    match goal with
    | |- apart _ (if _ then ?x else processQueue ?x) =>
        assert (Hx : apart b x); [|destruct (isProcessingQueue x); [done|];
          unfold processQueue; destruct (isProcessingQueue x); [done|];
          apply apart_processLoop;
          by eapply apart_sub; [exact Hx| |]]
    end.
  - split; [done|]. simpl. apply Forall_forall.
    intros x [[Hx| ->]%Hin|Hx]%elem_of_app; [| done |]; apply Hq; set_solver.
  - split; [done|]. simpl. apply Forall_forall.
    intros x [->|Hx]%elem_of_cons; [done|]. apply Hq; set_solver.
Qed.

Lemma fresh_buffer b (h : gmap nat (list Byte.byte)) :
  is_Some (h !! b) -> fresh (dom h) <> b.
Proof.
  intros Hb%elem_of_dom Heq. apply (is_fresh (dom h)). by rewrite Heq.
Qed.

Lemma apart_handleResponseChunk b p payload now :
  apart b p ->
  from_handler (ResponseChunk payload now) = true ->
  apart b (handleResponseChunk payload now p).
Proof.
  intros Hp Hf. pose proof Hp as [He Hq].
  assert (Hcopy : forall a,
            apart b (playChunk (copyBytes a p).1
                       (match p_sampleRate payload with
                        | Some r =>
                            if (r <=? 0)%Z || (192000 <? r)%Z
                            then DEFAULT_SAMPLE_RATE else r
                        | None => DEFAULT_SAMPLE_RATE
                        end) (p_utteranceId payload) now (copyBytes a p).2)).
  { intros a. apply apart_playChunk.
    - split; simpl; [|done].
      rewrite lookup_insert_ne by by apply fresh_buffer. done.
    - simpl. by apply fresh_buffer. }
  unfold handleResponseChunk. simpl in Hf.
  destruct (p_audio payload) as [a|?|a len|]; try done.
  - destruct (byteLength a =? 0)%nat; [done|]. apply Hcopy.
  - case_bool_decide; [done|]. apply Hcopy.
Qed.

Lemma apart_step b p e :
  apart b p -> from_handler e = true -> apart b (step p e).
Proof.
  intros Hp Hf. destruct e as [| |ready|s|b' i x|payload now]; simpl.
  - done.
  - eapply apart_sub; [done|done|]. simpl. set_solver.
  - destruct (awaitingContext p) as [|c rest] eqn:Hc; [done|].
    assert (Hr : apart b (set_awaitingContext rest p)).
    { eapply apart_sub; [done|done|]. simpl. rewrite Hc. set_solver. }
    unfold playChunkImmediately.
    destruct (if ready then _ else _); [by apply apart_processLoop|].
    by destruct Hr.
  - case_bool_decide; [|done]. unfold onended. apply apart_processLoop.
    by destruct Hp.
  - destruct Hp as [He Hq]. split; [|done]. simpl.
    destruct (decide (b' = b)) as [->|Hne].
    + rewrite lookup_alter_eq. by apply fmap_is_Some.
    + by rewrite lookup_alter_ne.
  - by apply apart_handleResponseChunk.
Qed.

Lemma apart_run b es p :
  apart b p -> forallb from_handler es = true -> apart b (run es p).
Proof.
  revert p. induction es as [|e es IH]; intros p Hp Hf; simpl in *; [done|].
  apply andb_prop in Hf as [He Hes]. by apply IH; [apply apart_step|].
Qed.


Lemma view_bytes_agree b (h h' : gmap nat (list Byte.byte)) a :
  (forall k, k <> b -> h !! k = h' !! k) -> buffer a <> b ->
  view_bytes h a = view_bytes h' a.
Proof. intros Hk Ha. unfold view_bytes. by rewrite Hk. Qed.

Lemma convert_agree b (h h' : gmap nat (list Byte.byte)) a sr :
  (forall k, k <> b -> h !! k = h' !! k) -> buffer a <> b ->
  convert h a sr = convert h' a sr.
Proof.
  intros Hk Ha. unfold convert. by rewrite (view_bytes_agree b h h' a).
Qed.

Lemma write_step b p h e :
  apart b p -> dom h = dom (heap p) ->
  (forall k, k <> b -> h !! k = heap p !! k) ->
  from_handler e = true -> hands_over b e = false ->
  exists h', step (set_heap h p) e = set_heap h' (step p e)
    /\ dom h' = dom (heap (step p e))
    /\ (forall k, k <> b -> h' !! k = heap (step p e) !! k).
Proof.
  intros [He Hq] Hdom Hk Hf Hh. rewrite Forall_forall in Hq.
  destruct e as [| |ready|s|b' i x|payload now]; simpl.
  - done.
  - by exists h.
  - destruct (awaitingContext p) as [|c rest] eqn:Hc; [by exists h|].
    assert (Hb : buffer (audio c) <> b) by (apply Hq; set_solver).
    unfold playChunkImmediately. simpl.
    rewrite (convert_agree b h (heap p)) by done.
    destruct (if ready then _ else _) as [msg|fs].
    + exists h. split; [|by rewrite heap_processLoop].
      apply (processLoop_heap h (set_awaitingContext rest p)).
    + by exists h.
  - case_bool_decide; [|by exists h]. exists h.
    split; [|unfold onended; by rewrite heap_processLoop].
    unfold onended.
    match goal with
    | |- _ = set_heap _ (processLoop ?y) => apply (processLoop_heap h y)
    end.
  - exists (alter (fun l => <[i:=x]> l) b' h). split_and!; [done| |].
    + by rewrite !dom_alter_L.
    + intros k Hne. destruct (decide (k = b')) as [->|Hkb].
      * rewrite !lookup_alter_eq. by rewrite (Hk b' Hne).
      * rewrite !lookup_alter_ne by done. by apply Hk.
  - unfold handleResponseChunk. simpl in Hf, Hh.
    set (sr := match p_sampleRate payload with
               | Some r => _ | None => _ end).
    assert (Hcopy : forall a, buffer a <> b ->
      exists h',
        playChunk (copyBytes a (set_heap h p)).1 sr (p_utteranceId payload)
          now (copyBytes a (set_heap h p)).2
        = set_heap h'
            (playChunk (copyBytes a p).1 sr (p_utteranceId payload) now
               (copyBytes a p).2)
        /\ dom h'
           = dom (heap (playChunk (copyBytes a p).1 sr
                          (p_utteranceId payload) now (copyBytes a p).2))
        /\ (forall k, k <> b ->
              h' !! k
              = heap (playChunk (copyBytes a p).1 sr
                        (p_utteranceId payload) now (copyBytes a p).2)
                !! k)).
    { intros a Ha. unfold copyBytes. simpl.
      rewrite Hdom, (view_bytes_agree b h (heap p)) by done.
      set (f := fresh (dom (heap p))). set (bytes := view_bytes (heap p) a).
      exists (<[f:=bytes]> h). rewrite heap_playChunk. simpl.
      split_and!.
      - rewrite (playChunk_heap (<[f:=bytes]> (heap p)) p).
        apply (playChunk_heap (<[f:=bytes]> h) p).
      - by rewrite !dom_insert_L, Hdom.
      - intros k Hne. destruct (decide (k = f)) as [->|Hkf].
        + by rewrite !lookup_insert_eq.
        + rewrite !lookup_insert_ne by done. by apply Hk. }
    destruct (p_audio payload) as [a|?|a len|]; try done.
    + destruct (byteLength a =? 0)%nat; [by exists h|].
      apply Hcopy. by apply bool_decide_eq_false in Hh.
    + apply bool_decide_eq_false in Hh.
      destruct (bool_decide (len = Some 0%nat)); [by exists h|].
      by apply Hcopy.
    + by exists h.
Qed.

Lemma write_run b es p h :
  apart b p -> dom h = dom (heap p) ->
  (forall k, k <> b -> h !! k = heap p !! k) ->
  forallb from_handler es = true ->
  forallb (fun e => negb (hands_over b e)) es = true ->
  exists h', run es (set_heap h p) = set_heap h' (run es p).
Proof.
  revert p h. induction es as [|e es IH]; intros p h Hp Hdom Hk Hf Hh;
    simpl in *; [by exists h|].
  apply andb_prop in Hf as [Hf Hfs]. apply andb_prop in Hh as [Hh Hhs].
  apply negb_true_iff in Hh.
  destruct (write_step b p h e Hp Hdom Hk Hf Hh) as (h' & -> & Hdom' & Hk').
  apply IH; auto. by apply apart_step.
Qed.

(** C1 (as amended). When audio reaches the sequencer through the
    response-chunk handler, as a typed array, a store into a buffer that
    existed when the run started, at any point of the run, does not change
    what is scheduled, source by source and sample by sample, as long as
    that buffer is not handed to the handler again after the store. *)
Theorem handler_copies h0 es1 es2 b i x :
  is_Some (h0 !! b) ->
  forallb from_handler (es1 ++ es2) = true ->
  forallb (fun e => negb (hands_over b e)) es2 = true ->
  scheduled (run (es1 ++ Write b i x :: es2) (init h0))
  = scheduled (run (es1 ++ es2) (init h0)).
Proof.
  intros Hb Hf Hh. rewrite forallb_app in Hf.
  apply andb_prop in Hf as [Hf1 Hf2].
  unfold run. rewrite !foldl_app. simpl.
  fold (run es1 (init h0)). set (p := run es1 (init h0)).
  assert (Hp : apart b p).
  { apply apart_run; [|done]. split; [done|constructor]. }
  destruct (write_run b es2 p (alter (fun l => <[i:=x]> l) b (heap p)))
    as [h' Hrun]; auto.
  - by rewrite dom_alter_L.
  - intros k Hne. by rewrite lookup_alter_ne.
  - unfold run in Hrun. by rewrite Hrun.
Qed.

End PlaybackFacts.

(** C1, as stated, fails: the second chunk of an utterance waits in the
    queue while the first plays; a store into its buffer in the meantime
    changes the sample that is scheduled for it. *)
Lemma handler_copies_counterexample :
  map Playback.samples
    (Playback.scheduled
       (Playback.run (second_queued ++ Playback.Write 1 0 Byte.xff
                                       :: second_played)
          (Playback.init two_buffers)))
  = [[Pcm.normalize 1]; [Pcm.normalize 255]]
  /\ map Playback.samples
       (Playback.scheduled
          (Playback.run (second_queued ++ second_played)
             (Playback.init two_buffers)))
     = [[Pcm.normalize 1]; [Pcm.normalize 2]]
  /\ Pcm.normalize 255 <> Pcm.normalize 2.
Proof. vm_compute. repeat split. discriminate. Qed.

(** An [ArrayBuffer] in the payload is wrapped, not copied: a store into it
    after the handler ran is heard. *)
Lemma array_buffer_aliases :
  map Playback.samples
    (Playback.scheduled
       (Playback.run [Playback.ResponseChunk buffer_payload 0;
                      Playback.Write 0 0 Byte.xff;
                      Playback.ContextReady true]
          (Playback.init two_bytes)))
  = [[Pcm.normalize 255]]
  /\ map Playback.samples
       (Playback.scheduled
          (Playback.run [Playback.ResponseChunk buffer_payload 0;
                         Playback.ContextReady true]
             (Playback.init two_bytes)))
     = [[Pcm.normalize 1]].
Proof. vm_compute. split; reflexivity. Qed.

Lemma handler_copies_witness :
  Playback.scheduled
    (Playback.run
       ([Playback.ResponseChunk chunk_payload 0]
        ++ Playback.Write 0 0 Byte.xff :: [Playback.ContextReady true])
       (Playback.init two_bytes))
  = Playback.scheduled
      (Playback.run
         ([Playback.ResponseChunk chunk_payload 0]
          ++ [Playback.ContextReady true])
         (Playback.init two_bytes)).
Proof.
  apply (handler_copies two_bytes [Playback.ResponseChunk chunk_payload 0]
           [Playback.ContextReady true] 0 0 Byte.xff).
  - eexists. reflexivity.
  - reflexivity.
  - reflexivity.
Defined.

(** * Further properties *)

(** ** Conversions *)

Section ConversionFacts.
Import Pcm Playback.
Local Open Scope Z_scope.

(** The playback normalization of a non-zero sample is exact: the sample
    over 2^15, as a binary32 value. *)
Lemma normalize_signed (s : bool) (a : positive) :
  (if s then Zpos a <= 32768 else Zpos a <= 32767) ->
  normalize (signed s a)
  = S754_finite s (shl a (24 - Zpos (digits2_pos a)))
      (Zpos (digits2_pos a) - 39).
Proof.
  intros Hrange.
  assert (Hd : Zpos (digits2_pos a) <= 16).
  { apply digits_bound; [lia|]. simpl. destruct s; lia. }
  unfold normalize.
  rewrite (of_int_signed s a Hd), (div_32768 s a Hd).
  rewrite (clamp_q64 s a Hd Hrange). apply (fround_q64 s a Hd).
Qed.

Lemma normalize_finite v :
  -32768 <= v <= 32767 -> is_finite (normalize v) = true.
Proof.
  intros Hv. destruct v as [|a|a].
  - by vm_compute.
  - change (Z.pos a) with (signed false a).
    rewrite (normalize_signed false a) by lia. done.
  - change (Z.neg a) with (signed true a).
    rewrite (normalize_signed true a) by lia. done.
Qed.

Lemma int16s_range bytes : Forall (fun v => -32768 <= v <= 32767) (int16s bytes).
Proof.
  assert (Hb : forall b : Byte.byte, 0 <= Z.of_N (Byte.to_N b) < 256).
  { intros b. pose proof (Byte.to_N_bounded b). lia. }
  assert (H2 : forall l,
             Forall (fun v => -32768 <= v <= 32767) (int16s l)
             /\ forall x, Forall (fun v => -32768 <= v <= 32767)
                            (int16s (x :: l))).
  { induction l as [|y l [IH1 IH2]]; simpl.
    - split; [constructor|]. intros x. constructor.
    - split; [apply IH2|]. intros x. constructor; [|done].
      pose proof (Hb x). pose proof (Hb y).
      destruct (Z.ltb_spec (Z.of_N (Byte.to_N x)
                            + 256 * Z.of_N (Byte.to_N y)) 32768); lia. }
  apply H2.
Qed.

Lemma int16s_length bytes : length (int16s bytes) = (length bytes / 2)%nat.
Proof.
  assert (H2 : forall l,
             length (int16s l) = (length l / 2)%nat
             /\ forall x, length (int16s (x :: l))
                          = (length (x :: l) / 2)%nat).
  { induction l as [|y l [IH1 IH2]].
    - split; [done|]. intros x. done.
    - split; [apply IH2|]. intros x. cbn [int16s length]. rewrite IH1.
      change (S (S (length l))) with (1 * 2 + length l)%nat.
      by rewrite Nat.div_add_l. }
  apply H2.
Qed.

Lemma first_nonfinite_None i (l : list spec_float) :
  forallb is_finite l = true -> first_nonfinite i l = None.
Proof.
  revert i. induction l as [|x l IH]; intros i; simpl; [done|].
  intros [Hx Hl]%andb_prop. rewrite Hx. by apply IH.
Qed.

(** X1. What playback makes of a chunk whose view lies within its buffer,
    for a sample rate that a Number holds exactly: an empty view, a sample
    rate outside (0, 192000] and a view of one byte are rejected, in this
    order, with the messages of the source; every other chunk is
    converted, an odd last byte being dropped, into one sample for every
    two bytes. The check for non-finite samples never fires. *)
Theorem convert_outcome (h : gmap nat (list Byte.byte)) a sr bs :
  h !! buffer a = Some bs ->
  (byteOffset a + byteLength a <= length bs)%nat ->
  - 2 ^ 53 <= sr <= 2 ^ 53 ->
  convert h a sr
  = (if (byteLength a =? 0)%nat then inl "Audio data is empty"
     else if (sr <=? 0) || (192000 <? sr)
     then inl ("Invalid sample rate: " +:+ pretty sr)
     else if (byteLength a =? 1)%nat
     then inl "Audio buffer is empty after conversion"
     else inr (map normalize
                 (int16s (take (2 * (byteLength a / 2))
                            (drop (byteOffset a) bs)))))
  /\ length (int16s (take (2 * (byteLength a / 2)) (drop (byteOffset a) bs)))
     = (byteLength a / 2)%nat.
Proof.
  intros Hbuf Hin _.
  set (n := byteLength a) in *.
  assert (Hlen : length (take (2 * (n / 2)) (drop (byteOffset a) bs))
                 = (2 * (n / 2))%nat).
  { rewrite length_take, length_drop.
    pose proof (Nat.div_mod_eq n 2). lia. }
  assert (Hcount : length (int16s (take (2 * (n / 2))
                                     (drop (byteOffset a) bs)))
                   = (n / 2)%nat).
  { rewrite int16s_length, Hlen, Nat.mul_comm. by apply Nat.div_mul. }
  split; [|done].
  unfold convert. fold n.
  destruct (Nat.eqb_spec n 0) as [|Hn0]; [done|].
  destruct ((sr <=? 0) || (192000 <? sr)); [done|].
  unfold view_bytes. fold n. rewrite Hbuf. simpl default.
  assert (Hproc : (if (n mod 2 =? 0)%nat
                   then take n (drop (byteOffset a) bs)
                   else take (n - 1) (take n (drop (byteOffset a) bs)))
                  = take (2 * (n / 2)) (drop (byteOffset a) bs)).
  { pose proof (Nat.div_mod_eq n 2) as Hdm.
    pose proof (Nat.mod_upper_bound n 2).
    destruct (Nat.eqb_spec (n mod 2) 0) as [H0|H1].
    - f_equal. lia.
    - rewrite take_take. f_equal. lia. }
  rewrite Hproc.
  assert (Hfin : forallb is_finite
                   (map normalize
                      (int16s (take (2 * (n / 2)) (drop (byteOffset a) bs))))
                 = true).
  { apply forallb_forall. intros x Hx. apply in_map_iff in Hx as (v & <- & Hv).
    apply normalize_finite.
    pose proof (int16s_range (take (2 * (n / 2)) (drop (byteOffset a) bs)))
      as Hr.
    rewrite Forall_forall in Hr. apply Hr. by apply list_elem_of_In. }
  rewrite (first_nonfinite_None 0 _ Hfin). rewrite length_map, Hcount.
  destruct (Nat.eqb_spec n 1) as [->|Hn1]; [done|].
  destruct (Nat.eqb_spec (n / 2) 0) as [Hz|]; [|done].
  pose proof (Nat.div_mod_eq n 2). pose proof (Nat.mod_upper_bound n 2). lia.
Qed.


(** X2. Capture: a sample of +1.0 or above comes out as -32768. The product
    with 32768.0 is 32768, which the first store into the [Int16Array]
    wraps around before the clamp to 32767 is applied. *)
Theorem to_pcm_full_scale x :
  to_double x = f1 \/ SFcompare f1 (to_double x) = Some Lt ->
  to_pcm x = -32768.
Proof.
  intros [Hx|Hx]; unfold to_pcm.
  - rewrite Hx. by vm_compute.
  - assert (Hmin : Math_min f1 (to_double x) = f1).
    { unfold Math_min. rewrite Hx.
      destruct (to_double x); try done. }
    rewrite Hmin. by vm_compute.
Qed.

End ConversionFacts.

Lemma convert_outcome_witness :
  Playback.convert two_bytes whole_buffer 16000 = inr [Pcm.normalize 1]
  /\ length (Playback.int16s (take 2 (drop 0 [Byte.x01; Byte.x00]))) = 1.
Proof.
  apply (convert_outcome two_bytes whole_buffer 16000 [Byte.x01; Byte.x00]).
  - reflexivity.
  - simpl. lia.
  - lia.
Defined.

Lemma to_pcm_full_scale_witness :
  Pcm.to_pcm (S754_finite false 8388608 (-23)) = (-32768)%Z.
Proof. apply to_pcm_full_scale. left. vm_compute. reflexivity. Defined.

(** ** The sequencer: stop, sample rates, order of play *)

Section SequencerFacts.
Import Playback.
Implicit Types (p : AudioPlayback) (c : QueuedChunk) (q : list QueuedChunk).

Lemma handed_processLoop p :
  exists extra, handed (processLoop p) = handed p ++ extra
    /\ extra ⊆ audioQueue p /\ audioQueue (processLoop p) ⊆ audioQueue p
    /\ switches (processLoop p) = switches p
    /\ currentUtteranceId (processLoop p) = currentUtteranceId p.
Proof.
  destruct (processLoop_cases p) as [(c & q & Hc & Hq & ->)|(q & Hq & ->)].
  - exists [c]. unfold handed. simpl. rewrite app_assoc.
    split_and!; try done. set_solver.
  - exists []. unfold handed. simpl. rewrite app_nil_r.
    split_and!; try done. set_solver.
Qed.

Lemma elem_of_sortQueue q c x :
  x ∈ sortQueue (q ++ [c]) <-> x ∈ q \/ x = c.
Proof. rewrite sortQueue_perm. set_solver. Qed.

(** Every chunk the sequencer holds after a call of [playChunk] was held
    before or is the chunk of the call. *)
Lemma handed_playChunk p a sr uid now :
  exists extra g,
    handed (playChunk a sr uid now p) = handed p ++ extra
    /\ (forall x, x ∈ extra ++ audioQueue (playChunk a sr uid now p) ->
          (x ∈ audioQueue p /\ currentUtteranceId p = Some uid)
          \/ x = {| audio := a; utteranceId := uid; chunkSampleRate := sr;
                    timestamp := now; generation := g |})
    /\ g = switches (playChunk a sr uid now p)
    /\ currentUtteranceId (playChunk a sr uid now p) = Some uid
    /\ (if bool_decide (currentUtteranceId p = Some uid)
        then g = switches p else g = S (switches p)).
Proof.
  unfold playChunk.
  case_bool_decide as Hcur; cbv zeta.
  - set (c := {| audio := a; utteranceId := uid; chunkSampleRate := sr;
                 timestamp := now; generation := switches p |}).
    set (p1 := set_audioQueue (sortQueue (audioQueue p ++ [c])) p).
    assert (Hq1 : forall x, x ∈ audioQueue p1 -> x ∈ audioQueue p \/ x = c).
    { intros x Hx. by apply elem_of_sortQueue in Hx. }
    change (isProcessingQueue p1) with (isProcessingQueue p).
    unfold processQueue.
    change (isProcessingQueue p1) with (isProcessingQueue p).
    destruct (isProcessingQueue p).
    + exists [], (switches p). rewrite app_nil_r. split_and!; try done.
      intros x Hx. destruct (Hq1 x Hx); auto.
    + destruct (handed_processLoop (set_isProcessingQueue true p1))
        as (extra & -> & He & Hq & -> & ->).
      exists extra, (switches p). split_and!; try done.
      intros x [Hx|Hx]%elem_of_app.
      * destruct (Hq1 x (He x Hx)); auto.
      * destruct (Hq1 x (Hq x Hx)); auto.
  - set (c := {| audio := a; utteranceId := uid; chunkSampleRate := sr;
                 timestamp := now; generation := S (switches p) |}).
    unfold processQueue. simpl isProcessingQueue. cbv iota.
    match goal with
    | |- context [processLoop ?y] =>
        destruct (handed_processLoop y) as (extra & -> & He & Hq & -> & ->)
    end.
    exists extra, (S (switches p)). split_and!; try done.
    intros x [Hx|Hx]%elem_of_app.
    + apply He in Hx. simpl in Hx. apply list_elem_of_singleton in Hx. auto.
    + apply Hq in Hx. simpl in Hx. apply list_elem_of_singleton in Hx. auto.
Qed.


(** The handler either drops the message or calls [playChunk] with a
    sample rate it has checked, on a sequencer that differs from the
    current one in its heap only. *)
Lemma handleResponseChunk_cases payload now p :
  handleResponseChunk payload now p = p
  \/ exists a sr h,
       handleResponseChunk payload now p
       = playChunk a sr (p_utteranceId payload) now (set_heap h p)
       /\ (0 < sr <= 192000)%Z.
Proof.
  unfold handleResponseChunk.
  set (sr := match p_sampleRate payload with
             | Some r => _ | None => _ end).
  assert (Hsr : (0 < sr <= 192000)%Z).
  { subst sr. unfold DEFAULT_SAMPLE_RATE.
    destruct (p_sampleRate payload) as [r|]; [|lia].
    destruct (Z.leb_spec r 0); simpl; [lia|].
    destruct (Z.ltb_spec 192000 r); lia. }
  destruct (p_audio payload) as [a|b|a len|]; unfold copyBytes.
  - destruct (byteLength a =? 0)%nat; [by left|]. right. by eexists _, sr, _.
  - right. exists {| buffer := b; byteOffset := 0;
                     byteLength := length (default [] (heap p !! b)) |},
             sr, (heap p). split; [|done]. by destruct p.
  - case_bool_decide; [by left|]. right. by eexists _, sr, _.
  - by left.
Qed.

Lemma stopped_at_stop p : stopped_at p (stop p).
Proof.
  split; simpl; try done.
  change (handed (stop p)) with (handed p). apply sublist_filter.
Qed.

Lemma stopped_at_heap p0 p h : stopped_at p0 p -> stopped_at p0 (set_heap h p).
Proof. intros []. by split. Qed.

(** Chunks handed over or queued later do not count among those enqueued
    before the stop. *)
Lemma stopped_at_later p0 p p' extra :
  stopped_at p0 p ->
  handed p' = handed p ++ extra ->
  (forall x, x ∈ extra ++ audioQueue p' -> switches p0 < generation x) ->
  switches p <= switches p' ->
  (currentUtteranceId p' <> None -> switches p0 < switches p') ->
  stopped_at p0 p'.
Proof.
  intros [H1 H2 H3 H4] Hh Hx Hs Hc. split.
  - lia.
  - done.
  - apply Forall_forall. intros x Hq. apply Hx. set_solver.
  - rewrite Hh, filter_app.
    rewrite (filter_none _ extra), app_nil_r; [done|].
    intros x Hin. assert (switches p0 < generation x) by (apply Hx; set_solver).
    lia.
Qed.

Lemma stopped_at_processLoop p0 p :
  stopped_at p0 p -> stopped_at p0 (processLoop p).
Proof.
  intros Hp.
  destruct (handed_processLoop p) as (extra & Hh & He & Hq & Hs & Hc).
  apply (stopped_at_later p0 p _ extra Hp Hh).
  - pose proof (queued_later _ _ Hp) as H3. rewrite Forall_forall in H3.
    intros x [Hx|Hx]%elem_of_app; auto.
  - lia.
  - rewrite Hs, Hc. apply (adopted_later _ _ Hp).
Qed.

Lemma stopped_at_playChunk p0 p a sr uid now :
  stopped_at p0 p -> stopped_at p0 (playChunk a sr uid now p).
Proof.
  intros Hp.
  destruct (handed_playChunk p a sr uid now)
    as (extra & g & Hh & Hx & Hg & Hc & Hsw).
  pose proof (queued_later _ _ Hp) as H3. rewrite Forall_forall in H3.
  pose proof (switches_grow _ _ Hp) as H1.
  assert (Hlt : switches p0 < g).
  { case_bool_decide as Hcur; subst g.
    - rewrite Hsw. apply (adopted_later _ _ Hp). by rewrite Hcur.
    - lia. }
  apply (stopped_at_later p0 p _ extra Hp Hh).
  - intros x [[Hq _]| ->]%Hx; [auto|done].
  - case_bool_decide; lia.
  - intros _. lia.
Qed.

Lemma stopped_at_step p0 p e : stopped_at p0 p -> stopped_at p0 (step p e).
Proof.
  intros Hp. destruct e as [a sr uid now| |ready|s|b i x|payload now]; simpl.
  - by apply stopped_at_playChunk.
  - destruct Hp as [H1 H2 H3 H4]. split; simpl; done.
  - destruct (awaitingContext p) as [|c rest] eqn:Hc; [done|].
    assert (Hrest : stopped_at p0 (set_awaitingContext rest p)).
    { destruct Hp as [H1 H2 H3 H4]. split; try done.
      etrans; [|exact H4]. unfold handed. simpl. rewrite Hc.
      rewrite !filter_app. apply sublist_app; [done|].
      rewrite filter_cons. case_decide; [by apply sublist_cons|done]. }
    unfold playChunkImmediately.
    destruct (if ready then _ else _); [by apply stopped_at_processLoop|].
    destruct Hp as [H1 H2 H3 H4]. split; try done.
    unfold handed in *. simpl. rewrite Hc in H4.
    by rewrite map_app, <- app_assoc.
  - case_bool_decide; [|done]. unfold onended.
    apply stopped_at_processLoop. destruct Hp. by split.
  - by apply stopped_at_heap.
  - destruct (handleResponseChunk_cases payload now p)
      as [->|(a & sr & h & -> & _)]; [done|].
    by apply stopped_at_playChunk, stopped_at_heap.
Qed.

(** X3. After [stop()], whatever was queued is gone for good: of the chunks
    enqueued before the call, only those already handed over for playing
    when it was made are ever started, in the order they were handed over. *)
Theorem stop_drops_queue h0 es1 es2 :
  let p := run es1 (init h0) in
  let p' := run es2 (stop p) in
  filter (fun c => generation c <= switches p)
    (map chunk (scheduled p'))
  `sublist_of` map chunk (scheduled p) ++ awaitingContext p.
Proof.
  intros p p'.
  assert (Hp' : stopped_at p p').
  { subst p'. generalize (stopped_at_stop p). generalize (stop p).
    induction es2 as [|e es IH]; intros q Hq; simpl; [done|].
    by apply IH, stopped_at_step. }
  etrans; [|apply (handed_before _ _ Hp')].
  unfold handed. rewrite filter_app. by apply sublist_inserts_r.
Qed.





(** A property of the chunks a sequencer holds is kept by an event when
    the chunk the event brings has it. *)
Lemma held_step (P : QueuedChunk -> Prop) p e :
  (forall x, x ∈ handed p ++ audioQueue p -> P x) ->
  (forall a sr uid now g,
     e = PlayChunk a sr uid now ->
     P {| audio := a; utteranceId := uid; chunkSampleRate := sr;
          timestamp := now; generation := g |}) ->
  (forall payload a sr now g,
     e = ResponseChunk payload now -> (0 < sr <= 192000)%Z ->
     P {| audio := a; utteranceId := p_utteranceId payload;
          chunkSampleRate := sr; timestamp := now; generation := g |}) ->
  forall x, x ∈ handed (step p e) ++ audioQueue (step p e) -> P x.
Proof.
  intros Hold Hplay Hresp.
  assert (Hloop : forall p1,
            (forall x, x ∈ handed p1 ++ audioQueue p1 -> P x) ->
            forall x, x ∈ handed (processLoop p1)
                          ++ audioQueue (processLoop p1) -> P x).
  { intros p1 H1 x.
    destruct (handed_processLoop p1) as (extra & -> & He & Hq & _).
    intros Hx. apply H1. set_solver. }
  assert (Hcall : forall p1 a sr uid now,
            (forall x, x ∈ handed p1 ++ audioQueue p1 -> P x) ->
            (forall g, P {| audio := a; utteranceId := uid;
                            chunkSampleRate := sr; timestamp := now;
                            generation := g |}) ->
            forall x, x ∈ handed (playChunk a sr uid now p1)
                          ++ audioQueue (playChunk a sr uid now p1) -> P x).
  { intros p1 a sr uid now H1 Hnew x.
    destruct (handed_playChunk p1 a sr uid now)
      as (extra & g & -> & Hx & _).
    rewrite <- app_assoc. intros [Hin|Hin]%elem_of_app.
    - apply H1. set_solver.
    - destruct (Hx x Hin) as [[Hq _]| ->]; [|apply Hnew].
      apply H1. set_solver. }
  destruct e as [a sr uid now| |ready|s|b i v|payload now]; simpl.
  - apply Hcall; [done|]. intros g. by eapply Hplay.
  - intros x Hx. apply Hold. unfold handed in *. simpl in Hx.
    rewrite app_nil_r in Hx. set_solver.
  - destruct (awaitingContext p) as [|c rest] eqn:Hc; [done|].
    assert (Hrest : forall x,
              x ∈ handed (set_awaitingContext rest p)
                  ++ audioQueue (set_awaitingContext rest p) -> P x).
    { intros x Hx. apply Hold. unfold handed in *. simpl in Hx.
      rewrite Hc. set_solver. }
    unfold playChunkImmediately.
    destruct (if ready then _ else _); [by apply Hloop|].
    intros x Hx. apply Hold. unfold handed in *. simpl in Hx.
    rewrite Hc. rewrite map_app in Hx. simpl in Hx. set_solver.
  - case_bool_decide; [|done]. unfold onended. by apply Hloop.
  - done.
  - destruct (handleResponseChunk_cases payload now p)
      as [->|(a & sr & h & -> & Hsr)]; [done|].
    apply Hcall; [done|]. intros g. by eapply Hresp.
Qed.

(** X4. A chunk that came through the response-chunk handler carries a
    sample rate the handler has checked: playback does not reject it for
    its rate. *)
Theorem handler_checks_rate h0 es c :
  forallb via_handler es = true ->
  c ∈ handed (run es (init h0)) ++ audioQueue (run es (init h0)) ->
  (0 < chunkSampleRate c <= 192000)%Z
  /\ forall h (n : Z), convert h (audio c) (chunkSampleRate c)
                       <> inl ("Invalid sample rate: " +:+ pretty n).
Proof.
  intros Hes Hc.
  assert (Hrate : (0 < chunkSampleRate c <= 192000)%Z).
  { revert c Hc. unfold run.
    induction es as [|e es IH] using rev_ind; [by intros c ?%elem_of_nil|].
    rewrite forallb_app in Hes. apply andb_prop in Hes as [Hes He].
    simpl in He. rewrite foldl_app. simpl.
    apply held_step; [by apply IH| |].
    - intros a sr uid now g ->. done.
    - intros payload a sr now g _ Hsr. done. }
  split; [done|]. intros h n. unfold convert.
  destruct (byteLength (audio c) =? 0)%nat; [done|].
  destruct (Z.leb_spec (chunkSampleRate c) 0); [lia|].
  destruct (Z.ltb_spec 192000 (chunkSampleRate c)); [lia|]. simpl.
  repeat case_match; done.
Qed.


(** ** One utterance *)

Lemma string_ltb_irrefl u : string_ltb u u = false.
Proof.
  unfold string_ltb. pose proof (String.compare_antisym u u) as H.
  by destruct (String.compare u u).
Qed.

Lemma insertChunk_least c q :
  Forall (fun x => compareChunks c x <> Gt) q -> insertChunk c q = c :: q.
Proof.
  destruct q as [|x q]; [done|]. intros [Hx _]%Forall_cons. simpl.
  by destruct (compareChunks c x).
Qed.

Lemma sortQueue_sorted q :
  StronglySorted (fun a b => compareChunks a b <> Gt) q -> sortQueue q = q.
Proof.
  induction 1 as [|x q Hq IH Hx]; [done|]. simpl. fold (sortQueue q).
  rewrite IH. by apply insertChunk_least.
Qed.

Lemma StronglySorted_sublist {A} (R : relation A) (l k : list A) :
  l `sublist_of` k -> StronglySorted R k -> StronglySorted R l.
Proof.
  induction 1 as [|x l k Hlk IH|x l k Hlk IH]; intros Hk.
  - constructor.
  - apply StronglySorted_inv in Hk as [Hk Hx]. constructor; [auto|].
    apply Forall_forall. rewrite Forall_forall in Hx. intros y Hy.
    apply Hx. by eapply elem_of_sublist.
  - apply StronglySorted_inv in Hk as [Hk _]. auto.
Qed.

Lemma sorted_by_timestamp q :
  StronglySorted Z.le (map timestamp q) ->
  StronglySorted (fun x y => (timestamp x <= timestamp y)%Z) q.
Proof.
  induction q as [|x q IH]; simpl; intros Hq; [constructor|].
  apply StronglySorted_inv in Hq as [Hq Hx]. constructor; [auto|].
  apply Forall_forall. intros y Hy. rewrite Forall_forall in Hx.
  apply Hx. by apply list_elem_of_fmap_2.
Qed.

Lemma arrivals_app es es' : arrivals (es ++ es') = arrivals es ++ arrivals es'.
Proof. apply omap_app. Qed.

Lemma arrivals_utterance u es c :
  forallb (plays_only u) es = true -> c ∈ arrivals es ->
  utteranceId c = u /\ generation c = 1.
Proof.
  intros Hes (e & He & Hc)%list_elem_of_omap.
  rewrite forallb_forall in Hes. apply list_elem_of_In, Hes in He.
  destruct e; simpl in *; try done.
  apply String.eqb_eq in He. by injection Hc as <-.
Qed.

Lemma processLoop_single u p :
  currentUtteranceId p = Some u ->
  Forall (fun c => utteranceId c = u) (audioQueue p) ->
  processLoop p
  = match audioQueue p with
    | [] => set_isPlaying false (set_isProcessingQueue false p)
    | c :: q =>
        set_awaitingContext (awaitingContext p ++ [c]) (set_audioQueue q p)
    end.
Proof.
  intros Hcur Hq. unfold processLoop. rewrite Hcur.
  destruct (audioQueue p) as [|c q] eqn:Hqueue; simpl.
  - destruct p. simpl in *. by subst.
  - apply Forall_cons in Hq as [-> _]. by rewrite String.eqb_refl.
Qed.

Lemma sequential_processLoop u arrived p :
  arrived <> [] ->
  (forall c, c ∈ arrived -> utteranceId c = u) ->
  currentUtteranceId p = Some u -> switches p = 1 ->
  handed p ++ audioQueue p `sublist_of` arrived ->
  awaitingContext p = [] -> awaitingEnd p = [] ->
  isProcessingQueue p = true ->
  sequential u arrived (processLoop p).
Proof.
  intros Hne Hu Hcur Hsw Hsub Hctx Hend Hflag.
  assert (Hqu : Forall (fun c => utteranceId c = u) (audioQueue p)).
  { apply Forall_forall. intros c Hc. apply Hu.
    apply (elem_of_sublist (handed p ++ audioQueue p)); [|done].
    apply elem_of_app. by right. }
  rewrite (processLoop_single u p Hcur Hqu).
  destruct (audioQueue p) as [|c q] eqn:Hq.
  - split; simpl.
    + unfold handed in *. simpl. by rewrite Hq.
    + by rewrite Hctx, Hend, Hq.
    + by rewrite decide_False.
  - split; simpl.
    + unfold handed in *. simpl. rewrite Hctx in *.
      rewrite app_nil_r in Hsub. simpl. by rewrite <- app_assoc.
    + by rewrite Hflag, Hctx, Hend.
    + by rewrite decide_False.
Qed.

Lemma sequential_grow u arrived extra p :
  sequential u arrived p -> arrived <> [] ->
  sequential u (arrived ++ extra) p.
Proof.
  intros [H1 H2 H3] Hne. rewrite decide_False in H3 by done. split.
  - by apply sublist_inserts_r.
  - done.
  - rewrite decide_False; [done|]. by destruct arrived.
Qed.

Lemma sequential_step u es p e :
  forallb (plays_only u) (es ++ [e]) = true ->
  StronglySorted Z.le (map timestamp (arrivals (es ++ [e]))) ->
  sequential u (arrivals es) p ->
  sequential u (arrivals (es ++ [e])) (step p e).
Proof.
  intros Hes Hsorted Hp.
  assert (Hu : forall c, c ∈ arrivals (es ++ [e]) -> utteranceId c = u).
  { intros c Hc. exact (proj1 (arrivals_utterance u _ c Hes Hc)). }
  rewrite forallb_app in Hes. apply andb_prop in Hes as [Hes He].
  simpl in He. rewrite andb_true_r in He.
  rewrite arrivals_app in *. unfold arrivals at 2 in Hsorted.
  unfold arrivals at 2 in Hu. unfold arrivals at 2. simpl in *.
  pose proof Hp as [H1 H2 H3].
  destruct e as [a sr uid now| |ready|s|b i x|payload now];
    simpl in He; try done; simpl.
  - (* playChunk *)
    apply String.eqb_eq in He as ->.
    set (c := {| audio := a; utteranceId := u; chunkSampleRate := sr;
                 timestamp := now; generation := 1 |}) in *.
    unfold playChunk. case_decide as Hnil.
    + (* the first chunk *)
      destruct H3 as (Hcur & Hsw & Hflag). rewrite Hflag in H2.
      destruct H2 as (Hctx & Hend & Hq).
      rewrite bool_decide_eq_false_2 by (rewrite Hcur; done).
      cbv zeta. unfold processQueue, processLoop. simpl.
      rewrite Hsw, String.eqb_refl. simpl. fold c.
      assert (Hs : scheduled p = []).
      { rewrite Hnil in H1. apply sublist_nil_r in H1.
        apply app_eq_nil in H1 as [H1 _]. unfold handed in H1.
        apply app_eq_nil in H1 as [H1 _]. by destruct (scheduled p). }
      split; simpl.
      * unfold handed. simpl. rewrite Hs, Hctx, Hnil. simpl. done.
      * by rewrite Hctx, Hend.
      * rewrite decide_False; [done|]. by destruct (arrivals es).
    + (* a further chunk *)
      destruct H3 as (Hcur & Hsw).
      rewrite bool_decide_eq_true_2 by done. cbv zeta. rewrite Hsw. fold c.
      assert (Hsort : sortQueue (audioQueue p ++ [c]) = audioQueue p ++ [c]).
      { apply sortQueue_sorted.
        assert (Hall : StronglySorted (fun x y => (timestamp x <= timestamp y)%Z)
                         (arrivals es ++ [c])).
        { by apply sorted_by_timestamp. }
        assert (Hsubq : audioQueue p ++ [c] `sublist_of` arrivals es ++ [c]).
        { apply sublist_app; [|done]. etrans; [|exact H1].
          by apply sublist_inserts_l. }
        pose proof (StronglySorted_sublist _ _ _ Hsubq Hall) as Hq.
        assert (Huq : forall x, x ∈ audioQueue p ++ [c] -> utteranceId x = u).
        { intros x Hx. apply Hu. by eapply elem_of_sublist. }
        clear -Hq Huq. induction Hq as [|x l Hl IH Hx]; [constructor|].
        constructor.
        - apply IH. intros y Hy. apply Huq. by right.
        - apply Forall_forall. intros y Hy. rewrite Forall_forall in Hx.
          unfold compareChunks. rewrite (Huq x), (Huq y) by set_solver.
          rewrite string_ltb_irrefl. specialize (Hx y Hy).
          intros Hgt%Z.compare_gt_iff. lia. }
      rewrite Hsort. simpl isProcessingQueue.
      destruct (isProcessingQueue p) eqn:Hflag.
      * split; simpl.
        -- rewrite app_assoc. by apply sublist_app.
        -- by rewrite Hflag.
        -- rewrite decide_False; [done|]. by destruct (arrivals es).
      * destruct H2 as (Hctx & Hend & Hq). rewrite Hq. simpl.
        unfold processQueue. simpl. rewrite Hflag.
        unfold processLoop. simpl. rewrite Hcur, String.eqb_refl.
        split; simpl.
        -- unfold handed in *. simpl. rewrite Hctx, Hq in *.
           rewrite !app_nil_r in *. by apply sublist_app.
        -- by rewrite Hctx, Hend.
        -- rewrite decide_False; [done|]. by destruct (arrivals es).
  - (* the audio context answers *)
    rewrite app_nil_r in *.
    destruct (awaitingContext p) as [|c rest] eqn:Hc; [done|].
    destruct (isProcessingQueue p) eqn:Hflag; [|by destruct H2].
    simpl in H2. assert (rest = [] /\ awaitingEnd p = []) as [-> Hend].
    { destruct rest, (awaitingEnd p); simpl in H2; try lia. done. }
    assert (Hne : arrivals es <> []).
    { intros Hnil. rewrite Hnil in H3. rewrite decide_True in H3 by done.
      destruct H3 as (_ & _ & ?). congruence. }
    rewrite decide_False in H3 by done. destruct H3 as [Hcur Hsw].
    unfold playChunkImmediately.
    destruct (if ready then _ else _).
    + apply sequential_processLoop; try done.
      etrans; [|exact H1]. unfold handed. simpl. rewrite Hc.
      apply sublist_app; [|done]. apply sublist_app; [done|].
      by apply sublist_cons.
    + split; simpl.
      * unfold handed in *. simpl. rewrite Hc in H1.
        by rewrite map_app, <- app_assoc.
      * by rewrite Hflag, Hend.
      * by rewrite decide_False.
  - (* a source ends *)
    rewrite app_nil_r in *.
    case_bool_decide as Hs; [|done].
    destruct (isProcessingQueue p) eqn:Hflag;
      [|destruct H2 as (_ & Hend & _); rewrite Hend in Hs;
        by apply elem_of_nil in Hs].
    assert (awaitingContext p = [] /\ awaitingEnd p = [s]) as [Hctx Hend].
    { destruct (awaitingContext p), (awaitingEnd p) as [|s' [|]];
        simpl in H2; try lia; try by apply elem_of_nil in Hs.
      apply list_elem_of_singleton in Hs as ->. done. }
    assert (Hne : arrivals es <> []).
    { intros Hnil. rewrite Hnil in H3. rewrite decide_True in H3 by done.
      destruct H3 as (_ & _ & ?). congruence. }
    rewrite decide_False in H3 by done. destruct H3 as [Hcur Hsw].
    unfold onended. apply sequential_processLoop; try done.
    simpl. rewrite Hend. rewrite filter_cons_False by (intros Hn; by apply Hn).
    done.
  - (* a store into a buffer *)
    rewrite app_nil_r. destruct Hp. by split.
Qed.

(** X5. While one utterance is played, by a clock that does not go back,
    chunks are started in the order they arrived, none twice, and one at a
    time. *)
Theorem plays_in_order h0 u es :
  forallb (plays_only u) es = true ->
  StronglySorted Z.le (map timestamp (arrivals es)) ->
  let p := run es (init h0) in
  map chunk (scheduled p) ++ awaitingContext p ++ audioQueue p
    `sublist_of` arrivals es
  /\ length (awaitingEnd p) <= 1
  /\ length (awaitingContext p) + length (awaitingEnd p) <= 1.
Proof.
  intros Hes Hsorted p.
  assert (Hp : sequential u (arrivals es) p).
  { subst p. unfold run.
    induction es as [|e es IH] using rev_ind.
    - by split.
    - rewrite foldl_app. simpl. apply sequential_step; [done|done|].
      apply IH.
      + rewrite forallb_app in Hes. by apply andb_prop in Hes as [? _].
      + rewrite arrivals_app, map_app in Hsorted.
        by apply StronglySorted_app_1_l in Hsorted. }
  destruct Hp as [H1 H2 _]. unfold handed in H1.
  rewrite <- app_assoc in H1. split; [done|].
  destruct (isProcessingQueue p); [lia|].
  destruct H2 as (-> & -> & _). simpl. lia.
Qed.

End SequencerFacts.



Lemma handler_checks_rate_witness :
  (0 < Playback.chunkSampleRate copied_chunk <= 192000)%Z
  /\ forall h (n : Z),
       Playback.convert h (Playback.audio copied_chunk)
         (Playback.chunkSampleRate copied_chunk)
       <> inl ("Invalid sample rate: " +:+ pretty n).
Proof.
  apply (handler_checks_rate two_bytes
           [Playback.ResponseChunk chunk_payload 0] copied_chunk).
  - reflexivity.
  - vm_compute. constructor.
Defined.

Lemma plays_in_order_witness :
  let p := Playback.run (second_queued ++ second_played)
             (Playback.init two_buffers) in
  map Playback.chunk (Playback.scheduled p)
    ++ Playback.awaitingContext p ++ Playback.audioQueue p
    `sublist_of` arrivals (second_queued ++ second_played)
  /\ length (Playback.awaitingEnd p) <= 1
  /\ length (Playback.awaitingContext p) + length (Playback.awaitingEnd p)
     <= 1.
Proof.
  apply (plays_in_order two_buffers "u1" (second_queued ++ second_played)).
  - reflexivity.
  - simpl. repeat (constructor; try lia).
Defined.

(** ** RequestTracker: acknowledgments, duplicates, clear *)

Section TrackerUse.

Import Tracker.
Variable config : RequestTrackerConfig.
Implicit Types (t : RequestTracker) (e : string * PendingRequest).

Lemma matchAck_fields eid ack r t :
  get eid t = Some r ->
  matchAck eid ack t
  = (true,
     {| pendingRequests := filter (fun e => e.1 <> eid) (pendingRequests t);
        timers := filter (fun tm => handle tm <> timeout r) (timers t);
        jobs := jobs t; cleanupTimer := cleanupTimer t;
        settled := settled t ++ map (fun p => (p, Resolved ack)) (listeners r);
        duplicatePromises := duplicatePromises t;
        nextPromise := nextPromise t; nextTimer := nextTimer t |}).
Proof.
  intros Hg. unfold matchAck. rewrite Hg. by rewrite settle_request_eq.
Qed.

(** X6. An acknowledgment is consumed once: it resolves the request's promises
    with the message, and from then on the tracker does not know the event
    id: a second acknowledgment is not matched, a cancel does nothing, and
    the request's timer is gone. *)
Theorem ack_consumed es eid ack r :
  let t := run config es init in
  get eid t = Some r ->
  let t1 := (matchAck eid ack t).2 in
  (matchAck eid ack t).1 = true
  /\ settled t1 = settled t ++ map (fun p => (p, Resolved ack)) (listeners r)
  /\ (forall tm, tm ∈ timers t1 ->
        t_eventId tm <> eid /\ handle tm <> timeout r)
  /\ (forall ack', matchAck eid ack' t1 = (false, t1))
  /\ cancelRequest eid t1 = t1
  /\ step config t1 (TimerFired (timeout r)) = t1.
Proof.
  intros t Hg t1.
  assert (Hc1 : consistent t1)
    by (apply consistent_matchAck, consistent_run, consistent_init).
  subst t1. rewrite (matchAck_fields _ _ _ _ Hg) in *. simpl in *.
  set (t1 := {| pendingRequests := _ |}) in *.
  assert (Hnone : get eid t1 = None) by apply lookup_first_filter_eq.
  assert (Htm : forall tm, tm ∈ timers t1 ->
                  t_eventId tm <> eid /\ handle tm <> timeout r).
  { intros tm Htm. split.
    - intros Heq. destruct (timer_has_request _ Hc1 tm Htm) as (r' & Hr' & _).
      rewrite Heq in Hr'. congruence.
    - simpl in Htm. by apply list_elem_of_filter in Htm as [? _]. }
  split_and!; try done.
  - intros ack'. unfold matchAck. by rewrite Hnone.
  - unfold cancelRequest. by rewrite Hnone.
  - simpl. destruct (head _) as [tm|] eqn:Hh; [|done].
    apply head_filter_Some in Hh as [Hin Hh].
    by destruct (Htm tm Hin) as [_ ?].
Qed.

(** X7. Tracking a new event id and then matching its acknowledgment resolves
    the promise that was returned, with the message, and leaves the map and
    the timers as they were before the request was added. *)
Theorem track_then_ack es eid ety tmo now ack :
  let t := run config es init in
  get eid t = None ->
  let tracked := trackRequest config eid ety tmo now t in
  let acked := matchAck eid ack tracked.2 in
  acked.1 = true
  /\ settled acked.2 = settled tracked.2 ++ [(tracked.1, Resolved ack)]
  /\ (tracked.1 ∉ map fst (settled tracked.2))
  /\ pendingRequests acked.2 = pendingRequests (enforceLimit config t)
  /\ timers acked.2 = timers (enforceLimit config t)
  /\ get eid acked.2 = None.
Proof.
  intros t Hg tracked acked.
  assert (Hc : consistent t) by apply consistent_run, consistent_init.
  assert (Hc1 : consistent (enforceLimit config t))
    by by apply consistent_enforceLimit.
  assert (Hc2 : consistent tracked.2) by by apply consistent_trackRequest.
  pose proof (enforceLimit_get_None config _ _ Hg) as Hg1.
  destruct (enforceLimit_next config t) as (Hnp & Hnt & _).
  subst acked tracked. rewrite (trackRequest_new config _ _ _ _ _ Hg) in *.
  cbn [fst snd] in *.
  set (r := {| eventId := eid |}) in *.
  set (t2 := {| pendingRequests := _ |}) in *.
  assert (Hg2 : get eid t2 = Some r).
  { unfold get. simpl. rewrite lookup_first_app_new.
    unfold get in Hg1. rewrite Hg1. by rewrite decide_True. }
  rewrite (matchAck_fields _ _ _ _ Hg2). cbn [fst snd]. simpl.
  split_and!; try done.
  - intros Hin. pose proof (promises_unique _ Hc2) as Hnd.
    unfold promises, pending_promises in Hnd.
    rewrite <- (assoc_L (++)) in Hnd. simpl in Hnd.
    rewrite bind_app in Hnd. simpl in Hnd.
    rewrite <- !(assoc_L (++)) in Hnd.
    apply NoDup_app in Hnd as (_ & _ & Hnd). simpl in Hnd.
    apply NoDup_cons in Hnd as [Hnot _]. apply Hnot.
    rewrite !elem_of_app. auto.
  - rewrite filter_app. rewrite (filter_all _ (pendingRequests _)).
    + rewrite filter_cons_False by (simpl; tauto). by rewrite app_nil_r.
    + intros e He Heq. apply (get_None_keys eid) in Hg1. apply Hg1.
      rewrite <- Heq. by apply (list_elem_of_fmap_2 fst).
  - rewrite filter_app. rewrite (filter_all _ (timers _)).
    + rewrite filter_cons_False by (simpl; tauto). by rewrite app_nil_r.
    + intros tm Htm. simpl.
      destruct (timer_has_request _ Hc1 tm Htm) as (r' & Hr' & Hto & _).
      apply get_Some_elem in Hr'.
      pose proof (handles_bounded _ Hc1 _ Hr') as Hb. simpl in Hb. lia.
  - apply lookup_first_filter_eq.
Qed.

(** X8. [clear] rejects the promises of every pending request, in the order of
    the map, and leaves no request and no timer behind; [destroy] does the
    same and stops the sweep. *)
Theorem clear_disarms es now :
  let t := run config es init in
  let rejected :=
    pendingRequests t ≫= fun e =>
      map (fun p => (p, Rejected clear_message)) (listeners e.2) in
  (pendingRequests (clear t) = [] /\ timers (clear t) = []
   /\ settled (clear t) = settled t ++ rejected)
  /\ (pendingRequests (destroy t) = [] /\ timers (destroy t) = []
      /\ settled (destroy t) = settled t ++ rejected
      /\ step config (destroy t) (Sweep now) = destroy t).
Proof.
  intros t rejected.
  assert (Hc : consistent t) by apply consistent_run, consistent_init.
  assert (Hnone : filter (fun tm => handle tm ∉ map (fun e => timeout e.2)
                                                  (pendingRequests t))
                    (timers t) = []).
  { apply filter_none. intros tm Htm Hnot. apply Hnot.
    destruct (timer_has_request _ Hc tm Htm) as (r & Hr & Hto & _).
    apply get_Some_elem in Hr. rewrite <- Hto.
    by apply (list_elem_of_fmap_2 (fun e => timeout e.2) _ (t_eventId tm, r)). }
  unfold destroy, clear.
  destruct (clear_fold_fields (pendingRequests t) t)
    as (H1 & H2 & H3 & H4 & H5 & H6 & H7 & H8).
  destruct (clear_fold_fields (pendingRequests t) (set_cleanupTimer false t))
    as (G1 & G2 & G3 & G4 & G5 & G6 & G7 & G8).
  simpl in *. split; split_and!; try done.
  - by rewrite H2.
  - by rewrite G2.
  - by rewrite G8.
Qed.


(** *** Duplicate calls *)

Local Arguments listeners : simpl never.

Lemma fst_settle_listeners (o : Settlement) r :
  map fst (map (fun p => (p, o)) (listeners r)) = listeners r.
Proof. rewrite <- list_fmap_compose. apply list_fmap_id. Qed.

Lemma elem_of_listeners_filter (P : string * PendingRequest -> Prop)
    `{!forall e, Decision (P e)} (l : list (string * PendingRequest)) p :
  p ∈ filter P l ≫= (fun e => listeners e.2) ->
  p ∈ l ≫= (fun e => listeners e.2).
Proof.
  intros (e & Hp & He)%list_elem_of_bind. apply list_elem_of_bind.
  exists e. split; [done|]. by apply list_elem_of_filter in He as [_ ?].
Qed.

Lemma elem_of_settled_listeners (P : string * PendingRequest -> Prop)
    `{!forall e, Decision (P e)} (l : list (string * PendingRequest))
    (f : string * PendingRequest -> nat -> nat * Settlement) p :
  (forall e q, (f e q).1 = q) ->
  p ∈ map fst (filter P l ≫= fun e => map (f e) (listeners e.2)) ->
  p ∈ l ≫= (fun e => listeners e.2).
Proof.
  intros Hf (s & -> & Hs)%list_elem_of_fmap.
  apply list_elem_of_bind in Hs as (e & Hs & He).
  apply list_elem_of_fmap in Hs as (q & -> & Hq). rewrite Hf.
  apply list_elem_of_bind. exists e. split; [done|].
  by apply list_elem_of_filter in He as [_ ?].
Qed.

(** The promises a step leaves within reach were within reach before, or
    are new. *)
Lemma promises_step t (ev : Event) p :
  consistent t ->
  p ∈ promises (step config t ev) -> p ∈ promises t \/ nextPromise t <= p.
Proof.
  intros Hc. unfold promises, pending_promises. rewrite !elem_of_app.
  destruct ev as [eid ety tmo now|eid ack|eid| | |h|now| ]; simpl.
  - destruct (get eid t) as [r|] eqn:Hg.
    + unfold trackRequest. rewrite Hg. simpl. rewrite map_app, elem_of_app.
      simpl. rewrite list_elem_of_singleton. intros [[?|[?| ->]]|?]; auto.
    + rewrite (trackRequest_new config _ _ _ _ _ Hg). simpl.
      rewrite bind_app, elem_of_app. simpl. rewrite list_elem_of_singleton.
      assert (Hlimit :
        forall q,
          (q ∈ pendingRequests (enforceLimit config t)
                 ≫= (fun e => listeners e.2)
           \/ q ∈ map fst (settled (enforceLimit config t))) ->
          q ∈ pendingRequests t ≫= (fun e => listeners e.2)
          \/ q ∈ map fst (settled t)).
      { intros q. unfold enforceLimit.
        destruct (maxPendingRequests config <=? _); [|done].
        destruct (head _) as [oldest|] eqn:Hh; [|done].
        rewrite settle_request_eq. unfold delete, clearTimeout.
        cbn [settled pendingRequests set_settled set_pendingRequests
             set_timers].
        rewrite map_app, elem_of_app, fst_settle_listeners.
        intros [Hq|[Hq|Hq]]; auto.
        - left. by eapply elem_of_listeners_filter.
        - left. apply list_elem_of_bind. exists oldest. split; [done|].
          by apply sort_by_timestamp_head in Hh as [? _]. }
      intros [[[Hq| ->]|Hq]|Hq];
        [destruct (Hlimit p); auto | right; lia | auto
        | destruct (Hlimit p); auto].
  - destruct (get eid t) as [r|] eqn:Hg.
    + rewrite (matchAck_fields _ _ _ _ Hg).
      cbn [snd settled pendingRequests jobs].
      rewrite map_app, elem_of_app, fst_settle_listeners.
      intros [[Hq|Hq]|[Hq|Hq]]; auto.
      * do 3 left. by eapply elem_of_listeners_filter.
      * do 3 left. apply list_elem_of_bind. exists (eid, r).
        split; [done|]. by apply get_Some_elem.
    + unfold matchAck. rewrite Hg. simpl. tauto.
  - unfold cancelRequest. destruct (get eid t) as [r|] eqn:Hg; [|tauto].
    rewrite settle_request_eq. unfold delete, clearTimeout.
    cbn [settled pendingRequests jobs set_settled set_pendingRequests
         set_timers].
    rewrite map_app, elem_of_app, fst_settle_listeners.
    intros [[Hq|Hq]|[Hq|Hq]]; auto.
    * do 3 left. by eapply elem_of_listeners_filter.
    * do 3 left. apply list_elem_of_bind. exists (eid, r).
      split; [done|]. by apply get_Some_elem.
  - unfold clear.
    destruct (clear_fold_fields (pendingRequests t) t)
      as (H1 & H2 & H3 & H4 & _).
    cbn [set_pendingRequests pendingRequests settled jobs].
    rewrite H3, H4, map_app, elem_of_app.
    intros [[Hq|Hq]|[Hq|Hq]]; auto.
    + by apply elem_of_nil in Hq.
    + do 3 left. apply list_elem_of_fmap in Hq as (s & -> & Hs).
      apply list_elem_of_bind in Hs as (e & Hs & He).
      apply list_elem_of_fmap in Hs as (q' & -> & Hq').
      apply list_elem_of_bind. by exists e.
  - unfold destroy, clear.
    destruct (clear_fold_fields (pendingRequests t) (set_cleanupTimer false t))
      as (H1 & H2 & H3 & H4 & _).
    cbn [set_pendingRequests set_cleanupTimer pendingRequests settled jobs]
      in *.
    rewrite H3, H4, map_app, elem_of_app.
    intros [[Hq|Hq]|[Hq|Hq]]; auto.
    + by apply elem_of_nil in Hq.
    + do 3 left. apply list_elem_of_fmap in Hq as (s & -> & Hs).
      apply list_elem_of_bind in Hs as (e & Hs & He).
      apply list_elem_of_fmap in Hs as (q' & -> & Hq').
      apply list_elem_of_bind. by exists e.
  - destruct (head _) as [tm|] eqn:Hh; [|tauto].
    apply head_filter_Some in Hh as [Htm <-].
    destruct (timer_has_request _ Hc tm Htm) as (r & Hg & Hto & Hpr).
    destruct (timeoutCallback_fields tm r t Hg Hto)
      as (H1 & H2 & H3 & H4 & _).
    rewrite H1, H3, H4, map_app, elem_of_app. simpl.
    rewrite list_elem_of_singleton.
    intros [[Hq|Hq]|[Hq| ->]]; auto.
    + do 3 left. by eapply elem_of_listeners_filter.
    + do 3 left. apply list_elem_of_bind. exists (t_eventId tm, r).
      split; [|by apply get_Some_elem]. rewrite <- Hpr. left.
  - destruct (cleanupTimer t); [|tauto].
    destruct (cleanupOldRequests_fields config now t (keys_unique _ Hc))
      as (H1 & H2 & H3 & H4 & _).
    rewrite H1, H3, H4, map_app, elem_of_app.
    intros [[Hq|Hq]|[Hq|Hq]]; auto.
    + do 3 left. by eapply elem_of_listeners_filter.
    + do 3 left. apply list_elem_of_fmap in Hq as (s & -> & Hs).
      apply list_elem_of_bind in Hs as (e & Hs & He).
      apply list_elem_of_fmap in Hs as (q' & -> & Hq'). simpl.
      apply list_elem_of_bind. exists e. split; [done|].
      by apply list_elem_of_filter in He as [_ ?].
  - destruct (jobs t) as [|j rest] eqn:Hj.
    { rewrite Hj. tauto. }
    unfold runJob. cbn [set_pendingRequests set_jobs pendingRequests jobs
                        settled map].
    rewrite elem_of_cons.
    intros [[Hq|Hq]|Hq]; [|tauto|tauto].
    pose proof (wrap_listeners j (pendingRequests t) (handles_unique _ Hc))
      as Hsub.
    apply (elem_of_submseteq _ _ _ Hq) in Hsub.
    apply elem_of_cons in Hsub as [->|Hsub]; tauto.
Qed.

Lemma nextPromise_step t (ev : Event) :
  nextPromise t <= nextPromise (step config t ev).
Proof.
  destruct ev as [eid ety tmo now|eid ack|eid| | |h|now| ]; simpl.
  - destruct (get eid t) as [r|] eqn:Hg.
    + unfold trackRequest. rewrite Hg. simpl. lia.
    + rewrite (trackRequest_new config _ _ _ _ _ Hg). simpl. lia.
  - unfold matchAck. destruct (get eid t); [|done].
    by rewrite settle_request_eq.
  - unfold cancelRequest. destruct (get eid t); [|done].
    by rewrite settle_request_eq.
  - unfold clear.
    destruct (clear_fold_fields (pendingRequests t) t)
      as (_ & _ & _ & _ & _ & H6 & _). simpl. by rewrite H6.
  - unfold destroy, clear.
    destruct (clear_fold_fields (pendingRequests t) (set_cleanupTimer false t))
      as (_ & _ & _ & _ & _ & H6 & _). simpl in *. by rewrite H6.
  - destruct (head _) as [tm|] eqn:Hh; [|done].
    unfold timeoutCallback. destruct (get _ _); [|done].
    unfold handleTimeout. by destruct (get _ _).
  - destruct (cleanupTimer t); [|done]. unfold cleanupOldRequests.
    destruct (cleanup_fold_fields now (defaultTimeout config * 2)
                (pendingRequests t) t) as (_ & _ & _ & _ & _ & H6 & _).
    by rewrite H6.
  - by destruct (jobs t).
Qed.

Lemma abandoned_run es : forall t p,
  consistent t -> abandoned p t -> abandoned p (run config es t).
Proof.
  induction es as [|ev es IH]; intros t p Hc [Hlt Hnot]; simpl; [done|].
  apply IH; [by apply consistent_step|]. split.
  - pose proof (nextPromise_step t ev). lia.
  - intros Hin. apply promises_step in Hin as [?|?]; [done|lia|done].
Qed.


Lemma NoDup_map_inj {A B} (f : A -> B) (l : list A) x y :
  NoDup (map f l) -> x ∈ l -> y ∈ l -> f x = f y -> x = y.
Proof.
  induction l as [|z l IH]; simpl; intros Hnd Hx Hy Hf.
  - by apply elem_of_nil in Hx.
  - apply NoDup_cons in Hnd as [Hz Hnd].
    apply elem_of_cons in Hx as [->|Hx], Hy as [->|Hy]; auto.
    + exfalso. apply Hz. rewrite Hf. by apply list_elem_of_fmap_2.
    + exfalso. apply Hz. rewrite <- Hf. by apply list_elem_of_fmap_2.
Qed.

Lemma NoDup_bind_inj {A B} (f : A -> list B) (l : list A) x y b :
  NoDup (l ≫= f) -> x ∈ l -> y ∈ l -> b ∈ f x -> b ∈ f y -> x = y.
Proof.
  induction l as [|z l IH]; intros Hnd Hx Hy Hbx Hby.
  - by apply elem_of_nil in Hx.
  - rewrite bind_cons in Hnd. apply NoDup_app in Hnd as (_ & Hdis & Hnd).
    apply elem_of_cons in Hx as [->|Hx], Hy as [->|Hy]; auto.
    + exfalso. apply (Hdis b Hbx). apply list_elem_of_bind. by exists y.
    + exfalso. apply (Hdis b Hby). apply list_elem_of_bind. by exists x.
Qed.

Lemma NoDup_bind_each {A B} (f : A -> list B) (l : list A) x :
  NoDup (l ≫= f) -> x ∈ l -> NoDup (f x).
Proof.
  induction l as [|z l IH]; intros Hnd Hx.
  - by apply elem_of_nil in Hx.
  - rewrite bind_cons in Hnd. apply NoDup_app in Hnd as (Hz & _ & Hnd).
    apply elem_of_cons in Hx as [->|Hx]; auto.
Qed.

(** X9. A call of [trackRequest] for an event id that is already tracked
    arms no timer and adds no request: it returns a new promise, and once
    its promise job has run that promise is one of the request's, the last
    to be settled with it. *)
Theorem duplicate_joins es eid ety tmo now r :
  let t := run config es init in
  get eid t = Some r -> jobs t = [] ->
  let dup := trackRequest config eid ety tmo now t in
  let t' := step config dup.2 RunJob in
  dup.1 = nextPromise t
  /\ (pendingRequests dup.2 = pendingRequests t /\ timers dup.2 = timers t
      /\ settled dup.2 = settled t)
  /\ get eid t'
     = Some {| eventId := eventId r; eventType := eventType r;
               timestamp := timestamp r; promise := promise r;
               duplicates := duplicates r ++ [dup.1];
               timeout := timeout r |}
  /\ timers t' = timers t
  /\ forall ack,
       settled (matchAck eid ack t').2
       = settled t
         ++ map (fun p => (p, Resolved ack)) (listeners r ++ [dup.1]).
Proof.
  intros t Hg Hj dup t'. subst dup t'. unfold trackRequest. rewrite Hg.
  cbn [fst snd]. simpl step. rewrite Hj. cbn [app].
  set (j := {| j_request := timeout r; j_promise := nextPromise t |}).
  match goal with
  | |- context [get eid (runJob j ?x)] =>
      assert (Hget : get eid (runJob j x)
                 = Some {| eventId := eventId r; eventType := eventType r;
                           timestamp := timestamp r; promise := promise r;
                           duplicates := duplicates r ++ [nextPromise t];
                           timeout := timeout r |})
  end.
  { unfold get, runJob. cbn [pendingRequests set_pendingRequests set_jobs].
    rewrite wrap_lookup. unfold get in Hg. rewrite Hg. simpl.
    unfold wrap. by rewrite decide_True. }
  split_and!; try done.
  intros ack. rewrite (matchAck_fields _ _ _ _ Hget). done.
Qed.

(** X10. When the timer of a request fires, only the promise of the original
    call is rejected: the promises handed out to duplicate calls are not
    settled then, and nothing settles them later. *)
Theorem timeout_abandons_duplicates es eid r p es' :
  let t := run config es init in
  get eid t = Some r -> p ∈ duplicates r ->
  let t' := step config t (TimerFired (timeout r)) in
  (exists message,
     settled t' = settled t ++ [(promise r, Rejected message)])
  /\ get eid t' = None
  /\ (p ∉ map fst (settled (run config es' t'))).
Proof.
  intros t Hg Hp t'.
  assert (Hc : consistent t) by apply consistent_run, consistent_init.
  pose proof (get_Some_elem _ _ _ Hg) as Hin.
  destruct (request_has_timer _ Hc _ Hin) as (tm0 & Htm0 & Hh0 & _).
  simpl in Hh0.
  destruct (head (filter (fun tm => handle tm = timeout r) (timers t)))
    as [tm|] eqn:Hhead.
  2:{ apply head_None in Hhead.
      exfalso. eapply (filter_nil_not_elem_of _ _ tm0); eauto. }
  pose proof Hhead as [Htm Hh]%head_filter_Some.
  destruct (timer_has_request _ Hc tm Htm) as (r' & Hg' & Hto & Hpr).
  assert (Heq : (t_eventId tm, r') = (eid, r)).
  { apply (NoDup_map_inj (fun e => timeout e.2) (pendingRequests t));
      [apply (handles_unique _ Hc)|by apply get_Some_elem|done|].
    simpl. congruence. }
  injection Heq as Heid ->.
  destruct (timeoutCallback_fields tm r t Hg' Hto)
    as (H1 & H2 & H3 & H4 & H5 & H6 & H7).
  assert (Ht' : t' = timeoutCallback tm (clearTimeout (handle tm) t)).
  { subst t'. simpl. rewrite Hhead. by rewrite Hh. }
  rewrite Ht'. rewrite Heid in *.
  split; [|split].
  - eexists. rewrite H3, Hpr. done.
  - unfold get. rewrite H1. apply lookup_first_filter_eq.
  - assert (Hab : abandoned p (timeoutCallback tm (clearTimeout (handle tm) t))).
    { pose proof (promises_unique _ Hc) as Hnd.
      unfold promises, pending_promises in Hnd.
      apply NoDup_app in Hnd as (Hnd1 & Hdis1 & _).
      apply NoDup_app in Hnd1 as (Hnd2 & Hdis2 & _).
      assert (Hpl : p ∈ pendingRequests t ≫= (fun e => listeners e.2)).
      { apply list_elem_of_bind. exists (eid, r). split; [by right|done]. }
      split.
      - rewrite H6. apply (promises_bounded _ Hc).
        unfold promises, pending_promises. rewrite !elem_of_app. auto.
      - unfold promises, pending_promises. rewrite H1, H3, H4.
        rewrite !elem_of_app, map_app, elem_of_app. simpl.
        rewrite list_elem_of_singleton.
        intros [[Hq|Hq]|[Hq|Hq]].
        + apply list_elem_of_bind in Hq as (e & Hpe & He).
          apply list_elem_of_filter in He as [Hne He].
          assert (e = (eid, r)) as ->; [|done].
          apply (NoDup_bind_inj (fun e => listeners e.2)
                   (pendingRequests t) _ _ p); try done. by right.
        + by apply (Hdis2 p).
        + apply (Hdis1 p); [|done]. apply elem_of_app. by left.
        + pose proof (NoDup_bind_each (fun e => listeners e.2) _ _ Hnd2 Hin)
            as Hl.
          cbn [snd] in Hl. unfold listeners in Hl.
          apply NoDup_cons in Hl as [Hl _]. apply Hl. by rewrite Hpr, <- Hq. }
    assert (Hc' : consistent (timeoutCallback tm (clearTimeout (handle tm) t))).
    { rewrite <- Ht'. by apply consistent_step. }
    destruct (abandoned_run es' _ p Hc' Hab) as [_ Hnot].
    intros Hs. apply Hnot. unfold promises. apply elem_of_app. by right.
Qed.

End TrackerUse.

Section TrackerUseWitnesses.

Import Tracker.

Lemma ack_consumed_witness :
  let t := run defaultConfig slow_request init in
  let t1 := (matchAck "e1" start_ack t).2 in
  (matchAck "e1" start_ack t).1 = true
  /\ settled t1
     = settled t
       ++ map (fun p => (p, Resolved start_ack)) (listeners first_request)
  /\ (forall tm, tm ∈ timers t1 ->
        t_eventId tm <> "e1" /\ handle tm <> timeout first_request)
  /\ (forall ack', matchAck "e1" ack' t1 = (false, t1))
  /\ cancelRequest "e1" t1 = t1
  /\ step defaultConfig t1 (TimerFired (timeout first_request)) = t1.
Proof.
  apply (ack_consumed defaultConfig slow_request "e1" start_ack
           first_request).
  reflexivity.
Defined.

Lemma track_then_ack_witness :
  let t := run defaultConfig slow_request init in
  let tracked := trackRequest defaultConfig "e2" "voicechat.audio.end" None 7
                   t in
  let acked := matchAck "e2" start_ack tracked.2 in
  acked.1 = true
  /\ settled acked.2 = settled tracked.2 ++ [(tracked.1, Resolved start_ack)]
  /\ (tracked.1 ∉ map fst (settled tracked.2))
  /\ pendingRequests acked.2 = pendingRequests (enforceLimit defaultConfig t)
  /\ timers acked.2 = timers (enforceLimit defaultConfig t)
  /\ get "e2" acked.2 = None.
Proof.
  apply (track_then_ack defaultConfig slow_request "e2"
           "voicechat.audio.end" None 7 start_ack).
  reflexivity.
Defined.

Lemma duplicate_joins_witness :
  let t := run defaultConfig slow_request init in
  let dup := trackRequest defaultConfig "e1" "voicechat.audio.start" None 5
               t in
  let t' := step defaultConfig dup.2 RunJob in
  dup.1 = nextPromise t
  /\ (pendingRequests dup.2 = pendingRequests t /\ timers dup.2 = timers t
      /\ settled dup.2 = settled t)
  /\ get "e1" t'
     = Some {| eventId := eventId first_request;
               eventType := eventType first_request;
               timestamp := timestamp first_request;
               promise := promise first_request;
               duplicates := duplicates first_request ++ [dup.1];
               timeout := timeout first_request |}
  /\ timers t' = timers t
  /\ forall ack,
       settled (matchAck "e1" ack t').2
       = settled t
         ++ map (fun p => (p, Resolved ack))
              (listeners first_request ++ [dup.1]).
Proof.
  apply (duplicate_joins defaultConfig slow_request "e1"
           "voicechat.audio.start" None 5 first_request).
  - reflexivity.
  - reflexivity.
Defined.

Lemma timeout_abandons_duplicates_witness :
  let t := run defaultConfig repeated_request init in
  let t' := step defaultConfig t (TimerFired (timeout joined_request)) in
  (exists message,
     settled t' = settled t ++ [(promise joined_request, Rejected message)])
  /\ get "e1" t' = None
  /\ (1 ∉ map fst (settled (run defaultConfig [Clear] t'))).
Proof.
  apply (timeout_abandons_duplicates defaultConfig repeated_request "e1"
           joined_request 1 [Clear]).
  - reflexivity.
  - simpl. constructor.
Defined.

End TrackerUseWitnesses.

(** ** SocketClient: queued frames, disconnect, state events *)

Section ClientUse.

Import Client.
Variable wsConfig : WebSocketConfig.
Variable url_ok : string -> bool.
Implicit Types (c : SocketClient).

(** *** Frames queued while connecting *)

Lemma wire_frames_app h1 h2 :
  wire_frames (h1 ++ h2) = wire_frames h1 ++ wire_frames h2.
Proof. apply omap_app. Qed.

Lemma settle_phase (waiters : list (nat * Data)) : forall c,
  let c' := foldl (fun c w => waiter_settle w c) c waiters in
  wire_frames (history c') = wire_frames (history c)
  /\ connectionWaiters c'
     = filter (fun x => x.1 ∉ map fst waiters) (connectionWaiters c)
  /\ state c' = state c /\ ws c' = ws c /\ sockets c' = sockets c
  /\ reconnectAttempts c' = reconnectAttempts c.
Proof.
  induction waiters as [|w waiters IH]; intros c; simpl.
  - split_and!; try done.
    symmetry. apply filter_all. intros x _. apply not_elem_of_nil.
  - destruct (IH (waiter_settle w c)) as (H1 & H2 & H3 & H4 & H5 & H6).
    rewrite H1, H2, H3, H4, H5, H6. unfold waiter_settle. simpl.
    rewrite wire_frames_app. simpl. rewrite app_nil_r.
    split_and!; try done.
    rewrite list_filter_filter. apply list_filter_iff.
    intros x. rewrite not_elem_of_cons. tauto.
Qed.

Lemma flush_fold i (waiters : list (nat * Data)) : forall c,
  ws c = Some i -> sockets c !! i = Some OPEN ->
  let c' := foldl (fun c w => sendAfterWait w.2 c) c waiters in
  wire_frames (history c')
  = wire_frames (history c) ++ map (fun w => (i, w.2)) waiters
  /\ connectionWaiters c' = connectionWaiters c
  /\ state c' = state c /\ ws c' = ws c /\ sockets c' = sockets c
  /\ reconnectAttempts c' = reconnectAttempts c.
Proof.
  induction waiters as [|w waiters IH]; intros c Hws Hopen; simpl.
  - rewrite app_nil_r. by split_and!.
  - assert (Hw : sendAfterWait w.2 c = observe [WireSent i w.2] c).
    { unfold sendAfterWait, sendImmediately.
      rewrite Hws, Hopen. done. }
    rewrite Hw.
    destruct (IH (observe [WireSent i w.2] c))
      as (H1 & H2 & H3 & H4 & H5 & H6); [done|done|].
    rewrite H1, H2, H3, H4, H5, H6. simpl.
    rewrite wire_frames_app, <- app_assoc. by split_and!.
Qed.

(** X11. When the socket the client is connecting opens, the frames of the
    sends that were waiting for the connection are written to it, in the
    order the sends were issued, and no waiter is left. *)
Theorem open_flushes_queue c i :
  ws c = Some i -> sockets c !! i = Some CONNECTING ->
  let c' := step wsConfig url_ok c (WsOpen i) in
  wire_frames (history c')
  = wire_frames (history c)
    ++ map (fun w => (i, w.2)) (connectionWaiters c)
  /\ connectionWaiters c' = []
  /\ state c' = connected /\ reconnectAttempts c' = 0.
Proof.
  intros Hws Hconn. simpl. rewrite Hconn.
  unfold onopen, resumeConnectionWaiters.
  set (c1 := set_connectionWaiters [] _).
  assert (Hws1 : ws c1 = Some i).
  { subst c1. simpl. unfold setState. by case_match. }
  assert (Hopen1 : sockets c1 !! i = Some OPEN).
  { subst c1. simpl. unfold setState.
    case_match; simpl; apply list_lookup_insert_eq;
      by eapply lookup_lt_Some. }
  assert (Hw1 : connectionWaiters
                  (startPingTimer
                     (set_reconnectAttempts 0
                        (setState connected
                           (set_sockets (<[i:=OPEN]> (sockets c)) c))))
                = connectionWaiters c).
  { simpl. unfold setState. by case_match. }
  rewrite Hw1. cbv zeta.
  destruct (settle_phase (connectionWaiters c) c1)
    as (S1 & S2 & S3 & S4 & S5 & S6).
  set (c2 := foldl (fun c w => waiter_settle w c) c1 (connectionWaiters c))
    in *.
  destruct (flush_fold i (connectionWaiters c) c2)
    as (H1 & H2 & H3 & H4 & H5 & H6); [congruence|congruence|].
  rewrite H1, H2, H3, H6, S1, S2, S3, S6. subst c1. simpl.
  split_and!; try done.
  - f_equal. unfold setState. case_match; simpl; [done|].
    rewrite wire_frames_app. simpl. by rewrite app_nil_r.
  - apply state_setState.
Qed.


(** *** After [disconnect] *)

Lemma stays_refl c : stays_quiet c c.
Proof. by intros Hq. Qed.

Lemma stays_trans c1 c2 c3 :
  stays_quiet c1 c2 -> stays_quiet c2 c3 -> stays_quiet c1 c3.
Proof.
  intros H12 H23 Hq. destruct (H12 Hq) as [Hq2 Hl2].
  destruct (H23 Hq2) as [Hq3 Hl3]. split; [done|congruence].
Qed.

Lemma stays_same c c' :
  shouldReconnect c' = shouldReconnect c ->
  reconnectTimer c' = reconnectTimer c ->
  length (sockets c') = length (sockets c) ->
  stays_quiet c c'.
Proof. intros H1 H2 H3 [Hs Ht]. split; [split|]; congruence. Qed.

Lemma stays_setState n c : stays_quiet c (setState n c).
Proof. unfold setState. case_match; [apply stays_refl|by apply stays_same]. Qed.

Lemma stays_scheduleReconnect c : stays_quiet c (scheduleReconnect wsConfig c).
Proof.
  intros [Hs Ht]. unfold scheduleReconnect. by rewrite Ht, Hs.
Qed.

Lemma stays_ws_close i c : stays_quiet c (ws_close i c).
Proof.
  unfold ws_close. repeat case_match; try apply stays_refl;
    apply stays_same; simpl; try done; by rewrite length_insert.
Qed.

Ltac stays :=
  lazymatch goal with
  | |- stays_quiet ?c ?c => apply stays_refl
  | |- stays_quiet ?c (setState ?n ?x) =>
      apply (stays_trans c x); [stays|apply stays_setState]
  | |- stays_quiet ?c (scheduleReconnect _ ?x) =>
      apply (stays_trans c x); [stays|apply stays_scheduleReconnect]
  | |- stays_quiet ?c (ws_close ?i ?x) =>
      apply (stays_trans c x); [stays|apply stays_ws_close]
  | |- stays_quiet ?c (observe ?o ?x) =>
      apply (stays_trans c x); [stays|by apply stays_same]
  | |- stays_quiet ?c (set_ws ?v ?x) =>
      apply (stays_trans c x); [stays|by apply stays_same]
  | |- stays_quiet ?c (set_currentUrl ?v ?x) =>
      apply (stays_trans c x); [stays|by apply stays_same]
  | |- stays_quiet ?c (set_reconnectAttempts ?v ?x) =>
      apply (stays_trans c x); [stays|by apply stays_same]
  | |- stays_quiet ?c (set_connectionWaiters ?v ?x) =>
      apply (stays_trans c x); [stays|by apply stays_same]
  | |- stays_quiet ?c (set_nextWaiter ?v ?x) =>
      apply (stays_trans c x); [stays|by apply stays_same]
  | |- stays_quiet ?c (set_pingTimer ?v ?x) =>
      apply (stays_trans c x); [stays|by apply stays_same]
  | |- stays_quiet ?c (set_isOnline ?v ?x) =>
      apply (stays_trans c x); [stays|by apply stays_same]
  | |- stays_quiet ?c (startPingTimer ?x) =>
      apply (stays_trans c x); [stays|by apply stays_same]
  | |- stays_quiet ?c (stopPingTimer ?x) =>
      apply (stays_trans c x); [stays|by apply stays_same]
  | |- stays_quiet ?c (if ?b then _ else _) => destruct b; stays
  | |- stays_quiet ?c (match ?o with _ => _ end) => destruct o; stays
  end.

Lemma stays_sendAfterWait d c : stays_quiet c (sendAfterWait d c).
Proof. unfold sendAfterWait, sendImmediately. stays. Qed.

Lemma stays_waiter_resolve w c : stays_quiet c (waiter_resolve w c).
Proof.
  unfold waiter_resolve.
  eapply stays_trans; [|apply stays_sendAfterWait].
  unfold waiter_settle. stays.
Qed.

Lemma stays_waiter_reject m w c : stays_quiet c (waiter_reject m w c).
Proof. unfold waiter_reject. stays. Qed.

Lemma stays_resume success c :
  stays_quiet c (resumeConnectionWaiters success c).
Proof.
  unfold resumeConnectionWaiters. cbv zeta.
  eapply stays_trans;
    [by apply (stays_same c (set_connectionWaiters [] c))|].
  destruct success.
  - match goal with
    | |- stays_quiet ?x (foldl _ (foldl ?g ?x ?l) ?l) =>
        apply (stays_trans x (foldl g x l))
    end.
    + apply (foldl_preorder stays_quiet); [apply stays_refl|apply stays_trans|].
      intros a b. unfold waiter_settle. stays.
    + apply (foldl_preorder stays_quiet (fun c w => sendAfterWait w.2 c));
        [apply stays_refl|apply stays_trans|].
      intros a b. apply stays_sendAfterWait.
  - apply (foldl_preorder stays_quiet); [apply stays_refl|apply stays_trans|].
    intros a b. apply stays_waiter_reject.
Qed.

Lemma stays_drop_ws c :
  stays_quiet c match ws c with
                | Some i => set_ws None (ws_close i c)
                | None => c
                end.
Proof. stays. Qed.

Lemma disconnect_quiet clear c :
  quiet (disconnect clear c)
  /\ length (sockets (disconnect clear c)) = length (sockets c).
Proof.
  set (c1 := set_reconnectTimer None (set_shouldReconnect false c)).
  assert (Hq1 : quiet c1) by done.
  assert (Hs : stays_quiet c1 (disconnect clear c)).
  { unfold disconnect. fold c1.
    assert (H2 : stays_quiet c1 (resumeConnectionWaiters false c1))
      by apply stays_resume.
    set (c2 := resumeConnectionWaiters false c1) in *.
    assert (H3 : stays_quiet c2 match ws c2 with
                               | Some i => set_ws None (ws_close i c2)
                               | None => c2
                               end) by apply stays_drop_ws.
    set (c3 := match ws c2 with
               | Some i => set_ws None (ws_close i c2)
               | None => c2
               end) in *.
    apply (stays_trans _ c2); [done|]. apply (stays_trans _ c3); [done|].
    stays. }
  destruct (Hs Hq1) as [Hq Hl]. split; [done|]. exact Hl.
Qed.

Lemma stays_step c e : passive e = true -> stays_quiet c (step wsConfig url_ok c e).
Proof.
  intros He. destruct e as [url|clear|d|id| |i|i|i code|i|online| ];
    try done; simpl.
  - intros _. destruct (disconnect_quiet clear c). done.
  - unfold waiterTimeoutCallback. stays.
  - intros [Hs Ht]. by rewrite Ht.
  - destruct (sockets c !! i) as [[]|]; try apply stays_refl.
    unfold onopen.
    eapply stays_trans; [|apply stays_resume].
    assert (H1 : stays_quiet c (set_sockets (<[i:=OPEN]> (sockets c)) c))
      by (apply stays_same; simpl; try done; by rewrite length_insert).
    eapply stays_trans; [exact H1|]. stays.
  - destruct (sockets c !! i) as [[]|]; try apply stays_refl;
      unfold onerror; stays.
  - assert (Hclose : stays_quiet c
              (onclose wsConfig code
                 (set_sockets (<[i:=CLOSED]> (sockets c)) c))).
    { assert (H1 : stays_quiet c (set_sockets (<[i:=CLOSED]> (sockets c)) c))
        by (apply stays_same; simpl; try done; by rewrite length_insert).
      eapply stays_trans; [exact H1|]. unfold onclose.
      set (c2 := resumeConnectionWaiters false _).
      assert (H2 : stays_quiet (set_sockets (<[i:=CLOSED]> (sockets c)) c) c2).
      { subst c2. eapply stays_trans; [|apply stays_resume]. stays. }
      eapply stays_trans; [exact H2|]. stays. }
    destruct (sockets c !! i) as [[]|]; try apply stays_refl; done.
  - destruct (sockets c !! i) as [[]|]; try apply stays_refl.
    apply stays_same; simpl; try done. by rewrite length_insert.
  - destruct (Bool.eqb (isOnline c) online); [apply stays_refl|].
    unfold onNetworkChange. stays.
  - destruct (pingTimer c); [|apply stays_refl].
    unfold pingTimerCallback, handlePingFailure.
    destruct (negb (isConnected c) || _); [stays|].
    destruct (negb (ready_is OPEN (ws_readyState c))); [|apply stays_refl].
    set (c1 := setState disconnected c).
    assert (H1 : stays_quiet c c1) by apply stays_setState.
    eapply stays_trans; [exact H1|].
    assert (H2 : stays_quiet c1 match ws c1 with
                               | Some i => set_ws None (ws_close i c1)
                               | None => c1
                               end) by apply stays_drop_ws.
    eapply stays_trans; [exact H2|]. stays.
Qed.

(** X12. After [disconnect] the client makes no connection attempt of its own:
    until [connect] or [send] is called, no reconnect timer is armed and no
    socket is created, whatever the platform reports. *)
Theorem disconnect_is_quiet c0 clear es :
  forallb passive es = true ->
  let c := run wsConfig url_ok es (disconnect clear c0) in
  shouldReconnect c = false /\ reconnectTimer c = None
  /\ length (sockets c) = length (sockets c0).
Proof.
  intros Hes c.
  destruct (disconnect_quiet clear c0) as [Hq Hl].
  assert (H : quiet c /\ length (sockets c) = length (sockets c0)).
  { subst c. rewrite <- Hl. revert Hq Hes. generalize (disconnect clear c0).
    induction es as [|e es IH]; intros c1 Hq Hes; simpl in *; [done|].
    apply andb_prop in Hes as [He Hes].
    destruct (stays_step c1 e He Hq) as [Hq' Hl'].
    rewrite <- Hl'. by apply IH. }
  destruct H as [[? ?] ?]. done.
Qed.


(** *** The ['state'] event *)

Lemma last_state_app s h1 h2 :
  last_state s (h1 ++ h2) = last_state (last_state s h1) h2.
Proof. apply foldl_app. Qed.

Lemma emits_changes_app s h1 h2 :
  emits_changes s (h1 ++ h2)
  = emits_changes s h1 && emits_changes (last_state s h1) h2.
Proof.
  revert s. induction h1 as [|o h1 IH]; intros s; [done|].
  destruct o; simpl; rewrite ?IH; try done. by rewrite andb_assoc.
Qed.

Lemma follows_refl c : follows c c.
Proof. exists []. by rewrite app_nil_r. Qed.

Lemma follows_trans c1 c2 c3 : follows c1 c2 -> follows c2 c3 -> follows c1 c3.
Proof.
  intros (h1 & H1 & L1 & E1) (h2 & H2 & L2 & E2). exists (h1 ++ h2).
  rewrite H2, H1, <- app_assoc, last_state_app, emits_changes_app.
  rewrite L1, E1. done.
Qed.

Lemma follows_same c c' :
  history c' = history c -> state c' = state c -> follows c c'.
Proof. intros Hh Hs. exists []. by rewrite app_nil_r, Hh, Hs. Qed.

Lemma follows_setState n c : follows c (setState n c).
Proof.
  unfold setState. destruct (ConnectionState_eqb (state c) n) eqn:Hn.
  - apply follows_refl.
  - exists [StateEmitted n]. simpl. by rewrite Hn.
Qed.

Lemma follows_observe o c :
  (forall s, last_state s o = s /\ emits_changes s o = true) ->
  follows c (observe o c).
Proof. intros Ho. exists o. by destruct (Ho (state c)). Qed.

Ltac follow :=
  lazymatch goal with
  | |- follows ?c ?c => apply follows_refl
  | |- follows ?c (setState ?n ?x) =>
      apply (follows_trans c x); [follow|apply follows_setState]
  | |- follows ?c (observe ?o ?x) =>
      apply (follows_trans c x); [follow|by apply follows_observe]
  | |- follows ?c (set_sockets ?v ?x) =>
      apply (follows_trans c x); [follow|by apply follows_same]
  | |- follows ?c (set_ws ?v ?x) =>
      apply (follows_trans c x); [follow|by apply follows_same]
  | |- follows ?c (set_currentUrl ?v ?x) =>
      apply (follows_trans c x); [follow|by apply follows_same]
  | |- follows ?c (set_reconnectAttempts ?v ?x) =>
      apply (follows_trans c x); [follow|by apply follows_same]
  | |- follows ?c (set_reconnectTimer ?v ?x) =>
      apply (follows_trans c x); [follow|by apply follows_same]
  | |- follows ?c (set_shouldReconnect ?v ?x) =>
      apply (follows_trans c x); [follow|by apply follows_same]
  | |- follows ?c (set_connectionWaiters ?v ?x) =>
      apply (follows_trans c x); [follow|by apply follows_same]
  | |- follows ?c (set_nextWaiter ?v ?x) =>
      apply (follows_trans c x); [follow|by apply follows_same]
  | |- follows ?c (set_pingTimer ?v ?x) =>
      apply (follows_trans c x); [follow|by apply follows_same]
  | |- follows ?c (set_isOnline ?v ?x) =>
      apply (follows_trans c x); [follow|by apply follows_same]
  | |- follows ?c (startPingTimer ?x) =>
      apply (follows_trans c x); [follow|by apply follows_same]
  | |- follows ?c (stopPingTimer ?x) =>
      apply (follows_trans c x); [follow|by apply follows_same]
  | |- follows ?c (if ?b then _ else _) => destruct b; follow
  | |- follows ?c (match ?o with _ => _ end) => destruct o; follow
  end.

Lemma follows_ws_close i c : follows c (ws_close i c).
Proof. unfold ws_close. follow. Qed.

Lemma follows_scheduleReconnect c : follows c (scheduleReconnect wsConfig c).
Proof. unfold scheduleReconnect. cbv zeta. follow. Qed.

Lemma follows_connect url c : follows c (connect wsConfig url_ok url c).
Proof.
  unfold connect. cbv zeta.
  destruct (ready_is OPEN _); [apply follows_refl|].
  destruct (ready_is CONNECTING _); [apply follows_refl|].
  destruct (negb (isOnline c)); [follow|].
  destruct (url_ok url); [follow|].
  eapply follows_trans; [|apply follows_scheduleReconnect]. follow.
Qed.

Lemma follows_sendAfterWait d c : follows c (sendAfterWait d c).
Proof. unfold sendAfterWait, sendImmediately. follow. Qed.

Lemma follows_waiter_resolve w c : follows c (waiter_resolve w c).
Proof.
  unfold waiter_resolve.
  eapply follows_trans; [|apply follows_sendAfterWait].
  unfold waiter_settle. follow.
Qed.

Lemma follows_waiter_reject m w c : follows c (waiter_reject m w c).
Proof. unfold waiter_reject. follow. Qed.

Lemma follows_resume success c :
  follows c (resumeConnectionWaiters success c).
Proof.
  unfold resumeConnectionWaiters. cbv zeta.
  eapply follows_trans;
    [by apply (follows_same c (set_connectionWaiters [] c))|].
  destruct success.
  - match goal with
    | |- follows ?x (foldl _ (foldl ?g ?x ?l) ?l) =>
        apply (follows_trans x (foldl g x l))
    end.
    + apply (foldl_preorder follows); [apply follows_refl|apply follows_trans|].
      intros a b. unfold waiter_settle. follow.
    + apply (foldl_preorder follows (fun c w => sendAfterWait w.2 c));
        [apply follows_refl|apply follows_trans|].
      intros a b. apply follows_sendAfterWait.
  - apply (foldl_preorder follows); [apply follows_refl|apply follows_trans|].
    intros a b. apply follows_waiter_reject.
Qed.

Lemma follows_drop_ws c :
  follows c match ws c with
            | Some i => set_ws None (ws_close i c)
            | None => c
            end.
Proof.
  destruct (ws c) as [i|]; [|apply follows_refl].
  eapply follows_trans; [apply (follows_ws_close i)|]. by apply follows_same.
Qed.

Lemma follows_disconnect clear c : follows c (disconnect clear c).
Proof.
  unfold disconnect.
  set (c1 := resumeConnectionWaiters false _).
  assert (H1 : follows c c1).
  { subst c1. eapply follows_trans; [|apply follows_resume]. follow. }
  eapply follows_trans; [exact H1|].
  pose proof (follows_drop_ws c1) as H2.
  set (c2 := match ws c1 with
             | Some i => set_ws None (ws_close i c1)
             | None => c1
             end) in *.
  eapply follows_trans; [exact H2|]. follow.
Qed.

Lemma follows_handlePingFailure c : follows c (handlePingFailure wsConfig c).
Proof.
  unfold handlePingFailure.
  set (c1 := setState disconnected c).
  assert (H1 : follows c c1) by apply follows_setState.
  eapply follows_trans; [exact H1|].
  pose proof (follows_drop_ws c1) as H2.
  set (c2 := match ws c1 with
             | Some i => set_ws None (ws_close i c1)
             | None => c1
             end) in *.
  eapply follows_trans; [exact H2|].
  destruct (_ && _); [apply follows_scheduleReconnect|apply follows_refl].
Qed.

Lemma follows_waitForConnection d c :
  follows c (waitForConnection wsConfig url_ok d c).
Proof.
  unfold waitForConnection.
  destruct (isConnected c); [apply follows_sendAfterWait|].
  destruct (_ || _); [follow|].
  set (c1 := match currentUrl c with
             | Some url => _
             | None => c
             end).
  assert (H1 : follows c c1).
  { subst c1. destruct (currentUrl c); [|apply follows_refl].
    destruct (_ && _); [apply follows_connect|apply follows_refl]. }
  eapply follows_trans; [exact H1|]. cbv zeta.
  destruct (isConnected _).
  - eapply follows_trans; [|apply follows_waiter_resolve]. follow.
  - follow.
Qed.

Lemma follows_step c e : follows c (step wsConfig url_ok c e).
Proof.
  destruct e as [url|clear|d|id| |i|i|i code|i|online| ]; simpl.
  - apply follows_connect.
  - apply follows_disconnect.
  - unfold send. destruct (_ && _).
    + unfold sendImmediately. follow.
    + apply follows_waitForConnection.
  - unfold waiterTimeoutCallback. follow.
  - destruct (bool_decide _); [|apply follows_refl].
    unfold reconnectTimerCallback. cbv zeta.
    destruct (negb (isOnline _)); [follow|].
    destruct (isConnected _); [follow|].
    destruct (ConnectionState_eqb _ _); [follow|].
    destruct (truthy _) as [url|]; [|follow].
    eapply follows_trans; [|apply follows_connect]. follow.
  - destruct (sockets c !! i) as [[]|]; try apply follows_refl.
    unfold onopen. eapply follows_trans; [|apply follows_resume]. follow.
  - destruct (sockets c !! i) as [[]|]; try apply follows_refl;
      unfold onerror; follow.
  - assert (Hclose : follows c
              (onclose wsConfig code
                 (set_sockets (<[i:=CLOSED]> (sockets c)) c))).
    { unfold onclose.
      set (c2 := resumeConnectionWaiters false _).
      assert (H2 : follows c c2).
      { subst c2. eapply follows_trans; [|apply follows_resume]. follow. }
      eapply follows_trans; [exact H2|].
      destruct (_ && _); [apply follows_scheduleReconnect|apply follows_refl]. }
    destruct (sockets c !! i) as [[]|]; try apply follows_refl; done.
  - destruct (sockets c !! i) as [[]|]; try apply follows_refl.
    by apply follows_same.
  - destruct (Bool.eqb (isOnline c) online); [apply follows_refl|].
    unfold onNetworkChange.
    destruct (_ && _); [|by apply follows_same].
    eapply follows_trans; [|apply follows_scheduleReconnect].
    by apply follows_same.
  - destruct (pingTimer c); [|apply follows_refl].
    unfold pingTimerCallback.
    destruct (_ || _); [follow|].
    destruct (negb _); [apply follows_handlePingFailure|apply follows_refl].
Qed.

(** X13. The ['state'] events tell the state: after every run, the state of
    the last ['state'] event is the state of the client ([disconnected] when
    there was none), and every ['state'] event carries a state other than
    the one before it. *)
Theorem state_events_mirror online es :
  let c := run wsConfig url_ok es (init online) in
  last_state disconnected (history c) = state c
  /\ emits_changes disconnected (history c) = true.
Proof.
  intros c.
  assert (H : follows (init online) c).
  { subst c. generalize (init online).
    induction es as [|e es IH]; intros c0; simpl; [apply follows_refl|].
    eapply follows_trans; [apply follows_step|apply IH]. }
  destruct H as (h & Hh & Hl & He). simpl in *. by rewrite Hh.
Qed.

End ClientUse.

Section ClientUseWitnesses.

Import Client.

Lemma open_flushes_queue_witness :
  let c := run defaultConfig accept_url latent_send (init true) in
  let c' := step defaultConfig accept_url c (WsOpen 0) in
  wire_frames (history c')
  = wire_frames (history c)
    ++ map (fun w => (0, w.2)) (connectionWaiters c)
  /\ connectionWaiters c' = []
  /\ state c' = connected /\ reconnectAttempts c' = 0.
Proof.
  apply (open_flushes_queue defaultConfig accept_url
           (run defaultConfig accept_url latent_send (init true)) 0).
  - reflexivity.
  - reflexivity.
Defined.

Lemma disconnect_is_quiet_witness :
  let c0 := run defaultConfig accept_url latent_send (init true) in
  let c := run defaultConfig accept_url
             [WsClose 0 CLOSE_ABNORMAL; ReconnectTimerFired;
              NetworkChange false; NetworkChange true; PingTick]
             (disconnect false c0) in
  shouldReconnect c = false /\ reconnectTimer c = None
  /\ length (sockets c) = length (sockets c0).
Proof.
  apply (disconnect_is_quiet defaultConfig accept_url
           (run defaultConfig accept_url latent_send (init true)) false
           [WsClose 0 CLOSE_ABNORMAL; ReconnectTimerFired;
            NetworkChange false; NetworkChange true; PingTick]).
  reflexivity.
Defined.

End ClientUseWitnesses.

(** ** HandlerRegistry: registration and routing *)

Section SuffixFacts.

Lemma string_length_app (s t : string) :
  String.length (s +:+ t) = String.length s + String.length t.
Proof. induction s as [|a s IH]; simpl; [done|]. by rewrite IH. Qed.

Lemma substring_all (s : string) : String.substring 0 (String.length s) s = s.
Proof. induction s as [|a s IH]; simpl; [done|]. by rewrite IH. Qed.

Lemma substring_suffix (s t : string) :
  String.substring (String.length s) (String.length t) (s +:+ t) = t.
Proof. induction s as [|a s IH]; simpl; [apply substring_all|done]. Qed.

Lemma substring_prefix (s t : string) :
  String.substring 0 (String.length s) (s +:+ t) = s.
Proof.
  induction s as [|a s IH]; simpl.
  - by destruct t.
  - by rewrite IH.
Qed.

Lemma endsWith_app (s suffix : string) : endsWith (s +:+ suffix) suffix = true.
Proof.
  unfold endsWith. rewrite string_length_app.
  replace (String.length s + String.length suffix - String.length suffix)
    with (String.length s) by lia.
  rewrite substring_suffix, String.eqb_refl, andb_true_r.
  apply Nat.leb_le. lia.
Qed.

Lemma stripErrorSuffix_app (s : string) : stripErrorSuffix (s +:+ ".error") = s.
Proof.
  unfold stripErrorSuffix. rewrite endsWith_app, string_length_app.
  replace (String.length s + String.length ".error" - 6)
    with (String.length s) by (simpl; lia).
  apply substring_prefix.
Qed.

End SuffixFacts.

Section RegistryUse.

Import Registry.
Context {Handler Message : Type}.
Variable handle : Handler -> Message -> string -> HandleResult.
Implicit Types (reg : HandlerRegistry Handler).

(** X14. What a routing run reports: [true] when a handler was found and
    returned, [false] when none was found or the one found threw; no
    exception leaves [routeMessage]. *)
Theorem route_reports reg msg ty :
  handled (routeMessage handle reg msg ty)
  = Some match first_found (lookup_order reg ty) with
         | Some h =>
             match handle h msg ty with
             | Returned => true
             | Threw _ => false
             end
         | None => false
         end.
Proof.
  rewrite route_selects.
  destruct (first_found (lookup_order reg ty)) as [h|]; [|done].
  destruct (handle h msg ty) as [|e] eqn:E.
  - by rewrite (invoke_returned _ _ _ _ E).
  - by rewrite (invoke_threw _ _ _ _ _ E).
Qed.

(** X15. An error handler registered under an event type receives the events of
    that type with the suffix [.error], unless an error handler is
    registered under the suffixed type itself. *)
Theorem error_handler_covers_base reg base h msg :
  errorHandlers reg !! (base +:+ ".error") = None ->
  invoked (routeMessage handle (registerErrorHandler base h reg) msg
             (base +:+ ".error"))
  = [h].
Proof.
  intros Hnone. rewrite route_selects.
  assert (Hsel : first_found
                   (lookup_order (registerErrorHandler base h reg)
                      (base +:+ ".error")) = Some h).
  { unfold lookup_order. rewrite endsWith_app, stripErrorSuffix_app. simpl.
    rewrite lookup_insert_ne, Hnone, lookup_insert_eq; [done|].
    intros Heq. apply (f_equal String.length) in Heq.
    rewrite string_length_app in Heq. simpl in Heq. lia. }
  rewrite Hsel. apply invoked_through.
Qed.

(** X16. For an event type that does not end in [.error]: the handler registered
    for it is the one a message of the type is routed to, messages of other
    such types are routed as before, and after [unregisterHandler] a
    message of the type is not handled and invokes nothing. *)
Theorem register_then_route reg ty h msg :
  endsWith ty ".error" = false ->
  invoked (routeMessage handle (registerHandler ty h reg) msg ty) = [h]
  /\ (forall ty', ty' <> ty -> endsWith ty' ".error" = false ->
        routeMessage handle (registerHandler ty h reg) msg ty'
        = routeMessage handle reg msg ty')
  /\ routeMessage handle (unregisterHandler ty (registerHandler ty h reg))
       msg ty
     = ([], inr false).
Proof.
  intros Hty. split_and!.
  - rewrite route_selects. unfold lookup_order. rewrite Hty. simpl.
    rewrite lookup_insert_eq. apply invoked_through.
  - intros ty' Hne Hty'. rewrite !route_selects. unfold lookup_order.
    rewrite Hty'. simpl. by rewrite lookup_insert_ne.
  - rewrite route_selects. unfold lookup_order. rewrite Hty. simpl.
    by rewrite lookup_delete_eq.
Qed.

End RegistryUse.

Lemma error_handler_covers_base_witness :
  Registry.invoked
    (Registry.routeMessage quiet_handle
       (Registry.registerErrorHandler "voicechat.audio" 2 chunk_registry) tt
       ("voicechat.audio" +:+ ".error"))
  = [2].
Proof.
  apply (error_handler_covers_base quiet_handle chunk_registry
           "voicechat.audio" 2 tt).
  reflexivity.
Defined.

Lemma register_then_route_witness :
  Registry.invoked
    (Registry.routeMessage faulty_handle
       (Registry.registerHandler "voicechat.response.chunk" 7
          audio_error_registry) tt "voicechat.response.chunk")
  = [7]
  /\ (forall ty', ty' <> "voicechat.response.chunk" ->
        endsWith ty' ".error" = false ->
        Registry.routeMessage faulty_handle
          (Registry.registerHandler "voicechat.response.chunk" 7
             audio_error_registry) tt ty'
        = Registry.routeMessage faulty_handle audio_error_registry tt ty')
  /\ Registry.routeMessage faulty_handle
       (Registry.unregisterHandler "voicechat.response.chunk"
          (Registry.registerHandler "voicechat.response.chunk" 7
             audio_error_registry)) tt "voicechat.response.chunk"
     = ([], inr false).
Proof.
  apply (register_then_route faulty_handle audio_error_registry
           "voicechat.response.chunk" 7 tt).
  reflexivity.
Defined.

(** ** EventEmitter *)

Section EmitterFacts.

Import Emitter.
Context {Callback Data : Type} `{EqDecision Callback}.
Variable call : Callback -> Data -> CallResult.
Implicit Types (e : EventEmitter Callback) (l : Listener Callback).

Lemma well_formed_empty : well_formed (empty (Callback := Callback)).
Proof. intros event callbacks. unfold empty. simpl. by rewrite lookup_empty. Qed.

Lemma add_cases l (callbacks : list (Listener Callback)) :
  NoDup callbacks -> add l callbacks <> [] /\ NoDup (add l callbacks).
Proof.
  intros Hnd. unfold add. case_decide as Hin.
  - split; [|done]. intros ->. by apply elem_of_nil in Hin.
  - split; [by destruct callbacks|].
    apply NoDup_app. split_and!; [done| |apply NoDup_singleton].
    intros x Hx ->%list_elem_of_singleton. done.
Qed.

Lemma well_formed_on event l e : well_formed e -> well_formed (on event l e).
Proof.
  intros Hwf ev callbacks. unfold on. simpl.
  destruct (decide (ev = event)) as [->|Hne].
  - rewrite lookup_insert_eq. intros [= <-]. apply add_cases.
    destruct (listeners e !! event) as [cs|] eqn:Hcs; simpl.
    + by destruct (Hwf _ _ Hcs).
    + apply NoDup_nil_2.
  - rewrite lookup_insert_ne by done. apply Hwf.
Qed.

Lemma well_formed_off event l e : well_formed e -> well_formed (off event l e).
Proof.
  intros Hwf ev callbacks. unfold off.
  destruct (listeners e !! event) as [cs|] eqn:Hcs; [|apply Hwf]. simpl.
  destruct (Nat.eqb_spec (length (filter (fun x => x <> l) cs)) 0) as [H0|H0].
  - destruct (decide (ev = event)) as [->|Hne].
    + by rewrite lookup_delete_eq.
    + rewrite lookup_delete_ne by done. apply Hwf.
  - destruct (decide (ev = event)) as [->|Hne].
    + rewrite lookup_insert_eq. intros [= <-]. split.
      * intros Hnil. apply H0. by rewrite Hnil.
      * apply NoDup_filter. by destruct (Hwf _ _ Hcs).
    + rewrite lookup_insert_ne by done. apply Hwf.
Qed.

Lemma with_set_lookup event (cs : list (Listener Callback)) m :
  cs <> [] -> with_set event cs m !! event = Some cs.
Proof.
  intros Hne. unfold with_set. destruct cs; [done|]. simpl.
  by rewrite lookup_insert_eq.
Qed.

Lemma with_set_again event (cs cs' : list (Listener Callback)) m :
  with_set event cs' (with_set event cs m) = with_set event cs' m.
Proof.
  unfold with_set.
  destruct (length cs' =? 0)%nat, (length cs =? 0)%nat.
  - apply delete_delete_eq.
  - apply delete_insert_eq.
  - by rewrite insert_delete_eq.
  - apply insert_insert_eq.
Qed.

Lemma emit_fold event data (m0 : gmap string (list (Listener Callback))) n :
  forall rest visited t,
    NoDup (visited ++ rest) ->
    foldl (invoke call event data)
      ({| listeners := with_set event (filter is_plain visited ++ rest) m0;
          nextClosure := n |}, t) rest
    = ({| listeners := with_set event (filter is_plain (visited ++ rest)) m0;
          nextClosure := n |},
       t ++ trace_of call data rest).
Proof.
  induction rest as [|l rest IH]; intros visited t Hnd.
  - simpl. by rewrite !app_nil_r.
  - pose proof Hnd as Hnd'.
    specialize (IH (visited ++ [l])).
    rewrite <- app_assoc in IH. cbn [foldl].
    unfold trace_of. rewrite bind_cons. fold (trace_of call data rest).
    rewrite app_assoc.
    destruct l as [cb|k cb].
    + unfold invoke at 2. cbn [fst snd callback_of].
      rewrite <- (IH _ Hnd'). rewrite filter_app, filter_cons_True by done.
      rewrite filter_nil, <- app_assoc. done.
    + unfold invoke at 2. cbn [fst snd callback_of].
      rewrite <- (IH _ Hnd'). f_equal. f_equal.
      unfold off. cbn [listeners nextClosure].
      rewrite with_set_lookup by (by destruct (filter is_plain visited)).
      cbv zeta. f_equal.
      assert (Hv : filter is_plain (visited ++ [OnceCallback k cb])
                   = filter is_plain visited).
      { rewrite filter_app, filter_cons_False by tauto.
        by rewrite filter_nil, app_nil_r. }
      rewrite Hv.
      assert (Hrm : filter (fun x => x <> OnceCallback k cb)
                      (filter is_plain visited ++ OnceCallback k cb :: rest)
                    = filter is_plain visited ++ rest).
      { rewrite filter_app, filter_cons_False by (intros Hn; by apply Hn).
        f_equal; apply filter_all.
        - intros x [Hp _]%list_elem_of_filter ->. done.
        - intros x Hx ->. apply NoDup_app in Hnd as (_ & _ & Hr).
          apply NoDup_cons in Hr as [Hr _]. done. }
      rewrite Hrm. apply (with_set_again event _ (filter is_plain visited ++ rest)).
Qed.

Lemma emit_spec event data e callbacks :
  well_formed e -> listeners e !! event = Some callbacks ->
  emit call event data e
  = ({| listeners := with_set event (filter is_plain callbacks) (listeners e);
        nextClosure := nextClosure e |},
     trace_of call data callbacks).
Proof.
  intros Hwf Hcs. destruct (Hwf _ _ Hcs) as [Hne Hnd].
  unfold emit. rewrite Hcs.
  pose proof (emit_fold event data (listeners e) (nextClosure e)
                callbacks [] [] Hnd) as Hf.
  simpl in Hf. rewrite <- Hf. f_equal. destruct e as [m n]. simpl in *.
  f_equal. f_equal. unfold with_set. destruct callbacks; [done|]. simpl.
  symmetry. by apply insert_id.
Qed.

Lemma called_trace_of data (callbacks : list (Listener Callback)) :
  called (trace_of call data callbacks) = map callback_of callbacks.
Proof.
  induction callbacks as [|l cs IH]; [done|].
  unfold trace_of. rewrite bind_cons. fold (trace_of call data cs).
  unfold called. rewrite omap_app. fold (called (trace_of call data cs)).
  rewrite IH. simpl. by destruct (call (callback_of l) data).
Qed.

Lemma well_formed_emit event data e :
  well_formed e -> well_formed (emit call event data e).1.
Proof.
  intros Hwf.
  destruct (listeners e !! event) as [cs|] eqn:Hcs.
  2:{ unfold emit. by rewrite Hcs. }
  rewrite (emit_spec _ _ _ _ Hwf Hcs). cbn [fst].
  destruct (Hwf _ _ Hcs) as [Hne Hnd].
  intros ev cs'. simpl. unfold with_set.
  destruct (Nat.eqb_spec (length (filter is_plain cs)) 0) as [H0|H0].
  - destruct (decide (ev = event)) as [->|Hev].
    + by rewrite lookup_delete_eq.
    + rewrite lookup_delete_ne by done. apply Hwf.
  - destruct (decide (ev = event)) as [->|Hev].
    + rewrite lookup_insert_eq. intros [= <-]. split.
      * intros Hnil. apply H0. by rewrite Hnil.
      * by apply NoDup_filter.
    + rewrite lookup_insert_ne by done. apply Hwf.
Qed.

Lemma well_formed_run ops :
  well_formed (run call ops (empty (Callback := Callback))).
Proof.
  unfold run. induction ops as [|o ops IH] using rev_ind;
    [apply well_formed_empty|].
  rewrite foldl_app. simpl. set (e := foldl (step call) empty ops) in *.
  destruct o as [event cb|event cb|event l|event data|[event|]]; simpl.
  - by apply well_formed_on.
  - apply well_formed_on. intros ev cs. apply IH.
  - by apply well_formed_off.
  - by apply well_formed_emit.
  - unfold removeAllListeners. destruct (String.eqb event "").
    + intros ev cs. simpl. by rewrite lookup_empty.
    + intros ev cs. simpl. destruct (decide (ev = event)) as [->|Hne].
      * by rewrite lookup_delete_eq.
      * rewrite lookup_delete_ne by done. apply IH.
  - intros ev cs. simpl. by rewrite lookup_empty.
Qed.

(** X17. Subscribing a listener that is subscribed already changes
    nothing: the emitter is the same. A new listener is added after the
    listeners of its event, and the function returned by [on] removes it
    again, leaving the emitter as it was. [off] leaves exactly the other
    listeners of the event, in their order, also right after [on]. Neither
    touches the listeners of another event. *)
Theorem subscribe_unsubscribe ops event l :
  let e := run call ops empty in
  let subscribed := default [] (listeners e !! event) in
  (l ∈ subscribed -> on event l e = e)
  /\ (l ∉ subscribed ->
        listeners (on event l e) !! event = Some (subscribed ++ [l])
        /\ off event l (on event l e) = e)
  /\ default [] (listeners (off event l e) !! event)
     = filter (fun x => x <> l) subscribed
  /\ default [] (listeners (off event l (on event l e)) !! event)
     = filter (fun x => x <> l) subscribed
  /\ (forall ev, ev <> event ->
        listeners (on event l e) !! ev = listeners e !! ev
        /\ listeners (off event l e) !! ev = listeners e !! ev).
Proof.
  intros e subscribed.
  pose proof (well_formed_run ops) as Hwf. fold e in Hwf. clearbody e.
  assert (Hon : l ∈ subscribed -> on event l e = e).
  { intros Hin. subst subscribed. unfold on.
    destruct (listeners e !! event) as [cs|] eqn:Hcs; cbn [default] in *.
    - unfold add. rewrite decide_True by done.
      destruct e as [m n]. cbn [listeners nextClosure] in *. f_equal.
      by apply insert_id.
    - by apply elem_of_nil in Hin. }
  assert (Hoff : forall e', well_formed e' ->
            default [] (listeners (off event l e') !! event)
            = filter (fun x => x <> l)
                (default [] (listeners e' !! event))).
  { intros e' _. unfold off.
    destruct (listeners e' !! event) as [cs|] eqn:Hcs; cbn [default].
    - cbv zeta. cbn [listeners].
      destruct (Nat.eqb_spec (length (filter (fun x => x <> l) cs)) 0)
        as [H0|H0].
      + rewrite lookup_delete_eq. simpl. symmetry.
        by apply nil_length_inv.
      + by rewrite lookup_insert_eq.
    - by rewrite Hcs. }
  assert (Hnew : l ∉ subscribed ->
            listeners (on event l e) !! event = Some (subscribed ++ [l])
            /\ off event l (on event l e) = e).
  { intros Hnot. split.
    - unfold on. cbn [listeners]. rewrite lookup_insert_eq.
      fold subscribed. unfold add. by rewrite decide_False.
    - unfold off, on. cbn [listeners nextClosure].
      rewrite lookup_insert_eq. cbv zeta. cbn [listeners nextClosure].
      fold subscribed. unfold add. rewrite decide_False by done.
      rewrite filter_app, filter_cons_False by (intros Hn; by apply Hn).
      rewrite filter_nil, app_nil_r.
      assert (Hsame : filter (fun x => x <> l) subscribed = subscribed).
      { apply filter_all. intros x Hx ->. done. }
      rewrite Hsame. destruct e as [m n]. cbn [listeners nextClosure] in *.
      f_equal.
      subst subscribed.
      destruct (m !! event) as [cs|] eqn:Hcs; cbn [default].
      + destruct (Hwf _ _ Hcs) as [Hne _].
        destruct cs; [done|]. cbn [length Nat.eqb].
        rewrite insert_insert_eq. by apply insert_id.
      + cbn [length Nat.eqb]. rewrite delete_insert_eq. by apply delete_id. }
  split_and!; try done.
  - by apply Hoff.
  - destruct (decide (l ∈ subscribed)) as [Hin|Hnot].
    + rewrite (Hon Hin). by apply Hoff.
    + destruct (Hnew Hnot) as [_ ->]. fold subscribed.
      symmetry. apply filter_all. intros x Hx ->. done.
  - intros ev Hev. split.
    + unfold on. cbn [listeners]. by rewrite lookup_insert_ne.
    + unfold off. destruct (listeners e !! event) as [cs|]; [|done].
      cbv zeta. cbn [listeners].
      destruct (length _ =? 0)%nat.
      * by rewrite lookup_delete_ne.
      * by rewrite lookup_insert_ne.
Qed.

(** X18. [emit] calls every listener of the event once, in the order of
    subscription, whatever the listeners before it did: an error thrown by
    one is logged and the next is called. *)
Theorem emit_calls_each_once ops event data :
  let e := run call ops empty in
  let subscribed := default [] (listeners e !! event) in
  (emit call event data e).2 = trace_of call data subscribed
  /\ called (emit call event data e).2 = map callback_of subscribed.
Proof.
  intros e subscribed. subst subscribed.
  pose proof (well_formed_run ops) as Hwf. fold e in Hwf. clearbody e.
  destruct (listeners e !! event) as [cs|] eqn:Hcs; simpl.
  - rewrite (emit_spec _ _ _ _ Hwf Hcs). simpl.
    split; [done|apply called_trace_of].
  - unfold emit. by rewrite Hcs.
Qed.

(** X19. A listener subscribed with [once] is called by the first [emit] of
    its event and has left when that [emit] is over: the listeners left are
    those subscribed with [on], other events keep theirs, and the next
    [emit] calls those of [on] only. *)
Theorem once_fires_once ops event data data' :
  let e := run call ops empty in
  let subscribed := default [] (listeners e !! event) in
  let e' := (emit call event data e).1 in
  default [] (listeners e' !! event) = filter is_plain subscribed
  /\ (forall ev, ev <> event -> listeners e' !! ev = listeners e !! ev)
  /\ called (emit call event data' e').2
     = map callback_of (filter is_plain subscribed).
Proof.
  intros e subscribed e'. subst subscribed e'.
  pose proof (well_formed_run ops) as Hwf. fold e in Hwf.
  pose proof (well_formed_emit event data e Hwf) as Hwf'. clearbody e.
  destruct (listeners e !! event) as [cs|] eqn:Hcs; simpl.
  2:{ unfold emit. rewrite Hcs. simpl. rewrite Hcs. simpl.
      by split_and!. }
  revert Hwf'. rewrite (emit_spec _ _ _ _ Hwf Hcs). cbn [fst snd].
  set (e' := {| listeners := _ |}). intros Hwf'.
  destruct (Hwf _ _ Hcs) as [Hne Hnd].
  assert (Hleft : listeners e' !! event
                  = if (length (filter is_plain cs) =? 0)%nat then None
                    else Some (filter is_plain cs)).
  { subst e'. simpl. unfold with_set.
    destruct (length (filter is_plain cs) =? 0)%nat.
    - apply lookup_delete_eq.
    - apply lookup_insert_eq. }
  split_and!.
  - rewrite Hleft.
    destruct (Nat.eqb_spec (length (filter is_plain cs)) 0) as [H0|H0];
      [|done].
    simpl. by destruct (filter is_plain cs).
  - intros ev Hev. subst e'. simpl. unfold with_set.
    destruct (length (filter is_plain cs) =? 0)%nat.
    + by rewrite lookup_delete_ne.
    + by rewrite lookup_insert_ne.
  - destruct (Nat.eqb_spec (length (filter is_plain cs)) 0) as [H0|H0].
    + unfold emit. rewrite Hleft.
      destruct (filter is_plain cs); [done|]. done.
    + rewrite (emit_spec _ _ _ (filter is_plain cs) Hwf').
      * cbn [snd]. apply called_trace_of.
      * rewrite Hleft. by destruct (filter is_plain cs).
Qed.

End EmitterFacts.

(** ** NetworkMonitor *)

Section MonitorFacts.

Import Monitor.
Implicit Types (m : NetworkMonitor).

Lemma burst_pending burst m :
  listening m = true -> forallb is_report burst = true ->
  run burst m
  = {| isOnline := isOnline m;
       debounceTimer :=
         match last burst with
         | Some e => Some (reported e)
         | None => debounceTimer m
         end;
       listening := true; emitted := emitted m |}.
Proof.
  revert m. induction burst as [|e burst IH]; intros m Hl Hb.
  - simpl. destruct m. simpl in *. by subst.
  - simpl in Hb. apply andb_prop in Hb as [He Hb]. simpl.
    assert (Hs : listening (step m e) = true /\ isOnline (step m e) = isOnline m
                 /\ emitted (step m e) = emitted m
                 /\ debounceTimer (step m e) = Some (reported e)).
    { destruct e; try done; simpl; by rewrite Hl. }
    destruct Hs as (Hl' & Ho' & Hem' & Ht').
    rewrite (IH _ Hl' Hb), Ho', Hem', Ht'.
    destruct burst as [|e' burst']; [done|].
    rewrite last_cons_cons.
    destruct (last (e' :: burst')) eqn:Hlast; [done|].
    by apply last_None in Hlast.
Qed.

(** X20. Debouncing: of a burst of reports of the browser with no timer firing
    in between, only the last counts. When the timer fires, the status
    becomes what the last report said, and ['change'] is emitted if and
    only if that differs from the status before the burst. *)
Theorem debounce_last_wins burst e m :
  listening m = true -> forallb is_report (burst ++ [e]) = true ->
  let m' := run (burst ++ [e] ++ [TimerFired]) m in
  isOnline m' = reported e
  /\ debounceTimer m' = None
  /\ emitted m'
     = emitted m
       ++ (if Bool.eqb (isOnline m) (reported e) then []
           else [if reported e then Online else Offline; Change (reported e)]).
Proof.
  intros Hl Hb m'. subst m'. rewrite app_assoc. unfold run.
  rewrite foldl_app. fold (run (burst ++ [e]) m).
  rewrite (burst_pending _ _ Hl Hb), last_snoc. simpl.
  unfold timerCallback. simpl.
  destruct (reported e), (isOnline m); simpl; by rewrite ?app_nil_r.
Qed.

Lemma changes_app l1 l2 : changes (l1 ++ l2) = changes l1 ++ changes l2.
Proof. apply omap_app. Qed.

Lemma alternates_app b l1 l2 :
  alternates b (l1 ++ l2)
  = alternates b l1 && alternates (default b (last l1)) l2.
Proof.
  revert b. induction l1 as [|x l1 IH]; intros b; [done|].
  simpl alternates. rewrite IH, andb_assoc. f_equal.
  destruct l1 as [|y l1]; [done|]. rewrite last_cons_cons.
  destruct (last (y :: l1)) eqn:Hlast; [done|]. by apply last_None in Hlast.
Qed.

(** X21. The monitor reports changes only: the values of the ['change'] events
    alternate, beginning with the opposite of the initial status, and
    [getStatus] is the value of the last one. *)
Theorem monitor_reports_changes online es :
  let m := run es (init online) in
  alternates online (changes (emitted m)) = true
  /\ getStatus m = default online (last (changes (emitted m))).
Proof.
  intros m. subst m. unfold run.
  induction es as [|e es IH] using rev_ind; [done|].
  rewrite foldl_app. simpl. destruct IH as [IH1 IH2].
  set (m := foldl step (init online) es) in *.
  unfold getStatus in *.
  destruct e; simpl.
  - by destruct (listening m).
  - by destruct (listening m).
  - destruct (debounceTimer m) as [[]|]; [| |done]; unfold timerCallback;
      destruct (isOnline m) eqn:Ho; cbn [emitted isOnline negb]; try done.
    all: rewrite ?Ho; try (split; [done|by rewrite ?Ho]).
    all: rewrite changes_app, alternates_app, IH1, <- IH2, last_app; done.
  - done.
Qed.

End MonitorFacts.

Lemma debounce_last_wins_witness :
  let m' := Monitor.run
              ([Monitor.WindowOffline; Monitor.WindowOnline]
               ++ [Monitor.WindowOffline] ++ [Monitor.TimerFired])
              (Monitor.init true) in
  Monitor.isOnline m' = Monitor.reported Monitor.WindowOffline
  /\ Monitor.debounceTimer m' = None
  /\ Monitor.emitted m'
     = Monitor.emitted (Monitor.init true)
       ++ (if Bool.eqb (Monitor.isOnline (Monitor.init true))
                (Monitor.reported Monitor.WindowOffline)
           then []
           else [if Monitor.reported Monitor.WindowOffline
                 then Monitor.Online else Monitor.Offline;
                 Monitor.Change (Monitor.reported Monitor.WindowOffline)]).
Proof.
  apply (debounce_last_wins [Monitor.WindowOffline; Monitor.WindowOnline]
           Monitor.WindowOffline (Monitor.init true)).
  - reflexivity.
  - reflexivity.
Defined.

(** ** SocketManager: acknowledgments and handlers *)

Section ManagerFacts.

Import Tracker Manager.
Context {Handler : Type}.
Variable handle : Handler -> UnpackedMessage -> string -> Registry.HandleResult.
Variable CONNECTION_ACK : string.
Implicit Types (m : SocketManager Handler).

Lemma invocations_logged l m :
  invocations (logged l m)
  = invocations m ++ invocations (logged l (@Manager.init Handler)).
Proof. unfold invocations. simpl. by rewrite bind_app. Qed.

(** X22. A reply with [success: true] whose event id is pending settles the
    request and reaches no handler, whatever its event type and whatever is
    registered for it; every other message with an event type is routed
    through the registry. *)
Theorem ack_bypasses_handlers m message :
  msg_eventType message <> "" ->
  let m' :=
    Manager.handleIncomingData handle CONNECTION_ACK (inr message) m in
  let reg := handlerRegistry m in
  let t := requestTracker m in
  match
    (if msg_success message then truthy (msg_eventId message) else None)
      ≫= (fun eid => pair eid <$> get eid t)
  with
  | Some (eid, r) =>
      invocations m' = invocations m
      /\ handlerRegistry m' = reg
      /\ settled (requestTracker m')
         = settled t ++ map (fun p => (p, Resolved message)) (listeners r)
      /\ get eid (requestTracker m') = None
  | None =>
      invocations m'
      = invocations m
        ++ Registry.invoked
             (Registry.routeMessage handle reg message
                (msg_eventType message))
  end.
Proof.
  intros Hty m' reg t. subst m'. unfold Manager.handleIncomingData.
  apply String.eqb_neq in Hty. rewrite Hty.
  set (m1 := match truthy (msg_sessionId message) with
             | Some sid =>
                 if String.eqb (msg_eventType message) CONNECTION_ACK
                 then logged [ConnectionAck sid] (set_sessionId (Some sid) m)
                 else m
             | None => m
             end).
  assert (Hm1 : invocations m1 = invocations m
                /\ handlerRegistry m1 = reg /\ requestTracker m1 = t).
  { subst m1. destruct (truthy (msg_sessionId message)); [|done].
    destruct (String.eqb _ CONNECTION_ACK); [|done].
    split; [|done]. unfold invocations. simpl. rewrite bind_app. simpl.
    by rewrite app_nil_r. }
  destruct Hm1 as (Hi & Hr & Ht).
  assert (Hroute : invocations (route handle message m1)
                   = invocations m
                     ++ Registry.invoked
                          (Registry.routeMessage handle reg message
                             (msg_eventType message))
                   /\ handlerRegistry (route handle message m1) = reg
                   /\ requestTracker (route handle message m1) = t).
  { unfold route. rewrite Hr.
    destruct (Registry.routeMessage _ _ _ _) as [trace [error|handled]].
    - split; [|done]. rewrite invocations_logged, Hi.
      unfold invocations. simpl. by rewrite app_nil_r.
    - split; [|done]. rewrite invocations_logged, Hi.
      unfold invocations. destruct handled; simpl; by rewrite ?app_nil_r. }
  unfold checkIfAck.
  destruct (msg_success message); simpl negb; cbv iota;
    [|by destruct Hroute].
  destruct (truthy (msg_eventId message)) as [eid|] eqn:He; simpl;
    [|by destruct Hroute].
  rewrite Ht. unfold matchAck.
  destruct (get eid t) as [r|] eqn:Hg; simpl.
  - rewrite settle_request_eq. simpl. split_and!; try done.
    apply lookup_first_filter_eq.
  - assert (Hsame : set_requestTracker t m1 = m1)
      by (rewrite <- Ht; clearbody m1; by destruct m1).
    rewrite Hsame. by destruct Hroute.
Qed.

End ManagerFacts.

Lemma ack_bypasses_handlers_witness :
  let m' := Manager.handleIncomingData ack_handle "connection.ack"
              (inr start_ack) awaiting_ack in
  Manager.invocations m' = Manager.invocations awaiting_ack
  /\ Manager.handlerRegistry m' = Manager.handlerRegistry awaiting_ack
  /\ Tracker.settled (Manager.requestTracker m')
     = Tracker.settled (Manager.requestTracker awaiting_ack)
       ++ map (fun p => (p, Tracker.Resolved start_ack))
            (Tracker.listeners first_request)
  /\ Tracker.get "e1" (Manager.requestTracker m') = None.
Proof.
  apply (ack_bypasses_handlers ack_handle "connection.ack" awaiting_ack
           start_ack).
  vm_compute. discriminate.
Defined.
